(** * Supercell construction and indexing of tbplas (tbplas/builder/super.py)

    A shallow embedding of the classes [OrbitalSet] and [SuperCell] of
    [tbplas/builder/super.py].  Python objects become a record threaded
    through a state-and-exception monad: a method that raises leaves the
    attributes as they were at the [raise] statement.

    The Cython module [core] and the module [base] are imported by super.py
    but their sources are not part of the repository snapshot; the functions
    super.py calls are modelled in the modules [base] and [core] below. *)

From Stdlib Require Import ZArith Lia Bool.
From stdpp Require Import base tactics option list list_numbers numbers sorting sets.

#[local] Open Scope Z_scope.

(** ** Data *)

(** A complex128 hopping energy.  super.py only copies energies and calls
    [conjugate] on them, so the two components are kept as integers. *)
Record complex := Complex { real : Z; imag : Z }.

Definition conjugate (z : complex) : complex := Complex (real z) (- imag z).

#[export] Instance complex_eq_dec : EqDecision complex.
Proof. solve_decision. Defined.

(** A (3,) integer array, as [dim], [pbc] and the cell index of a hopping. *)
Record vec3 := Vec3 { v0 : Z; v1 : Z; v2 : Z }.

#[export] Instance vec3_eq_dec : EqDecision vec3.
Proof. solve_decision. Defined.

(** [v.item(i)] for [i] in [range(3)]. *)
Definition item (v : vec3) (i : Z) : Z :=
  if i =? 0 then v0 v else if i =? 1 then v1 v else v2 v.

(** [np.array(t)] for a tuple [t] of length 3. *)
Definition np_array3 (t : list Z) : vec3 :=
  Vec3 (nth 0 t 0) (nth 1 t 0) (nth 2 t 0).

Definition tuple3 (v : vec3) : list Z := [v0 v; v1 v; v2 v].

(** [np.prod(dim)]. *)
Definition np_prod (v : vec3) : Z := v0 v * v1 v * v2 v.

(** An orbital or vacancy index in primitive cell representation
    [(ia, ib, ic, io)]: a Python tuple or an int32 row, whose length is only
    checked at run time. *)
Abbreviation id_pc_type := (list Z).

(** [t[i]] on a tuple whose length has been checked. *)
Definition getitem (t : list Z) (i : Z) : Z := nth (Z.to_nat i) t 0.

(** [x in range(n)]. *)
Definition in_range (x n : Z) : bool := (0 <=? x) && (x <? n).

(** One row of an [(n, 5)] hopping index array: cell index, bra and ket. *)
Record hop_ind_row := HopInd { h_rn : vec3; h_bra : Z; h_ket : Z }.

#[export] Instance hop_ind_row_eq_dec : EqDecision hop_ind_row.
Proof. solve_decision. Defined.

(** The three arrays [(hop_i, hop_j, hop_v)]. *)
Abbreviation hop_arrays := (list Z * list Z * list complex)%type.

(** The attributes of the primitive cell that super.py reads. *)
Record PrimitiveCell := {
  num_orb : Z;
  hop_ind : list hop_ind_row;
  hop_eng : list complex
}.

(** A user function stored in [orb_pos_modifier]; only its identity matters
    to the operations modelled here. *)
Inductive callable := Callable (id : nat).

(** The exceptions of [tbplas.builder.exceptions] raised by super.py, and the
    two built-in ones numpy raises. *)
Inductive exc :=
| SCDimLenError (dim : list Z)
| SCDimSizeError (i : Z) (dim_min : Z)
| PBCLenError (pbc : list bool)
| IDPCLenError (id_pc : list Z)
| IDPCIndexError (i_dim : Z) (id_pc : list Z)
| IDPCVacError (id_pc : list Z)
| VacIDPCLenError (id_pc : list Z)
| VacIDPCIndexError (i_dim : Z) (id_pc : list Z)
| IDSCIndexError (id_sc : Z)
| SCLockError
| SCOrbIndexError (orb : Z)
| SCHopDiagonalError (rn : list Z) (orb : Z)
| CellIndexLenError (rn : list Z)
| ValueError
| IndexError.

Inductive result (A : Type) :=
| Ok (a : A)
| Raise (e : exc).
Arguments Ok {A} a.
Arguments Raise {A} e.

(** ** Module [base] *)

Module base.

(** Modelled from the spec: [check_rn] of base.py, which is not in the
    snapshot.  The callers document it: a cell index or dimension is legal
    when it has 2 or 3 components, and a missing third component is
    completed with [complete_item]. *)
Definition check_rn (rn : list Z) (complete_item : Z) : list Z * bool :=
  match rn with
  | [a; b] => ([a; b; complete_item], true)
  | [a; b; c] => ([a; b; c], true)
  | _ => (rn, false)
  end.

(** Modelled from the spec: [check_pbc] of base.py, the same check on the
    periodicity flags. *)
Definition check_pbc (pbc : list bool) (complete_item : bool) : list bool * bool :=
  match pbc with
  | [a; b] => ([a; b; complete_item], true)
  | [a; b; c] => ([a; b; c], true)
  | _ => (pbc, false)
  end.

(** Modelled from the spec: the class [IntraHopping] of base.py, a mapping
    keyed by (cell offset, bra, ket) holding an energy.  A Python dict keeps
    the insertion order and overwrites the value of a key it already has. *)
Abbreviation IntraHopping := (list (hop_ind_row * complex)).

Definition empty : IntraHopping := [].

Fixpoint add_hopping (h : IntraHopping) (key : hop_ind_row) (energy : complex)
  : IntraHopping :=
  match h with
  | [] => [(key, energy)]
  | (k, e) :: h' =>
      if decide (k = key) then (k, energy) :: h'
      else (k, e) :: add_hopping h' key energy
  end.

Definition num_hop (h : IntraHopping) : Z := Z.of_nat (length h).

(** [to_array]: the [(n, 5)] index array and the [(n,)] energy array. *)
Definition to_array (h : IntraHopping) : list hop_ind_row * list complex :=
  (h.*1, h.*2).

(** [remove_orbitals]: purge the entries that mention a removed orbital. *)
Definition remove_orbitals (h : IntraHopping) (id_sc : list Z) : IntraHopping :=
  filter (λ ke, (h_bra (fst ke) ∉ id_sc) ∧ (h_ket (fst ke) ∉ id_sc)) h.

End base.

(** ** Module [core]: index conversion *)

Module core.

(** Modelled from the spec: the index codec of core.pyx (not in the
    snapshot).  The flat index is row-major over (a, b, c, orbital) with the
    orbital as the fastest-varying component. *)
Definition _id_pc2sc (dim : vec3) (num_orb_pc : Z) (id_pc : id_pc_type) : Z :=
  ((getitem id_pc 0 * v1 dim + getitem id_pc 1) * v2 dim + getitem id_pc 2)
  * num_orb_pc + getitem id_pc 3.

(** Modelled from the spec: the inverse of the codec. *)
Definition _id_sc2pc (dim : vec3) (num_orb_pc : Z) (id_sc : Z) : id_pc_type :=
  let io := id_sc mod num_orb_pc in
  let k1 := id_sc / num_orb_pc in
  let ic := k1 mod v2 dim in
  let k2 := k1 / v2 dim in
  [k2 / v1 dim; k2 mod v1 dim; ic; io].

(** Modelled from the spec: [vac_id_sc], the flat ids of the vacancies. *)
Definition build_vac_id_sc (dim : vec3) (num_orb_pc : Z)
    (vac_id_pc : list id_pc_type) : list Z :=
  (_id_pc2sc dim num_orb_pc) <$> vac_id_pc.

(** The primitive-cell indices of the first [count] flat ids, in order. *)
Definition all_id_pc (dim : vec3) (num_orb_pc : Z) (count : Z)
  : list id_pc_type :=
  (_id_sc2pc dim num_orb_pc) <$> seqZ 0 count.

(** Modelled from the spec: [orb_id_pc], for every surviving compacted
    index the originating primitive-cell index, ordered by compacted index:
    the flat ids are enumerated in order and the vacancies skipped. *)
Definition build_orb_id_pc (dim : vec3) (num_orb_pc : Z)
    (vac_id_pc : option (list id_pc_type)) : list id_pc_type :=
  let all := all_id_pc dim num_orb_pc (num_orb_pc * np_prod dim) in
  match vac_id_pc with
  | None => all
  | Some vac => filter (λ p, p ∉ vac) all
  end.

(** Modelled from the spec: the compacted primitive-to-flat mapping.  A
    vacancy has no supercell slot ([-1]); a live orbital gets its flat id
    less the number of vacancies below it, which is the position the search
    in the increasing [vac_id_sc] yields. *)
Definition id_pc2sc (dim : vec3) (num_orb_pc : Z) (id_pc : id_pc_type)
    (vac_id_sc : option (list Z)) : Z :=
  let k := _id_pc2sc dim num_orb_pc id_pc in
  match vac_id_sc with
  | None => k
  | Some vac =>
      if decide (k ∈ vac) then -1
      else k - Z.of_nat (length (filter (λ v, v < k) vac))
  end.

(** Position of the first element of [l] that fails [ok]. *)
Fixpoint first_bad {A} (ok : A → bool) (l : list A) : option nat :=
  match l with
  | [] => None
  | x :: l' => if ok x then S <$> first_bad ok l' else Some 0%nat
  end.

(** Modelled from the spec: [check_id_sc_array], the batched range check.
    The status is [(-1, position)] at the first offending element and
    [(0, 0)] when there is none. *)
Definition check_id_sc_array (num_orb_sc : Z) (id_sc_array : list Z) : Z * Z :=
  match first_bad (λ x, in_range x num_orb_sc) id_sc_array with
  | Some k => (-1, Z.of_nat k)
  | None => (0, 0)
  end.

(** Modelled from the spec: [id_sc2pc_array], the batched lookup. *)
Definition id_sc2pc_array (orb_id_pc : list id_pc_type) (id_sc_array : list Z)
  : list id_pc_type :=
  (λ k, nth (Z.to_nat k) orb_id_pc []) <$> id_sc_array.

(** The first axis (0, 1, 2 for the cell, 3 for the orbital) on which a row
    is out of range. *)
Definition bad_axis (dim : vec3) (num_orb_pc : Z) (id_pc : id_pc_type)
  : option Z :=
  if negb (in_range (getitem id_pc 0) (v0 dim)) then Some 0
  else if negb (in_range (getitem id_pc 1) (v1 dim)) then Some 1
  else if negb (in_range (getitem id_pc 2) (v2 dim)) then Some 2
  else if negb (in_range (getitem id_pc 3) num_orb_pc) then Some 3
  else None.

(** Modelled from the spec: [check_id_pc_array], the batched validation in
    one pass.  The status is [(-2, position, axis)] when the first offending
    row is out of range, [(-1, position, 4)] when it is a vacancy, and
    [(0, 0, 0)] when every row is a live orbital. *)
Fixpoint check_id_pc_array_from (pos : Z) (dim : vec3) (num_orb_pc : Z)
    (id_pc_array : list id_pc_type) (vac_id_pc : option (list id_pc_type))
  : Z * Z * Z :=
  match id_pc_array with
  | [] => (0, 0, 0)
  | p :: rest =>
      match bad_axis dim num_orb_pc p with
      | Some ax => (-2, pos, ax)
      | None =>
          if decide (p ∈ default [] vac_id_pc) then (-1, pos, 4)
          else check_id_pc_array_from (pos + 1) dim num_orb_pc rest vac_id_pc
      end
  end.

Definition check_id_pc_array := check_id_pc_array_from 0.

(** Modelled from the spec: [id_pc2sc_array], the batched conversion. *)
Definition id_pc2sc_array (dim : vec3) (num_orb_pc : Z)
    (id_pc_array : list id_pc_type) (vac_id_sc : option (list Z)) : list Z :=
  (λ p, id_pc2sc dim num_orb_pc p vac_id_sc) <$> id_pc_array.

(** ** Module [core]: hopping terms *)

(** [enumerate(l)]. *)
Definition enumerate {A} (l : list A) : list (Z * A) :=
  zip (seqZ 0 (Z.of_nat (length l))) l.

(** One axis of the destination cell: wrapped around when the axis is
    periodic, dropped when it leaves the bounded region otherwise. *)
Definition wrap_axis (pbc_i dim_i x : Z) : option Z :=
  if pbc_i =? 0 then (if in_range x dim_i then Some x else None)
  else Some (x mod dim_i).

Definition dest_id_pc (dim pbc : vec3) (p : id_pc_type) (rn : vec3) (ket : Z)
  : option id_pc_type :=
  a ← wrap_axis (v0 pbc) (v0 dim) (getitem p 0 + v0 rn);
  b ← wrap_axis (v1 pbc) (v1 dim) (getitem p 1 + v1 rn);
  c ← wrap_axis (v2 pbc) (v2 dim) (getitem p 2 + v2 rn);
  Some [a; b; c; ket].

(** The terms one primitive-cell hopping term gives rise to: one for every
    replica of its bra orbital among the live orbitals, unless the
    destination leaves the region or is a vacancy. *)
Definition emit_term (dim pbc : vec3) (num_orb_pc : Z)
    (orb_id_pc : list id_pc_type) (vac_id_sc : option (list Z))
    (term : hop_ind_row * complex) : list (Z * Z * complex) :=
  omap (λ ip : Z * id_pc_type,
    if getitem ip.2 3 =? h_bra term.1 then
      q ← dest_id_pc dim pbc ip.2 (h_rn term.1) (h_ket term.1);
      let k := id_pc2sc dim num_orb_pc q vac_id_sc in
      if k =? -1 then None else Some (ip.1, k, term.2)
    else None) (enumerate orb_id_pc).

Definition unzip3 {A B C} (l : list (A * B * C)) : list A * list B * list C :=
  (l.*1.*1, l.*1.*2, l.*2).

(** Modelled from the spec: [build_hop], the general algorithm: for every
    primitive-cell hopping term and every replica implied by the supercell
    dimensions, compute the destination cell, wrap it around on the periodic
    axes and discard the term when it leaves the region on another axis,
    skip it when an endpoint is a vacancy, and emit it. *)
Definition build_hop (pc_hop_ind : list hop_ind_row) (pc_hop_eng : list complex)
    (dim pbc : vec3) (num_orb_pc : Z) (orb_id_pc : list id_pc_type)
    (vac_id_sc : option (list Z)) : list Z * list Z * list complex :=
  unzip3 (zip pc_hop_ind pc_hop_eng
            ≫= emit_term dim pbc num_orb_pc orb_id_pc vac_id_sc).

(** A term stays in the periodic part when its cell index is zero on every
    axis that is not periodic: no replica of it can leave the region. *)
Definition is_pbc_term (pbc : vec3) (r : hop_ind_row) : bool :=
  ((negb (v0 pbc =? 0)) || (v0 (h_rn r) =? 0))
  && ((negb (v1 pbc =? 0)) || (v1 (h_rn r) =? 0))
  && ((negb (v2 pbc =? 0)) || (v2 (h_rn r) =? 0)).

(** Modelled from the spec: [split_pc_hop], the partition of the hopping
    table of the primitive cell into the periodic part and the rest. *)
Definition split_pc_hop (pc_hop_ind : list hop_ind_row)
    (pc_hop_eng : list complex) (pbc : vec3)
  : list hop_ind_row * list complex * list hop_ind_row * list complex :=
  let terms := zip pc_hop_ind pc_hop_eng in
  let per := filter (λ t, is_pbc_term pbc t.1 = true) terms in
  let free := filter (λ t, is_pbc_term pbc t.1 ≠ true) terms in
  (per.*1, per.*2, free.*1, free.*2).

(** The cells of the supercell in row-major order. *)
Definition cells (dim : vec3) : list (Z * Z * Z) :=
  a ← seqZ 0 (v0 dim); b ← seqZ 0 (v1 dim); c ← seqZ 0 (v2 dim);
  [(a, b, c)].

Definition wrap_pbc (pbc_i dim_i x : Z) : Z :=
  if pbc_i =? 0 then x else x mod dim_i.

(** The terms one hopping term of the periodic part gives rise to: one per
    cell, with indices given in closed form by the codec. *)
Definition emit_term_pbc (dim pbc : vec3) (num_orb_pc : Z)
    (term : hop_ind_row * complex) : list (Z * Z * complex) :=
  (λ abc : Z * Z * Z,
     (_id_pc2sc dim num_orb_pc [abc.1.1; abc.1.2; abc.2; h_bra term.1],
      _id_pc2sc dim num_orb_pc
        [wrap_pbc (v0 pbc) (v0 dim) (abc.1.1 + v0 (h_rn term.1));
         wrap_pbc (v1 pbc) (v1 dim) (abc.1.2 + v1 (h_rn term.1));
         wrap_pbc (v2 pbc) (v2 dim) (abc.2 + v2 (h_rn term.1));
         h_ket term.1],
      term.2)) <$> cells dim.

(** Modelled from the spec: [build_hop_pbc], the fast algorithm on the
    periodic part: every cell carries exactly one copy of every term, so
    the output has [len(ind_pbc) * prod(dim)] entries whose indices are
    given in closed form, without testing any term. *)
Definition build_hop_pbc (ind_pbc : list hop_ind_row) (eng_pbc : list complex)
    (dim pbc : vec3) (num_orb_pc : Z) : list Z * list Z * list complex :=
  unzip3 (zip ind_pbc eng_pbc ≫= emit_term_pbc dim pbc num_orb_pc).

(** Position of the first entry [(x, y)] of the index arrays, counted from
    [pos], or [-1]. *)
Fixpoint find_pair (hop_i hop_j : list Z) (x y : Z) (pos : Z) : Z :=
  match hop_i, hop_j with
  | i :: hi, j :: hj =>
      if (i =? x) && (j =? y) then pos else find_pair hi hj x y (pos + 1)
  | _, _ => -1
  end.

(** Modelled from the spec: [find_equiv_hopping], the search of the raw
    arrays for an exact match (bra, ket) and for the conjugate match
    (ket, bra); each index is [-1] when there is no such entry. *)
Definition find_equiv_hopping (hop_i hop_j : list Z) (bra ket : Z) : Z * Z :=
  (find_pair hop_i hop_j bra ket 0, find_pair hop_i hop_j ket bra 0).

(** Modelled from the spec: [get_orb_id_trim], the primitive-cell indices
    of the orbitals that are an endpoint of no hopping term. *)
Definition get_orb_id_trim (orb_id_pc : list id_pc_type) (hop_i hop_j : list Z)
  : list id_pc_type :=
  (filter (λ ip : Z * id_pc_type, (ip.1 ∉ hop_i) ∧ (ip.1 ∉ hop_j))
     (enumerate orb_id_pc)).*2.

End core.

(** ** The object state and the monad of methods *)

(** The attributes of a [SuperCell] instance; the first ones are those of
    its base classes [Lockable] and [OrbitalSet]. *)
Record SuperCell := mkSuperCell {
  is_locked : bool;
  prim_cell : PrimitiveCell;
  dim : vec3;
  pbc : vec3;
  vacancy_list : list id_pc_type;
  hash_dict : Z;
  vac_id_pc : option (list id_pc_type);
  vac_id_sc : option (list Z);
  orb_id_pc : list id_pc_type;
  hop_modifier : base.IntraHopping;
  orb_pos_modifier : option callable
}.

Definition set_vacancy_list (l : list id_pc_type) (s : SuperCell) : SuperCell :=
  mkSuperCell (is_locked s) (prim_cell s) (dim s) (pbc s) l (hash_dict s)
    (vac_id_pc s) (vac_id_sc s) (orb_id_pc s) (hop_modifier s)
    (orb_pos_modifier s).

Definition set_hash_dict (h : Z) (s : SuperCell) : SuperCell :=
  mkSuperCell (is_locked s) (prim_cell s) (dim s) (pbc s) (vacancy_list s) h
    (vac_id_pc s) (vac_id_sc s) (orb_id_pc s) (hop_modifier s)
    (orb_pos_modifier s).

Definition set_arrays (vp : option (list id_pc_type)) (vs : option (list Z))
    (op : list id_pc_type) (s : SuperCell) : SuperCell :=
  mkSuperCell (is_locked s) (prim_cell s) (dim s) (pbc s) (vacancy_list s)
    (hash_dict s) vp vs op (hop_modifier s) (orb_pos_modifier s).

Definition set_hop_modifier (h : base.IntraHopping) (s : SuperCell) : SuperCell :=
  mkSuperCell (is_locked s) (prim_cell s) (dim s) (pbc s) (vacancy_list s)
    (hash_dict s) (vac_id_pc s) (vac_id_sc s) (orb_id_pc s) h
    (orb_pos_modifier s).

Definition set_orb_pos_modifier_attr (f : option callable) (s : SuperCell)
  : SuperCell :=
  mkSuperCell (is_locked s) (prim_cell s) (dim s) (pbc s) (vacancy_list s)
    (hash_dict s) (vac_id_pc s) (vac_id_sc s) (orb_id_pc s) (hop_modifier s) f.

Definition set_is_locked (b : bool) (s : SuperCell) : SuperCell :=
  mkSuperCell b (prim_cell s) (dim s) (pbc s) (vacancy_list s)
    (hash_dict s) (vac_id_pc s) (vac_id_sc s) (orb_id_pc s) (hop_modifier s)
    (orb_pos_modifier s).

(** A method call: it returns the object after the call together with the
    value returned or the exception raised. *)
Definition M (A : Type) : Type := SuperCell → SuperCell * result A.

Definition ret {A} (a : A) : M A := λ s, (s, Ok a).
Definition raise {A} (e : exc) : M A := λ s, (s, Raise e).
Definition bind {A B} (m : M A) (k : A → M B) : M B :=
  λ s, match m s with
       | (s', Ok a) => k a s'
       | (s', Raise e) => (s', Raise e)
       end.
Definition get {A} (f : SuperCell → A) : M A := λ s, (s, Ok (f s)).
Definition modify (f : SuperCell → SuperCell) : M unit := λ s, (f s, Ok tt).

Notation "'let!' x ':=' c1 'in' c2" := (bind c1 (λ x, c2))
  (at level 10, x name, c1 at level 100, c2 at level 200).
Notation "c1 >> c2" := (bind c1 (λ _, c2))
  (at level 100, c2 at level 200, right associativity).

(** [for x in l: body]. *)
Fixpoint for_each {A} (l : list A) (body : A → M unit) : M unit :=
  match l with
  | [] => ret tt
  | x :: l' => body x >> for_each l' body
  end.

(** [try: m  except IDPCLenError ...: raise VacIDPCLenError ...
     except IDPCIndexError ...: raise VacIDPCIndexError ...]. *)
Definition as_vacancy_error {A} (m : M A) : M A :=
  λ s, match m s with
       | (s', Raise (IDPCLenError p)) => (s', Raise (VacIDPCLenError p))
       | (s', Raise (IDPCIndexError i p)) => (s', Raise (VacIDPCIndexError i p))
       | r => r
       end.

(** The order [np.argsort] sorts the vacancies by: their flat ids. *)
Definition sc_le (x y : Z * id_pc_type) : Prop := x.1 ≤ y.1.

#[export] Instance sc_le_dec : RelDecision sc_le.
Proof. intros x y. unfold sc_le. apply _. Defined.

(** The built-in [hash] of the Python runtime on [tuple(vacancy_list)]. *)
Class PyHash := { py_hash : list id_pc_type → Z }.

(** ** Class [OrbitalSet] *)

Section Methods.
Context `{PyHash}.

Definition num_orb_pc (s : SuperCell) : Z := num_orb (prim_cell s).

Definition num_orb_sc (s : SuperCell) : Z :=
  num_orb_pc s * np_prod (dim s) - Z.of_nat (length (vacancy_list s)).

Definition _get_hash (s : SuperCell) : Z := py_hash (vacancy_list s).

Definition _update_hash : M bool := λ s,
  let new_hash := _get_hash s in
  if negb (hash_dict s =? new_hash) then (set_hash_dict new_hash s, Ok true)
  else (s, Ok false).

(** [_check_id_pc]: the branches for a tuple and for an array run the same
    checks; [IDPCTypeError] needs an argument of another type. *)
Definition _check_id_pc (id_pc : id_pc_type) : M unit :=
  if negb (length id_pc =? 4)%nat then raise (IDPCLenError id_pc)
  else
    for_each [0; 1; 2] (λ i,
      let! d := get (λ s, item (dim s) i) in
      if negb (in_range (getitem id_pc i) d)
      then raise (IDPCIndexError i id_pc) else ret tt) >>
    let! n := get num_orb_pc in
    if negb (in_range (getitem id_pc 3) n)
    then raise (IDPCIndexError 3 id_pc) else ret tt.

Definition check_lock : M unit := λ s,
  if is_locked s then (s, Raise SCLockError) else (s, Ok tt).

(** [np.argsort(vac_id_sc)] applied to both arrays: the vacancies ordered by
    flat id. *)
Definition argsort_pairs (vac_id_sc : list Z) (vac_id_pc : list id_pc_type)
  : list (Z * id_pc_type) :=
  merge_sort sc_le (zip vac_id_sc vac_id_pc).

(** The arrays [sync_array] computes from the vacancy list:
    [(vac_id_pc, vac_id_sc, orb_id_pc)]. *)
Definition fresh_arrays (dim : vec3) (num_orb_pc : Z)
    (vacancy_list : list id_pc_type)
  : option (list id_pc_type) * option (list Z) * list id_pc_type :=
  if negb (length vacancy_list =? 0)%nat then
    let vac_id_pc := vacancy_list in
    let vac_id_sc := core.build_vac_id_sc dim num_orb_pc vac_id_pc in
    let sorted := argsort_pairs vac_id_sc vac_id_pc in
    (Some sorted.*2, Some sorted.*1,
     core.build_orb_id_pc dim num_orb_pc (Some sorted.*2))
  else (None, None, core.build_orb_id_pc dim num_orb_pc None).

Definition update_arrays (s : SuperCell) : SuperCell :=
  let '(vp, vs, op) := fresh_arrays (dim s) (num_orb_pc s) (vacancy_list s) in
  set_arrays vp vs op s.

Definition sync_array (force_sync : bool) : M unit :=
  let! to_update := _update_hash in
  if force_sync || to_update then modify update_arrays else ret tt.

(** [add_vacancies(vacancies, sync_array=do_sync, force_sync=force_sync)];
    first the body of its loop. *)
Definition add_vacancies_body (vacancy : id_pc_type) : M unit :=
  as_vacancy_error (_check_id_pc vacancy) >>
  modify (λ s,
    if decide (vacancy ∈ vacancy_list s) then s
    else set_vacancy_list (vacancy_list s ++ [vacancy]) s).

Definition add_vacancies (vacancies : list id_pc_type) (do_sync : bool)
    (force_sync : bool) : M unit :=
  check_lock >>
  for_each vacancies add_vacancies_body >>
  if do_sync then sync_array force_sync else ret tt.

Definition add_vacancy (vacancy : id_pc_type) (do_sync : bool)
    (force_sync : bool) : M unit :=
  add_vacancies [vacancy] do_sync force_sync.

Definition set_vacancies (vacancies : list id_pc_type) (do_sync : bool)
    (force_sync : bool) : M unit :=
  modify (set_vacancy_list []) >>
  add_vacancies vacancies do_sync force_sync.

(** [orb_id_sc2pc]: numpy raises [IndexError] outside
    [-len(orb_id_pc), len(orb_id_pc)) and counts a negative index from the
    end. *)
Definition orb_id_sc2pc (id_sc : Z) : M id_pc_type :=
  sync_array false >>
  let! orb := get orb_id_pc in
  let n := Z.of_nat (length orb) in
  if (0 <=? id_sc) && (id_sc <? n) then ret (nth (Z.to_nat id_sc) orb [])
  else if (- n <=? id_sc) && (id_sc <? 0)
       then ret (nth (Z.to_nat (n + id_sc)) orb [])
       else raise (IDSCIndexError id_sc).

Definition orb_id_pc2sc (id_pc : id_pc_type) : M Z :=
  sync_array false >>
  _check_id_pc id_pc >>
  let! orb_id_sc := get (λ s, core.id_pc2sc (dim s) (num_orb_pc s) id_pc (vac_id_sc s)) in
  if orb_id_sc =? -1 then raise (IDPCVacError id_pc) else ret orb_id_sc.

Definition orb_id_sc2pc_array (id_sc_array : list Z) : M (list id_pc_type) :=
  sync_array false >>
  let! status := get (λ s, core.check_id_sc_array (num_orb_sc s) id_sc_array) in
  if status.1 =? -1
  then raise (IDSCIndexError (nth (Z.to_nat status.2) id_sc_array 0))
  else get (λ s, core.id_sc2pc_array (orb_id_pc s) id_sc_array).

(** [orb_id_pc2sc_array] on an [(n, ncols)] array, given by its rows; an
    array without a row has no second axis to index. *)
Definition orb_id_pc2sc_array (ncols : nat) (id_pc_array : list id_pc_type)
  : M (list Z) :=
  sync_array false >>
  if negb (ncols =? 4)%nat
  then match id_pc_array with
       | [] => raise IndexError
       | p :: _ => raise (IDPCLenError p)
       end
  else
    let! status := get (λ s, core.check_id_pc_array (dim s) (num_orb_pc s)
                          id_pc_array (vac_id_pc s)) in
    if status.1.1 =? -2
    then raise (IDPCIndexError status.2
                  (nth (Z.to_nat status.1.2) id_pc_array []))
    else if status.1.1 =? -1
    then raise (IDPCVacError (nth (Z.to_nat status.1.2) id_pc_array []))
    else get (λ s, core.id_pc2sc_array (dim s) (num_orb_pc s)
                     id_pc_array (vac_id_sc s)).

(** [lock] of the base class [Lockable]: the transition is one-way. *)
Definition lock : M unit := modify (set_is_locked true).

(** [a.min()] and [a.max()]; numpy raises [ValueError] on an empty array. *)
Definition np_min (l : list Z) : option Z :=
  match l with
  | [] => None
  | x :: l' => Some (foldr Z.min x l')
  end.

Definition np_max (l : list Z) : option Z :=
  match l with
  | [] => None
  | x :: l' => Some (foldr Z.max x l')
  end.

(** [prim_cell.hop_ind[:, i]]. *)
Definition hop_ind_column (pc : PrimitiveCell) (i : Z) : list Z :=
  (λ r, item (h_rn r) i) <$> hop_ind pc.

(** The body of the loop of [__init__] that checks the dimension along
    axis [i]; [None] stands for falling through to the next iteration. *)
Definition check_dim_axis (pc : PrimitiveCell) (dim : list Z) (i : Z)
  : option exc :=
  match np_min (hop_ind_column pc i), np_max (hop_ind_column pc i) with
  | Some rn_min, Some rn_max =>
      let dim_min := Z.max (Z.abs rn_min) (Z.abs rn_max) in
      if getitem dim i <? dim_min then Some (SCDimSizeError i dim_min)
      else None
  | _, _ => Some ValueError
  end.

Fixpoint check_dim_axes (pc : PrimitiveCell) (dim : list Z) (axes : list Z)
  : option exc :=
  match axes with
  | [] => None
  | i :: rest =>
      match check_dim_axis pc dim i with
      | Some e => Some e
      | None => check_dim_axes pc dim rest
      end
  end.

(** [OrbitalSet.__init__].  Synchronising and locking the primitive cell
    acts on the primitive cell only. *)
Definition OrbitalSet_init (pc : PrimitiveCell) (dim : list Z)
    (pbc : list bool) (vacancies : option (list id_pc_type))
  : result SuperCell :=
  let '(dim, legal) := base.check_rn dim 1 in
  if negb legal then Raise (SCDimLenError dim)
  else
    match check_dim_axes pc dim [0; 1; 2] with
    | Some e => Raise e
    | None =>
        let '(pbc, legal) := base.check_pbc pbc false in
        if negb legal then Raise (PBCLenError pbc)
        else
          let dim_arr := np_array3 dim in
          let pbc_arr := np_array3 ((λ b : bool, if b then 1 else 0) <$> pbc) in
          let s := mkSuperCell false pc dim_arr pbc_arr [] (py_hash []) None
                     None (core.build_orb_id_pc dim_arr (num_orb pc) None)
                     base.empty None in
          match vacancies with
          | None => Ok s
          | Some vac =>
              match add_vacancies vac true false s with
              | (s', Ok _) => Ok s'
              | (_, Raise e) => Raise e
              end
          end
    end.

(** ** Class [SuperCell] *)

(** [SuperCell.__init__]. *)
Definition SuperCell_init (pc : PrimitiveCell) (dim : list Z)
    (pbc : list bool) (vacancies : option (list id_pc_type))
    (orb_pos_modifier : option callable) : result SuperCell :=
  match OrbitalSet_init pc dim pbc vacancies with
  | Ok s => Ok (set_orb_pos_modifier_attr orb_pos_modifier
                  (set_hop_modifier base.empty s))
  | Raise e => Raise e
  end.

Definition add_hopping (rn : list Z) (orb_i orb_j : Z) (energy : complex)
  : M unit :=
  check_lock >>
  let '(rn, legal) := base.check_rn rn 0 in
  if negb legal then raise (CellIndexLenError rn)
  else
    let! num_orbitals := get num_orb_sc in
    if negb (in_range orb_i num_orbitals) then raise (SCOrbIndexError orb_i)
    else if negb (in_range orb_j num_orbitals) then raise (SCOrbIndexError orb_j)
    else if bool_decide (rn = [0; 0; 0]) && (orb_i =? orb_j)
    then raise (SCHopDiagonalError rn orb_i)
    else modify (λ s, set_hop_modifier
                        (base.add_hopping (hop_modifier s)
                           (HopInd (np_array3 rn) orb_i orb_j) energy) s).

Definition set_orb_pos_modifier (orb_pos_modifier : option callable) : M unit :=
  check_lock >>
  modify (set_orb_pos_modifier_attr orb_pos_modifier).

Definition pc_hop_ind (s : SuperCell) : list hop_ind_row := hop_ind (prim_cell s).
Definition pc_hop_eng (s : SuperCell) : list complex := hop_eng (prim_cell s).

(** [_init_hop()] without distances. *)
Definition _init_hop (s : SuperCell) : hop_arrays :=
  core.build_hop (pc_hop_ind s) (pc_hop_eng s) (dim s) (pbc s) (num_orb_pc s)
    (orb_id_pc s) (vac_id_sc s).

(** [_init_hop_fast()] without distances. *)
Definition _init_hop_fast (s : SuperCell) : hop_arrays :=
  let '(ind_pbc, eng_pbc, ind_free, eng_free) :=
    core.split_pc_hop (pc_hop_ind s) (pc_hop_eng s) (pbc s) in
  let '(i_pbc, j_pbc, v_pbc) :=
    core.build_hop_pbc ind_pbc eng_pbc (dim s) (pbc s) (num_orb_pc s) in
  let '(i_free, j_free, v_free) :=
    core.build_hop ind_free eng_free (dim s) (pbc s) (num_orb_pc s)
      (orb_id_pc s) (vac_id_sc s) in
  (i_pbc ++ i_free, j_pbc ++ j_free, v_pbc ++ v_free).

(** The body of the loop of [get_hop] over the entries of the modifier:
    [hop_v] is updated in place, the lists [hop_*_new] grow. *)
Definition merge_hop_entry (hop_i hop_j : list Z)
    (st : list complex * hop_arrays) (entry : hop_ind_row * complex)
  : list complex * hop_arrays :=
  let '(hop_v, (hop_i_new, hop_j_new, hop_v_new)) := st in
  let id_bra := h_bra entry.1 in
  let id_ket := h_ket entry.1 in
  let hop_energy := entry.2 in
  let '(id_same, id_conj) :=
    core.find_equiv_hopping hop_i hop_j id_bra id_ket in
  if negb (id_same =? -1) then
    (<[Z.to_nat id_same := hop_energy]> hop_v,
     (hop_i_new, hop_j_new, hop_v_new))
  else if negb (id_conj =? -1) then
    (<[Z.to_nat id_conj := conjugate hop_energy]> hop_v,
     (hop_i_new, hop_j_new, hop_v_new))
  else
    (hop_v,
     (hop_i_new ++ [id_bra], hop_j_new ++ [id_ket], hop_v_new ++ [hop_energy])).

(** "Apply hopping modifier" in [get_hop]. *)
Definition apply_hop_modifier (modifier : base.IntraHopping) (raw : hop_arrays)
  : hop_arrays :=
  let '(hop_i, hop_j, hop_v) := raw in
  if negb (base.num_hop modifier =? 0) then
    let '(hop_ind, hop_eng) := base.to_array modifier in
    let '(hop_v, (hop_i_new, hop_j_new, hop_v_new)) :=
      foldl (merge_hop_entry hop_i hop_j) (hop_v, ([], [], []))
        (zip hop_ind hop_eng) in
    (hop_i ++ hop_i_new, hop_j ++ hop_j_new, hop_v ++ hop_v_new)
  else (hop_i, hop_j, hop_v).

(** [get_hop(use_fast)]: [None] is the default ["auto"]. *)
Definition get_hop (use_fast : option bool) : M hop_arrays :=
  sync_array false >>
  let! use_fast := get (λ s,
    match use_fast with
    | None => (length (vacancy_list s) =? 0)%nat
    | Some b => b
    end) in
  let! raw := get (if use_fast : bool then _init_hop_fast else _init_hop) in
  let! modifier := get hop_modifier in
  ret (apply_hop_modifier modifier raw).

Definition trim : M unit :=
  let! locked := get is_locked in
  if locked : bool then raise SCLockError
  else
    let! hop := get_hop None in
    let! id_pc_trim := get (λ s,
      core.get_orb_id_trim (orb_id_pc s) hop.1.1 hop.1.2) in
    let! id_sc_trim := orb_id_pc2sc_array 4 id_pc_trim in
    add_vacancies id_pc_trim true false >>
    modify (λ s, set_hop_modifier
                   (base.remove_orbitals (hop_modifier s) id_sc_trim) s).

(** *** Hopping distances

    Positions and distances are float64 vectors; [get_dr] only adds,
    subtracts and negates them, so they are kept abstract, together with
    the functions of [core] and of the lattice that produce them. *)
Section Distances.
Context {vec : Type}.
Variable vadd vsub : vec → vec → vec.
Variable vneg : vec → vec.
(** [np.matmul(hop_ind[ih, :3], self.sc_lat_vec)]. *)
Variable matmul_sc_lat_vec : SuperCell → vec3 → vec.
(** The array [get_orb_pos] computes once the arrays are synchronised. *)
Variable build_orb_pos : SuperCell → list vec.
(** The distances [_init_hop] and [_init_hop_fast] return with [with_dr]. *)
Variable _init_dr : bool → SuperCell → list vec → list vec.

Definition get_orb_pos : M (list vec) :=
  sync_array false >> get build_orb_pos.

(** The body of the loop of [get_dr]; an orbital index that is not a
    position of [orb_pos] makes numpy raise. *)
Definition merge_dr_entry (s : SuperCell) (orb_pos : list vec)
    (hop_i hop_j : list Z) (st : result (list vec * list vec))
    (row : hop_ind_row) : result (list vec * list vec) :=
  match st with
  | Raise e => Raise e
  | Ok (dr, dr_new) =>
      let id_bra := h_bra row in
      let id_ket := h_ket row in
      let rn := matmul_sc_lat_vec s (h_rn row) in
      match orb_pos !! Z.to_nat id_ket, orb_pos !! Z.to_nat id_bra with
      | Some pos_ket, Some pos_bra =>
          let dr_i := vsub (vadd pos_ket rn) pos_bra in
          let '(id_same, id_conj) :=
            core.find_equiv_hopping hop_i hop_j id_bra id_ket in
          if negb (id_same =? -1) then
            Ok (<[Z.to_nat id_same := dr_i]> dr, dr_new)
          else if negb (id_conj =? -1) then
            Ok (<[Z.to_nat id_conj := vneg dr_i]> dr, dr_new)
          else Ok (dr, dr_new ++ [dr_i])
      | _, _ => Raise IndexError
      end
  end.

Definition get_dr (use_fast : option bool) : M (list vec) :=
  sync_array false >>
  let! orb_pos := get_orb_pos in
  let! use_fast := get (λ s,
    match use_fast with
    | None => (length (vacancy_list s) =? 0)%nat
    | Some b => b
    end) in
  let! raw := get (if use_fast : bool then _init_hop_fast else _init_hop) in
  let! dr := get (λ s, _init_dr use_fast s orb_pos) in
  let! modifier := get hop_modifier in
  if negb (base.num_hop modifier =? 0) then
    let! s := get id in
    match foldl (merge_dr_entry s orb_pos raw.1.1 raw.1.2) (Ok (dr, []))
            (base.to_array modifier).1 with
    | Ok (dr, dr_new) => ret (dr ++ dr_new)
    | Raise e => raise e
    end
  else ret dr.

End Distances.

End Methods.

(** ** The notions of the specification *)

(** The maximum absolute hopping-range index of the primitive cell along
    axis [i], as the specification words the minimal dimension. *)
Definition max_abs_rn (pc : PrimitiveCell) (i : Z) : Z :=
  foldr Z.max 0 (Z.abs <$> hop_ind_column pc i).

(** The raw arrays [get_hop] starts from once the object is synchronised,
    and the arrays it returns. *)
Definition raw_hop (use_fast : option bool) (s : SuperCell) : hop_arrays :=
  let fast := match use_fast with
              | None => (length (vacancy_list s) =? 0)%nat
              | Some b => b
              end in
  (if fast then _init_hop_fast else _init_hop) s.

Definition hop_of (use_fast : option bool) (s : SuperCell) : hop_arrays :=
  apply_hop_modifier (hop_modifier s) (raw_hop use_fast s).

(** ** Closed examples *)

(** A stand-in for the built-in [hash] in the closed examples. *)
Definition example_hash : PyHash :=
  {| py_hash := λ l,
       foldr (λ t acc, foldr (λ x a, 31 * a + x + 1) 7 t + 1000003 * acc) 1 l |}.

(** The chain of the specification: two orbitals per cell and one hopping
    of energy 1 to the next cell. *)
Definition chain : PrimitiveCell :=
  {| num_orb := 2;
     hop_ind := [HopInd (Vec3 1 0 0) 1 0];
     hop_eng := [Complex 1 0] |}.

(** [SuperCell(chain, dim=(4, 1, 1), pbc=(False, False, False))]. *)
Definition chain4 : SuperCell :=
  mkSuperCell false chain (Vec3 4 1 1) (Vec3 0 0 0) []
    (py_hash (PyHash := example_hash) []) None None
    (core.build_orb_id_pc (Vec3 4 1 1) 2 None) base.empty None.

(** The same supercell with the vacancy [(0, 0, 0, 1)], then locked. *)
Definition chain4_locked : SuperCell :=
  (lock (add_vacancies (H := example_hash) [[0; 0; 0; 1]] true false chain4).1).1.

(** Entry [n] of the index arrays is the pair [(x, y)]. *)
Definition pair_at (hop_i hop_j : list Z) (x y : Z) (n : nat) : Prop :=
  hop_i !! n = Some x ∧ hop_j !! n = Some y.

(** Entry [n] is the first one that is the pair [(x, y)]. *)
Definition first_pair_at (hop_i hop_j : list Z) (x y : Z) (n : nat) : Prop :=
  pair_at hop_i hop_j x y n ∧ ∀ m, (m < n)%nat → ¬ pair_at hop_i hop_j x y m.

(** The index arrays do not contain the pair [(x, y)]. *)
Definition no_pair (hop_i hop_j : list Z) (x y : Z) : Prop :=
  ∀ m, ¬ pair_at hop_i hop_j x y m.

(** The exception [_check_id_pc] raises on [id_pc], if any. *)
Definition id_pc_error (s : SuperCell) (id_pc : id_pc_type) : option exc :=
  if negb (length id_pc =? 4)%nat then Some (IDPCLenError id_pc)
  else match core.bad_axis (dim s) (num_orb (prim_cell s)) id_pc with
       | Some ax => Some (IDPCIndexError ax id_pc)
       | None => None
       end.

(** The exception [add_vacancies] raises in its place. *)
Definition to_vacancy_error (e : exc) : exc :=
  match e with
  | IDPCLenError p => VacIDPCLenError p
  | IDPCIndexError i p => VacIDPCIndexError i p
  | _ => e
  end.

(** [if vacancy not in vacancy_list: vacancy_list.append(vacancy)]. *)
Definition append_new (l : list id_pc_type) (v : id_pc_type) : list id_pc_type :=
  if decide (v ∈ l) then l else l ++ [v].

(** [chain4] with the vacancies [(3, 0, 0, 1)] and [(0, 0, 0, 1)]. *)
Definition chain4_vac : SuperCell :=
  (add_vacancies (H := example_hash) [[3; 0; 0; 1]; [0; 0; 0; 1]] true false
     chain4).1.

(** A primitive-cell index within the supercell. *)
Definition valid_id_pc (d : vec3) (n : Z) (p : id_pc_type) : Prop :=
  length p = 4%nat
  ∧ 0 ≤ getitem p 0 < v0 d ∧ 0 ≤ getitem p 1 < v1 d
  ∧ 0 ≤ getitem p 2 < v2 d ∧ 0 ≤ getitem p 3 < n.

(** Sizes a constructed supercell can have. *)
Definition dims_ok (d : vec3) : Prop := 0 ≤ v0 d ∧ 0 ≤ v1 d ∧ 0 ≤ v2 d.

(** The invariant on the attributes that the constructor and the mutators
    establish: non-negative sizes, and a vacancy list of valid indices
    without duplicates. *)
Record wf (s : SuperCell) : Prop := {
  wf_dim : dims_ok (dim s);
  wf_num_orb : 0 ≤ num_orb_pc s;
  wf_valid : Forall (valid_id_pc (dim s) (num_orb_pc s)) (vacancy_list s);
  wf_nodup : NoDup (vacancy_list s)
}.

(** The derived arrays are those of the present vacancy list. *)
Definition arrays_current (s : SuperCell) : Prop :=
  (vac_id_pc s, vac_id_sc s, orb_id_pc s)
  = fresh_arrays (dim s) (num_orb_pc s) (vacancy_list s).

(** [chain4] after [add_hopping((1, 0, 0), 0, 2, 1+1j)] and
    [add_hopping((1, 0, 0), 2, 0, 1-1j)]: two different couplings of
    orbitals 0 and 2, neither the conjugate of the other. *)
Definition chain4_mod : SuperCell :=
  (add_hopping [1; 0; 0] 2 0 (Complex 1 (-1))
     (add_hopping [1; 0; 0] 0 2 (Complex 1 1) chain4).1).1.

(** [chain4] after [add_hopping((1, 0, 0), 0, 2, 1+1j)] and
    [add_hopping((-1, 0, 0), 2, 0, 1-1j)]: a hopping term and its
    conjugate. *)
Definition chain4_conj : SuperCell :=
  (add_hopping [-1; 0; 0] 2 0 (Complex 1 (-1))
     (add_hopping [1; 0; 0] 0 2 (Complex 1 1) chain4).1).1.

(** [chain4] after [add_hopping((0, 0, 0), 0, 2, 1+1j)] and
    [add_hopping((1, 0, 0), 0, 2, 3)]: orbital 0 coupled to orbital 2 of the
    same supercell and to orbital 2 of the next one. *)
Definition chain4_two : SuperCell :=
  (add_hopping [1; 0; 0] 0 2 (Complex 3 0)
     (add_hopping [0; 0; 0] 0 2 (Complex 1 1) chain4).1).1.

(** [chain4] after [add_hopping((0, 0, 0), 0, 2, 1+1j)] alone. *)
Definition chain4_one : SuperCell :=
  (add_hopping [0; 0; 0] 0 2 (Complex 1 1) chain4).1.

(** One orbital per cell with a real hopping to the next cell, and the
    periodic supercell of two cells built from it. *)
Definition site : PrimitiveCell :=
  {| num_orb := 1;
     hop_ind := [HopInd (Vec3 1 0 0) 0 0];
     hop_eng := [Complex 1 0] |}.

Definition ring2 : SuperCell :=
  mkSuperCell false site (Vec3 2 1 1) (Vec3 1 0 0) []
    (py_hash (PyHash := example_hash) []) None None
    (core.build_orb_id_pc (Vec3 2 1 1) 1 None) base.empty None.

(** Entries [k] and [l] of the arrays are each other's transpose and carry
    conjugate energies. *)
Definition conjugate_entries (out : hop_arrays) (k l : nat) : Prop :=
  ∃ x y v, pair_at out.1.1 out.1.2 x y k ∧ pair_at out.1.1 out.1.2 y x l
           ∧ out.2 !! k = Some v ∧ out.2 !! l = Some (conjugate v).

(** No two distinct entries of the index arrays are each other's
    transpose: [hop_i[k] == hop_j[l]] and [hop_j[k] == hop_i[l]]. *)
Definition conj_pair_free (hop_i hop_j : list Z) : Prop :=
  ∀ k l x y, k ≠ l → pair_at hop_i hop_j x y k → pair_at hop_i hop_j y x l →
             False.

(** No two distinct entries of the modifier name the same two orbitals in
    opposite order. *)
Definition modifier_pair_free (modifier : base.IntraHopping) : Prop :=
  ∀ m1 m2 r1 r2, m1 ≠ m2 →
    modifier.*1 !! m1 = Some r1 → modifier.*1 !! m2 = Some r2 →
    ¬ (h_bra r1 = h_ket r2 ∧ h_ket r1 = h_bra r2).

(** The entry of the modifier has no exact and no conjugate match. *)
Definition is_new (hop_i hop_j : list Z) (entry : hop_ind_row * complex) : Prop :=
  core.find_equiv_hopping hop_i hop_j (h_bra entry.1) (h_ket entry.1) = (-1, -1).

#[export] Instance is_new_dec hop_i hop_j entry : Decision (is_new hop_i hop_j entry).
Proof. unfold is_new. apply _. Defined.

(** The keys (R, i, j) and (-R, j, i) of a hopping term and of its
    conjugate. *)
Definition conjugate_keys (r1 r2 : hop_ind_row) : Prop :=
  v0 (h_rn r1) = - v0 (h_rn r2) ∧ v1 (h_rn r1) = - v1 (h_rn r2)
  ∧ v2 (h_rn r1) = - v2 (h_rn r2)
  ∧ h_bra r1 = h_ket r2 ∧ h_ket r1 = h_bra r2.

(** The hopping table of the primitive cell is reduced by conjugate
    symmetry: no two of its terms are each other's conjugate. *)
Definition table_reduced (s : SuperCell) : Prop :=
  ∀ m1 m2 r1 r2, m1 ≠ m2 →
    pc_hop_ind s !! m1 = Some r1 → pc_hop_ind s !! m2 = Some r2 →
    ¬ conjugate_keys r1 r2.

(** Along every periodic axis the dimension is at least [2*N+1], [N] being
    the maximum absolute cell index of the hopping table along that axis:
    the minimal dimension of the NOTES of [OrbitalSet]. *)
Definition roomy (s : SuperCell) : Prop :=
  ∀ i, i ∈ [0; 1; 2] →
    item (pbc s) i = 0 ∨ 2 * max_abs_rn (prim_cell s) i + 1 ≤ item (dim s) i.

(** No two distinct entries of a list of pairs are each other's
    transpose. *)
Definition pairs_free (l : list (Z * Z)) : Prop :=
  ∀ k m x y, k ≠ m → l !! k = Some (x, y) → l !! m = Some (y, x) → False.

(** What the entry writes into [hop_v]: the position and the energy, or
    nothing when the entry is appended. *)
Definition write_of (hop_i hop_j : list Z) (entry : hop_ind_row * complex)
  : option (nat * complex) :=
  let '(id_same, id_conj) :=
    core.find_equiv_hopping hop_i hop_j (h_bra entry.1) (h_ket entry.1) in
  if negb (id_same =? -1) then Some (Z.to_nat id_same, entry.2)
  else if negb (id_conj =? -1) then Some (Z.to_nat id_conj, conjugate entry.2)
  else None.

(** The energy last written to position [n] by a sequence of writes. *)
Fixpoint last_write (writes : list (option (nat * complex))) (n : nat)
  : option complex :=
  match writes with
  | [] => None
  | w :: writes' =>
      match last_write writes' n with
      | Some v => Some v
      | None =>
          match w with
          | Some (k, v) => if decide (k = n) then Some v else None
          | None => None
          end
      end
  end.

(** The entries of the modifier that the merge appends and that name the
    same bra and ket carry the same energy. *)
Definition appended_agree (hop_i hop_j : list Z) (modifier : base.IntraHopping)
  : Prop :=
  ∀ e1 e2, e1 ∈ modifier → e2 ∈ modifier →
    is_new hop_i hop_j e1 → is_new hop_i hop_j e2 →
    h_bra e1.1 = h_bra e2.1 → h_ket e1.1 = h_ket e2.1 → e1.2 = e2.2.

(** Two orbitals per cell, a hopping along [a] and one along [b]; the
    supercell of 3 by 2 cells, periodic along [a] only, with two hopping
    terms overridden and one added. *)
Definition ladder : PrimitiveCell :=
  {| num_orb := 2;
     hop_ind := [HopInd (Vec3 0 1 0) 0 1; HopInd (Vec3 1 0 0) 1 0];
     hop_eng := [Complex 0 2; Complex 1 0] |}.

Definition ladder32 : SuperCell :=
  mkSuperCell false ladder (Vec3 3 2 1) (Vec3 1 0 0) []
    (py_hash (PyHash := example_hash) []) None None
    (core.build_orb_id_pc (Vec3 3 2 1) 2 None)
    [(HopInd (Vec3 0 0 0) 4 1, Complex 5 1); (HopInd (Vec3 0 0 0) 0 3, Complex 7 0);
     (HopInd (Vec3 0 0 0) 0 1, Complex 3 0)]
    None.

(** The arrays read as a list of triples [(hop_i[k], hop_j[k], hop_v[k])]. *)
Definition triples (h : hop_arrays) : list (Z * Z * complex) :=
  zip (zip h.1.1 h.1.2) h.2.

(** The energy of the first triple for the pair [(x, y)]. *)
Fixpoint lookup_pair (x y : Z) (l : list (Z * Z * complex)) : option complex :=
  match l with
  | [] => None
  | (i, j, v) :: l' =>
      if (i =? x) && (j =? y) then Some v else lookup_pair x y l'
  end.

(** The energy of the first triple for the pair [(x, y)] overwritten. *)
Fixpoint set_pair (x y : Z) (e : complex) (l : list (Z * Z * complex))
  : list (Z * Z * complex) :=
  match l with
  | [] => []
  | (i, j, v) :: l' =>
      if (i =? x) && (j =? y) then (i, j, e) :: l'
      else (i, j, v) :: set_pair x y e l'
  end.

(** What one entry of the modifier does to the triples of the raw arrays. *)
Definition merge_raw_triples (l : list (Z * Z * complex))
    (entry : hop_ind_row * complex) : list (Z * Z * complex) :=
  let bra := h_bra entry.1 in
  let ket := h_ket entry.1 in
  match lookup_pair bra ket l, lookup_pair ket bra l with
  | Some _, _ => set_pair bra ket entry.2 l
  | None, Some _ => set_pair ket bra (conjugate entry.2) l
  | None, None => l
  end.

(** Two lists of triples with the same triples and, for every pair, the same
    first energy. *)
Definition same_triples (l1 l2 : list (Z * Z * complex)) : Prop :=
  l1 ≡ₚ l2 ∧ ∀ x y, lookup_pair x y l1 = lookup_pair x y l2.

(** The orbitals named by the hopping table of the primitive cell exist. *)
Definition table_ok (s : SuperCell) : Prop :=
  Forall (λ r, 0 ≤ h_bra r < num_orb_pc s ∧ 0 ≤ h_ket r < num_orb_pc s)
    (pc_hop_ind s).

(** The hopping table of the primitive cell, term by term. *)
Definition pc_terms (s : SuperCell) : list (hop_ind_row * complex) :=
  zip (pc_hop_ind s) (pc_hop_eng s).

(** ** Callers and further modules

    [cutoff_sc] of examples/13-quasi_crystal.py, a caller of
    [orb_id_sc2pc_array] and [set_vacancies]. *)

Section QuasiCrystal.
Context `{PyHash} {vec : Type}.
(** The array [get_orb_pos] computes, as in [get_dr]. *)
Variable build_orb_pos : SuperCell → list vec.
(** [norm(pos[:2] - center[:2]) > radius], for the centre and the radius of
    the call. *)
Variable outside : vec → bool.

(** [cutoff_sc(super_cell, center, radius)]. *)
Definition cutoff_sc : M unit :=
  let! orb_pos := get_orb_pos build_orb_pos in
  let idx_remove :=
    (filter (λ ip : Z * vec, outside ip.2 = true) (core.enumerate orb_pos)).*1 in
  let! id_pc_array := orb_id_sc2pc_array idx_remove in
  set_vacancies id_pc_array true false.

End QuasiCrystal.

(** ** Module [kpoints] (tbplas/builder/kpoints.py) *)

Module kpoints.

Section KPath.
(** A k-point is a [(3,)] float64 array.  [gen_kpath] combines two of them
    only in the expression [k0 + j * 1.0 / nk * (k1 - k0)], which is kept
    abstract. *)
Context {kpoint : Type}.
Variable interpolate : kpoint → kpoint → Z → Z → kpoint.

(** [hs_kpoints[i]] for a non-negative [i]; numpy raises [IndexError] past
    the end. *)
Definition row (hs_kpoints : list kpoint) (i : Z) : result kpoint :=
  match hs_kpoints !! Z.to_nat i with
  | Some k => Ok k
  | None => Raise IndexError
  end.

(** [for j in range(nk): kpath.append(k0 + j * 1.0 / nk * (k1 - k0))]. *)
Definition segment (k0 k1 : kpoint) (nk : Z) : list kpoint :=
  (λ j, interpolate k0 k1 j nk) <$> seqZ 0 nk.

(** [for i in range(len(num_interp))], from index [i] on. *)
Fixpoint gen_kpath_loop (hs_kpoints : list kpoint) (i : Z)
    (num_interp : list Z) (kpath : list kpoint) : result (list kpoint) :=
  match num_interp with
  | [] => Ok kpath
  | nk :: rest =>
      match row hs_kpoints i with
      | Raise e => Raise e
      | Ok k0 =>
          match row hs_kpoints (i + 1) with
          | Raise e => Raise e
          | Ok k1 =>
              gen_kpath_loop hs_kpoints (i + 1) rest
                (kpath ++ segment k0 k1 nk)
          end
      end
  end.

(** [sum(num_interp[:n])]. *)
Definition sum_to (num_interp : list Z) (n : Z) : Z :=
  foldl Z.add 0 (take (Z.to_nat n) num_interp).

Definition gen_kpath (hs_kpoints : list kpoint) (num_interp : list Z)
  : result (list kpoint * list Z) :=
  if negb (length hs_kpoints =? length num_interp + 1)%nat
  then Raise ValueError
  else
    match gen_kpath_loop hs_kpoints 0 num_interp [] with
    | Raise e => Raise e
    | Ok kpath =>
        match last hs_kpoints with
        | None => Raise IndexError
        | Some k =>
            Ok (kpath ++ [k],
                sum_to num_interp
                  <$> seqZ 0 (Z.of_nat (length num_interp) + 1))
        end
    end.

End KPath.

(** The two ways [gen_kmesh] fails: its own [ValueError] on the length of
    [grid_size], and whatever the expression for an axis raises. *)
Inductive error := GridSizeLenError | LinspaceError.

Section KMesh.
(** A coordinate is a float64.  [linspace n] stands for
    [np.linspace(0, 1-1./n, n)], which raises for some [n] (a division by
    zero, a negative number of samples). *)
Context {coord : Type}.
Variable linspace : Z → option (list coord).

(** A clause [for x in l] of the list comprehension; [body x] gives the
    rows for [x] or raises. *)
Fixpoint for_rows {A B} (l : list A) (body : A → option (list B))
  : option (list B) :=
  match l with
  | [] => Some []
  | x :: l' =>
      rows ← body x; rest ← for_rows l' body; Some (rows ++ rest)
  end.

(** A clause [for k in np.linspace(0, 1-1./n, n)]. *)
Definition for_axis {B} (n : Z) (body : coord → option (list B))
  : option (list B) :=
  match linspace n with
  | Some l => for_rows l body
  | None => None
  end.

Definition gen_kmesh (grid_size : list Z)
  : error + list (coord * coord * coord) :=
  if negb (length grid_size =? 3)%nat then inl GridSizeLenError
  else
    match
      for_axis (nth 0%nat grid_size 0) (λ kx,
        for_axis (nth 1%nat grid_size 0) (λ ky,
          for_axis (nth 2%nat grid_size 0) (λ kz, Some [(kx, ky, kz)])))
    with
    | Some rows => inr rows
    | None => inl LinspaceError
    end.

End KMesh.
End kpoints.

(** ** Further notions *)

(** The size of axis [i] that [_check_id_pc] tests component [i] against:
    the dimension for a cell component, the number of orbitals of the
    primitive cell for the orbital. *)
Definition axis_size (s : SuperCell) (i : Z) : Z :=
  if i =? 3 then num_orb (prim_cell s) else item (dim s) i.

(** The stored hash does its job on [s]: it differs from the hash of the
    vacancy list unless the arrays are those of the vacancy list. *)
Definition hash_sound `{PyHash} (s : SuperCell) : Prop :=
  hash_dict s ≠ py_hash (vacancy_list s) ∨ arrays_current s.

Section Calls.
Context `{PyHash}.

(** A call of a public method of [SuperCell] with its arguments. *)
Inductive method :=
| call_add_vacancy (vacancy : id_pc_type) (do_sync force_sync : bool)
| call_add_vacancies (vacancies : list id_pc_type) (do_sync force_sync : bool)
| call_set_vacancies (vacancies : list id_pc_type) (do_sync force_sync : bool)
| call_sync_array (force_sync : bool)
| call_orb_id_sc2pc (id_sc : Z)
| call_orb_id_pc2sc (id_pc : id_pc_type)
| call_orb_id_sc2pc_array (id_sc_array : list Z)
| call_orb_id_pc2sc_array (ncols : nat) (id_pc_array : list id_pc_type)
| call_lock
| call_add_hopping (rn : list Z) (orb_i orb_j : Z) (energy : complex)
| call_set_orb_pos_modifier (orb_pos_modifier : option callable)
| call_get_hop (use_fast : option bool)
| call_trim.

(** The object after the call, whether it returned or raised. *)
Definition state_after (m : method) (s : SuperCell) : SuperCell :=
  match m with
  | call_add_vacancy v sy f => (add_vacancy v sy f s).1
  | call_add_vacancies vs sy f => (add_vacancies vs sy f s).1
  | call_set_vacancies vs sy f => (set_vacancies vs sy f s).1
  | call_sync_array f => (sync_array f s).1
  | call_orb_id_sc2pc i => (orb_id_sc2pc i s).1
  | call_orb_id_pc2sc p => (orb_id_pc2sc p s).1
  | call_orb_id_sc2pc_array ids => (orb_id_sc2pc_array ids s).1
  | call_orb_id_pc2sc_array n ps => (orb_id_pc2sc_array n ps s).1
  | call_lock => (lock s).1
  | call_add_hopping rn i j e => (add_hopping rn i j e s).1
  | call_set_orb_pos_modifier m => (set_orb_pos_modifier m s).1
  | call_get_hop uf => (get_hop uf s).1
  | call_trim => (trim s).1
  end.

(** The object after a sequence of calls, in which the caller catches the
    exceptions. *)
Definition state_after_calls (calls : list method) (s : SuperCell) : SuperCell :=
  foldl (λ s m, state_after m s) s calls.

End Calls.

(** The rows of [orb_id_pc] whose orbital lies outside, in order. *)
Definition orbitals_outside {vec} (outside : vec → bool) (orb_pos : list vec)
    (orb_id_pc : list id_pc_type) : list id_pc_type :=
  (filter (λ xp : vec * id_pc_type, outside xp.1 = true)
     (zip orb_pos orb_id_pc)).*2.

(** The entry of the modifier couples the orbitals [x] and [y], in this
    order or the other. *)
Definition names_pair (x y : Z) (entry : hop_ind_row * complex) : Prop :=
  (h_bra entry.1 = x ∧ h_ket entry.1 = y)
  ∨ (h_bra entry.1 = y ∧ h_ket entry.1 = x).

(** The position of [hop_v] that the entry overwrites, if any. *)
Definition slot (hop_i hop_j : list Z) (entry : hop_ind_row * complex)
  : option nat :=
  let '(id_same, id_conj) :=
    core.find_equiv_hopping hop_i hop_j (h_bra entry.1) (h_ket entry.1) in
  if negb (id_same =? -1) then Some (Z.to_nat id_same)
  else if negb (id_conj =? -1) then Some (Z.to_nat id_conj)
  else None.

(** The orbitals the entry couples have a row in an array of [n] rows. *)
Definition entry_in_range (n : nat) (entry : hop_ind_row * complex) : Prop :=
  0 ≤ h_bra entry.1 < Z.of_nat n ∧ 0 ≤ h_ket entry.1 < Z.of_nat n.

(** The points of the segments of a path, one segment after the other. *)
Fixpoint path_points {kpoint} (interpolate : kpoint → kpoint → Z → Z → kpoint)
    (hs_kpoints : list kpoint) (num_interp : list Z) : list kpoint :=
  match hs_kpoints, num_interp with
  | k0 :: ((k1 :: _) as rest), nk :: num_interp' =>
      kpoints.segment interpolate k0 k1 nk
      ++ path_points interpolate rest num_interp'
  | _, _ => []
  end.

(** The number of points of the segments. *)
Definition num_points (num_interp : list Z) : nat :=
  sum_list (Z.to_nat <$> num_interp).

(** ** Closed examples for the further properties *)

(** The calls of the closed examples: a vacancy, a trim, the lock, and a
    reset of the vacancies on the locked object. *)
Definition example_calls : list method :=
  [call_add_vacancies [[0; 0; 0; 1]] true false; call_trim; call_lock;
   call_set_vacancies [[1; 0; 0; 0]] true false].

(** Stand-ins for the float arrays in the closed examples: the position of
    an orbital is its supercell index, a distance is an integer. *)
Definition example_orb_pos (s : SuperCell) : list Z :=
  seqZ 0 (Z.of_nat (length (orb_id_pc s))).

Definition example_init_dr (fast : bool) (s : SuperCell) (orb_pos : list Z)
  : list Z :=
  replicate (length (raw_hop (Some fast) s).1.1) 0.

(** A stand-in for the interpolation between two k-points. *)
Definition example_interpolate (k0 k1 j nk : Z) : Z := k0 * nk + j.

(** A stand-in for [np.linspace(0, 1-1./n, n)]. *)
Definition example_linspace (n : Z) : option (list Z) :=
  if 0 <? n then Some (seqZ 0 n) else None.

(** ** Verification *)

Lemma valid_id_pc_inv d n p :
  valid_id_pc d n p →
  ∃ a b c o, p = [a; b; c; o]
             ∧ 0 ≤ a < v0 d ∧ 0 ≤ b < v1 d ∧ 0 ≤ c < v2 d ∧ 0 ≤ o < n.
Proof.
  intros (Hlen & Ha & Hb & Hc & Ho).
  destruct p as [|a [|b [|c [|o [|? ?]]]]]; try done.
  by exists a, b, c, o.
Qed.

(** *** The index codec *)

Lemma _id_sc2pc_valid d n k :
  dims_ok d → 0 ≤ k < n * np_prod d → valid_id_pc d n (core._id_sc2pc d n k).
Proof.
  unfold np_prod. intros (H0 & H1 & H2) Hk.
  assert (0 < n) by nia. assert (0 < v0 d) by nia.
  assert (0 < v1 d) by nia. assert (0 < v2 d) by nia.
  unfold valid_id_pc, core._id_sc2pc, getitem. simpl.
  assert (0 ≤ k / n < v0 d * v1 d * v2 d).
  { split; [apply Z.div_pos; lia|]. apply Z.div_lt_upper_bound; nia. }
  assert (0 ≤ k / n / v2 d < v0 d * v1 d).
  { split; [apply Z.div_pos; lia|]. apply Z.div_lt_upper_bound; nia. }
  split_and!; try done; try (apply Z.mod_pos_bound; lia).
  - apply Z.div_pos; lia.
  - apply Z.div_lt_upper_bound; nia.
Qed.

Lemma _id_pc2sc_sc2pc d n k :
  dims_ok d → 0 ≤ k < n * np_prod d → core._id_pc2sc d n (core._id_sc2pc d n k) = k.
Proof.
  unfold np_prod. intros (H0 & H1 & H2) Hk.
  assert (0 < n) by nia. assert (0 < v0 d) by nia.
  assert (0 < v1 d) by nia. assert (0 < v2 d) by nia.
  unfold core._id_pc2sc, core._id_sc2pc, getitem. simpl.
  pose proof (Z.div_mod k n ltac:(lia)) as E1.
  pose proof (Z.div_mod (k / n) (v2 d) ltac:(lia)) as E2.
  pose proof (Z.div_mod (k / n / v2 d) (v1 d) ltac:(lia)) as E3.
  rewrite (Z.mul_comm _ (v1 d)), <- E3.
  rewrite (Z.mul_comm _ (v2 d)), <- E2.
  rewrite (Z.mul_comm _ n), <- E1. done.
Qed.

Lemma _id_sc2pc_pc2sc d n p :
  valid_id_pc d n p →
  core._id_sc2pc d n (core._id_pc2sc d n p) = p
  ∧ 0 ≤ core._id_pc2sc d n p < n * np_prod d.
Proof.
  intros (a & b & c & o & -> & Ha & Hb & Hc & Ho)%valid_id_pc_inv.
  unfold core._id_pc2sc, core._id_sc2pc, getitem, np_prod. simpl.
  set (x := (a * v1 d + b) * v2 d + c).
  assert (Hx : (x * n + o) / n = x).
  { rewrite Z.div_add_l by lia. rewrite Z.div_small by lia. lia. }
  assert (Ho' : (x * n + o) mod n = o).
  { rewrite Z.add_comm, Z_mod_plus_full. apply Z.mod_small. lia. }
  rewrite Hx, Ho'. subst x.
  set (y := a * v1 d + b).
  assert (Hy : (y * v2 d + c) / v2 d = y).
  { rewrite Z.div_add_l by lia. rewrite Z.div_small by lia. lia. }
  assert (Hc' : (y * v2 d + c) mod v2 d = c).
  { rewrite Z.add_comm, Z_mod_plus_full. apply Z.mod_small. lia. }
  rewrite Hy, Hc'. subst y.
  assert (Ha' : (a * v1 d + b) / v1 d = a).
  { rewrite Z.div_add_l by lia. rewrite Z.div_small by lia. lia. }
  assert (Hb' : (a * v1 d + b) mod v1 d = b).
  { rewrite Z.add_comm, Z_mod_plus_full. apply Z.mod_small. lia. }
  rewrite Ha', Hb'. split; [done|].
  assert (0 ≤ a * v1 d + b ≤ v0 d * v1 d - 1) by nia.
  assert (0 ≤ (a * v1 d + b) * v2 d + c ≤ v0 d * v1 d * v2 d - 1) by nia.
  nia.
Qed.


(** Counting in filtered lists *)

Lemma filter_lookup_take {A} (P : A → Prop) `{∀ x, Decision (P x)}
    (l : list A) (i : nat) (x : A) :
  filter P l !! i = Some x →
  ∃ k, l !! k = Some x ∧ P x ∧ length (filter P (take k l)) = i.
Proof.
  revert i. induction l as [|a l IH]; intros i Hi; [done|].
  destruct (decide (P a)) as [Ha|Ha].
  - rewrite filter_cons_True in Hi by done. destruct i as [|i].
    + simpl in Hi. injection Hi as ->. by exists 0%nat.
    + destruct (IH i Hi) as (k & Hk & Hx & Hlen). exists (S k).
      simpl. rewrite filter_cons_True by done. simpl. by rewrite Hlen.
  - rewrite filter_cons_False in Hi by done.
    destruct (IH i Hi) as (k & Hk & Hx & Hlen). exists (S k).
    simpl. by rewrite filter_cons_False.
Qed.

Lemma length_filter_complement {A} (P : A → Prop) `{∀ x, Decision (P x)}
    (l : list A) :
  (length (filter P l) + length (filter (λ x, ¬ P x) l) = length l)%nat.
Proof. by rewrite <- length_app, filter_app_complement. Qed.

Lemma filter_all {A} (P : A → Prop) `{∀ x, Decision (P x)} (l : list A) :
  Forall P l → filter P l = l.
Proof.
  induction 1 as [|x l Hx Hl IH]; [done|].
  rewrite filter_cons_True by done. by rewrite IH.
Qed.

Lemma take_seqZ (k : nat) (N : Z) :
  Z.of_nat k ≤ N → take k (seqZ 0 N) = seqZ 0 (Z.of_nat k).
Proof.
  intros Hk. replace N with (Z.of_nat k + (N - Z.of_nat k)) by lia.
  rewrite seqZ_app by lia. rewrite take_app_length'; [done|].
  rewrite length_seqZ. lia.
Qed.

Section Compaction.
Variable d : vec3.
Variable n : Z.
Hypothesis Hn : 0 ≤ n.
Hypothesis Hd : dims_ok d.

(** The vacancies, in any order, and their flat ids. *)
Variable vl vac_pc : list id_pc_type.
Variable vac_sc : list Z.
Hypothesis Hvalid : Forall (valid_id_pc d n) vl.
Hypothesis Hnodup : NoDup vl.
Hypothesis Hvac_pc : vac_pc ≡ₚ vl.
Hypothesis Hvac_sc : vac_sc ≡ₚ core._id_pc2sc d n <$> vl.

#[local] Abbreviation all_id_pc := (core.all_id_pc d n).

Lemma all_id_pc_NoDup N : N ≤ n * np_prod d → NoDup (all_id_pc N).
Proof using All.
  intros HN. apply NoDup_fmap_2_strong; [|apply NoDup_seqZ].
  intros x y [? ?]%elem_of_seqZ [? ?]%elem_of_seqZ Hxy.
  rewrite <- (_id_pc2sc_sc2pc d n x Hd), <- (_id_pc2sc_sc2pc d n y Hd) by lia.
  by rewrite Hxy.
Qed.

Lemma elem_of_all_id_pc N p :
  0 ≤ N ≤ n * np_prod d →
  p ∈ all_id_pc N ↔ valid_id_pc d n p ∧ core._id_pc2sc d n p < N.
Proof using All.
  intros HN. unfold core.all_id_pc. rewrite list_elem_of_fmap. split.
  - intros (k & -> & [? ?]%elem_of_seqZ). split.
    + apply _id_sc2pc_valid; [done|lia].
    + rewrite _id_pc2sc_sc2pc by (done || lia). lia.
  - intros [Hp Hlt]. destruct (_id_sc2pc_pc2sc d n p Hp) as [Heq Hr].
    exists (core._id_pc2sc d n p). split; [done|].
    apply elem_of_seqZ. lia.
Qed.

Lemma vac_sc_NoDup : NoDup vac_sc.
Proof using All.
  rewrite Hvac_sc. apply NoDup_fmap_2_strong; [|done].
  intros x y Hx Hy Hxy.
  rewrite Forall_forall in Hvalid.
  rewrite <- (proj1 (_id_sc2pc_pc2sc d n x (Hvalid x Hx))).
  rewrite <- (proj1 (_id_sc2pc_pc2sc d n y (Hvalid y Hy))).
  by rewrite Hxy.
Qed.

(** The vacancies among the first [N] flat ids, counted on both sides. *)
Lemma count_vacancies_below N :
  0 ≤ N ≤ n * np_prod d →
  length (filter (λ p, p ∈ vac_pc) (all_id_pc N))
  = length (filter (λ v, v < N) vac_sc).
Proof using All.
  intros HN.
  rewrite <- (length_fmap (core._id_pc2sc d n)).
  apply Permutation_length, NoDup_Permutation.
  - apply NoDup_fmap_2_strong; [|apply NoDup_filter, all_id_pc_NoDup; lia].
    intros x y [_ Hx]%list_elem_of_filter [_ Hy]%list_elem_of_filter Hxy.
    apply elem_of_all_id_pc in Hx as [Hx _]; [|done].
    apply elem_of_all_id_pc in Hy as [Hy _]; [|done].
    rewrite <- (proj1 (_id_sc2pc_pc2sc d n x Hx)).
    rewrite <- (proj1 (_id_sc2pc_pc2sc d n y Hy)).
    by rewrite Hxy.
  - apply NoDup_filter, vac_sc_NoDup.
  - intros v. rewrite list_elem_of_fmap, list_elem_of_filter. split.
    + intros (p & -> & [Hp Hall]%list_elem_of_filter).
      apply elem_of_all_id_pc in Hall as [Hv Hlt]; [|done].
      split; [done|]. rewrite Hvac_sc. apply list_elem_of_fmap_2.
      by rewrite <- Hvac_pc.
    + intros [Hlt Hv]. rewrite Hvac_sc in Hv.
      apply list_elem_of_fmap in Hv as (p & -> & Hp).
      exists p. split; [done|]. apply list_elem_of_filter.
      split; [by rewrite Hvac_pc|].
      apply elem_of_all_id_pc; [done|]. split; [|done].
      rewrite Forall_forall in Hvalid. by apply Hvalid.
Qed.

Lemma build_orb_id_pc_length :
  Z.of_nat (length (core.build_orb_id_pc d n (Some vac_pc)))
  + Z.of_nat (length vl) = n * np_prod d.
Proof using All.
  assert (0 ≤ n * np_prod d)
    by (destruct Hd as (? & ? & ?); unfold np_prod; nia).
  unfold core.build_orb_id_pc.
  pose proof (length_filter_complement (λ p, p ∈ vac_pc)
                (all_id_pc (n * np_prod d))) as Hc.
  rewrite count_vacancies_below in Hc by lia.
  rewrite (filter_all (λ v, v < n * np_prod d) vac_sc) in Hc.
  2: { apply Forall_forall. intros v Hv. rewrite Hvac_sc in Hv.
       apply list_elem_of_fmap in Hv as (p & -> & Hp).
       rewrite Forall_forall in Hvalid.
       apply (_id_sc2pc_pc2sc d n p (Hvalid p Hp)). }
  rewrite Hvac_sc, length_fmap in Hc.
  unfold core.all_id_pc in *.
  rewrite length_fmap, length_seqZ in Hc. lia.
Qed.

Lemma build_orb_id_pc_lookup (i : nat) (p : id_pc_type) :
  core.build_orb_id_pc d n (Some vac_pc) !! i = Some p →
  valid_id_pc d n p ∧ core.id_pc2sc d n p (Some vac_sc) = Z.of_nat i.
Proof using All.
  assert (0 ≤ n * np_prod d)
    by (destruct Hd as (? & ? & ?); unfold np_prod; nia).
  unfold core.build_orb_id_pc, core.all_id_pc. intros Hi.
  apply filter_lookup_take in Hi as (k & Hk & Hp & Hlen).
  rewrite list_lookup_fmap in Hk.
  destruct (seqZ 0 (n * np_prod d) !! k) as [k'|] eqn:Hk'; [|done].
  apply lookup_seqZ in Hk' as [-> Hlt]. simpl in Hk. injection Hk as <-.
  rewrite Z.add_0_l in *.
  split; [apply _id_sc2pc_valid; (done || lia)|].
  unfold core.id_pc2sc. rewrite _id_pc2sc_sc2pc by (done || lia).
  destruct (decide (Z.of_nat k ∈ vac_sc)) as [Hin|Hin].
  { exfalso. apply Hp. rewrite Hvac_sc in Hin.
    apply list_elem_of_fmap in Hin as (q & Hq & Hqv).
    rewrite Hvac_pc. rewrite Hq.
    rewrite Forall_forall in Hvalid.
    by rewrite (proj1 (_id_sc2pc_pc2sc d n q (Hvalid q Hqv))). }
  rewrite <- fmap_take, take_seqZ in Hlen by lia.
  pose proof (length_filter_complement (λ p, p ∈ vac_pc)
                (all_id_pc (Z.of_nat k))) as Hc.
  rewrite count_vacancies_below in Hc by lia.
  unfold core.all_id_pc in Hc.
  rewrite length_fmap, length_seqZ in Hc. lia.
Qed.

End Compaction.

Section Verification.
Context `{PyHash}.

(** *** Locking *)

Lemma check_lock_locked (s : SuperCell) :
  is_locked s = true → check_lock s = (s, Raise SCLockError).
Proof. intros Hl. unfold check_lock. by rewrite Hl. Qed.

Lemma check_lock_unlocked (s : SuperCell) :
  is_locked s = false → check_lock s = (s, Ok tt).
Proof. intros Hl. unfold check_lock. by rewrite Hl. Qed.

(** The mutators that test the lock before anything else leave a locked
    object as it is. *)
Lemma locked_mutators_keep_state (s : SuperCell) :
  is_locked s = true →
  (∀ v sy f, add_vacancy v sy f s = (s, Raise SCLockError))
  ∧ (∀ vs sy f, add_vacancies vs sy f s = (s, Raise SCLockError))
  ∧ (∀ rn i j e, add_hopping rn i j e s = (s, Raise SCLockError))
  ∧ (∀ m, set_orb_pos_modifier m s = (s, Raise SCLockError))
  ∧ trim s = (s, Raise SCLockError).
Proof.
  intros Hl.
  assert (Hv : ∀ vs sy f, add_vacancies vs sy f s = (s, Raise SCLockError)).
  { intros. unfold add_vacancies, bind. by rewrite check_lock_locked. }
  repeat split; intros; try apply Hv.
  - unfold add_hopping, bind. by rewrite check_lock_locked.
  - unfold set_orb_pos_modifier, bind. by rewrite check_lock_locked.
  - unfold trim, bind, get. by rewrite Hl.
Qed.

(** C10: [set_vacancies] on a locked object raises the lock error, and the
    object the error leaves behind has an empty vacancy list: the list is
    cleared before [add_vacancies] tests the lock, and nothing restores it.
    The other attributes, the derived arrays included, are untouched. *)
Theorem set_vacancies_locked_clears (s : SuperCell)
    (vacancies : list id_pc_type) (do_sync force_sync : bool) :
  is_locked s = true →
  set_vacancies vacancies do_sync force_sync s
  = (set_vacancy_list [] s, Raise SCLockError)
  ∧ vacancy_list (set_vacancies vacancies do_sync force_sync s).1 = [].
Proof.
  intros Hl. unfold set_vacancies, add_vacancies, bind, modify.
  rewrite check_lock_locked by done. done.
Qed.

(** *** Adding a hopping term *)

(** C7, as the code has it: on an unlocked supercell and a cell index of a
    legal length, [add_hopping] raises the range error for [orb_i] when it
    is out of range, else for [orb_j] when that one is, else the diagonal
    error when the completed cell index is zero and the orbitals are equal;
    an error leaves the object as it was, and only a term passing the
    checks is stored in the modifier. *)
Theorem add_hopping_checks (s : SuperCell) (rn : list Z) (orb_i orb_j : Z)
    (energy : complex) :
  is_locked s = false →
  (base.check_rn rn 0).2 = true →
  let rn3 := (base.check_rn rn 0).1 in
  (in_range orb_i (num_orb_sc s) = false →
     add_hopping rn orb_i orb_j energy s = (s, Raise (SCOrbIndexError orb_i)))
  ∧ (in_range orb_i (num_orb_sc s) = true →
     in_range orb_j (num_orb_sc s) = false →
     add_hopping rn orb_i orb_j energy s = (s, Raise (SCOrbIndexError orb_j)))
  ∧ (in_range orb_i (num_orb_sc s) = true →
     in_range orb_j (num_orb_sc s) = true →
     rn3 = [0; 0; 0] → orb_i = orb_j →
     add_hopping rn orb_i orb_j energy s
     = (s, Raise (SCHopDiagonalError rn3 orb_i)))
  ∧ (in_range orb_i (num_orb_sc s) = true →
     in_range orb_j (num_orb_sc s) = true →
     ¬ (rn3 = [0; 0; 0] ∧ orb_i = orb_j) →
     add_hopping rn orb_i orb_j energy s
     = (set_hop_modifier
          (base.add_hopping (hop_modifier s)
             (HopInd (np_array3 rn3) orb_i orb_j) energy) s, Ok tt)).
Proof.
  intros Hl Hlegal rn3. subst rn3.
  unfold add_hopping, bind. rewrite check_lock_unlocked by done.
  destruct (base.check_rn rn 0) as [rn3 legal] eqn:Hrn. simpl in *. subst legal.
  simpl. unfold get, raise, modify.
  repeat split.
  - intros ->. done.
  - intros -> ->. done.
  - intros -> -> -> ->. simpl. rewrite Z.eqb_refl. done.
  - intros -> -> Hnd. simpl.
    destruct (bool_decide (rn3 = [0; 0; 0])) eqn:Hb; [|done].
    apply bool_decide_eq_true in Hb.
    destruct (orb_i =? orb_j) eqn:He; [|done].
    apply Z.eqb_eq in He. tauto.
Qed.

(** *** The minimal dimension *)

Lemma max_abs_min_max (x : Z) (l : list Z) :
  foldr Z.min x l ≤ foldr Z.max x l
  ∧ Z.max (Z.abs (foldr Z.min x l)) (Z.abs (foldr Z.max x l))
    = foldr Z.max 0 (Z.abs <$> x :: l).
Proof.
  induction l as [|a l [IH1 IH2]]; simpl in *; [lia|].
  split; [lia|]. lia.
Qed.

(** The bound the loop of [__init__] computes from the extrema of a column
    is the maximum absolute index of that column. *)
Lemma check_dim_axis_spec (pc : PrimitiveCell) (dim : list Z) (i : Z) :
  hop_ind pc ≠ [] →
  check_dim_axis pc dim i
  = if getitem dim i <? max_abs_rn pc i
    then Some (SCDimSizeError i (max_abs_rn pc i)) else None.
Proof.
  intros Hne. unfold check_dim_axis, max_abs_rn, hop_ind_column.
  destruct (hop_ind pc) as [|r rows]; [done|].
  rewrite fmap_cons. cbn [np_min np_max].
  pose proof (max_abs_min_max (item (h_rn r) i)
                ((λ r, item (h_rn r) i) <$> rows)) as [_ Heq].
  rewrite Heq. done.
Qed.

(** C4: when some axis of the (completed) dimension is strictly below the
    maximum absolute hopping-range index of the primitive cell on that axis,
    the constructors of [OrbitalSet] and [SuperCell] fail with
    [SCDimSizeError] naming such an axis (the first one) and the bound; when
    every axis is exactly at that bound, construction succeeds. *)
Theorem init_minimal_dimension (pc : PrimitiveCell) (dims : list Z)
    (pbc : list bool) (vacancies : option (list id_pc_type))
    (modifier : option callable) :
  hop_ind pc ≠ [] →
  (base.check_rn dims 1).2 = true →
  let d := (base.check_rn dims 1).1 in
  ((∃ i, i ∈ [0; 1; 2] ∧ getitem d i < max_abs_rn pc i) →
   ∃ i, i ∈ [0; 1; 2] ∧ getitem d i < max_abs_rn pc i
        ∧ (∀ j, 0 ≤ j < i → max_abs_rn pc j ≤ getitem d j)
        ∧ OrbitalSet_init pc dims pbc vacancies
          = Raise (SCDimSizeError i (max_abs_rn pc i))
        ∧ SuperCell_init pc dims pbc vacancies modifier
          = Raise (SCDimSizeError i (max_abs_rn pc i)))
  ∧ ((∀ i, i ∈ [0; 1; 2] → getitem d i = max_abs_rn pc i) →
     (base.check_pbc pbc false).2 = true →
     ∃ s, SuperCell_init pc dims pbc None modifier = Ok s
          ∧ dim s = np_array3 d ∧ vacancy_list s = []).
Proof.
  intros Hne Hlegal d. subst d.
  unfold SuperCell_init, OrbitalSet_init.
  destruct (base.check_rn dims 1) as [d legal] eqn:Hrn. simpl in *. subst legal.
  simpl. rewrite !check_dim_axis_spec by done.
  split.
  - intros (i & Hi & Hlt).
    destruct (getitem d 0 <? max_abs_rn pc 0) eqn:H0.
    { exists 0. apply Z.ltb_lt in H0.
      split_and!; [repeat constructor | done | lia | done | done]. }
    destruct (getitem d 1 <? max_abs_rn pc 1) eqn:H1.
    { exists 1. apply Z.ltb_lt in H1. apply Z.ltb_ge in H0.
      split_and!; [repeat constructor | done | | done | done].
      intros j Hj. by replace j with 0 by lia. }
    destruct (getitem d 2 <? max_abs_rn pc 2) eqn:H2.
    { exists 2. apply Z.ltb_lt in H2. apply Z.ltb_ge in H0, H1.
      split_and!; [repeat constructor | done | | done | done].
      intros j Hj. assert (j = 0 ∨ j = 1) as [-> | ->] by lia; done. }
    apply Z.ltb_ge in H0, H1, H2.
    exfalso. set_unfold in Hi. destruct Hi as [-> | [-> | [-> | []]]]; lia.
  - intros Heq Hpbc.
    rewrite !(proj2 (Z.ltb_ge _ _)) by (rewrite Heq; [lia | set_solver]).
    destruct (base.check_pbc pbc false) as [p legal] eqn:Hp. simpl in *.
    subst legal. simpl. eexists. split; [reflexivity|]. done.
Qed.

(** *** Synchronisation *)

Lemma sync_array_ok (force : bool) (s : SuperCell) :
  (sync_array force s).2 = Ok tt.
Proof.
  unfold sync_array, _update_hash, bind, modify, ret.
  destruct (negb _); simpl; by destruct force.
Qed.

(** [sync_array] writes the hash and the three derived arrays only. *)
Lemma sync_array_attrs (force : bool) (s : SuperCell) :
  let s' := (sync_array force s).1 in
  vacancy_list s' = vacancy_list s ∧ is_locked s' = is_locked s
  ∧ prim_cell s' = prim_cell s ∧ dim s' = dim s ∧ pbc s' = pbc s
  ∧ hop_modifier s' = hop_modifier s
  ∧ orb_pos_modifier s' = orb_pos_modifier s
  ∧ hash_dict s' = py_hash (vacancy_list s).
Proof.
  unfold sync_array, _update_hash, _get_hash, bind, modify, ret.
  destruct s as [lk pc d p vl h vp vs op hm om]. cbn [hash_dict vacancy_list].
  destruct (negb (h =? py_hash vl)) eqn:Hh.
  - rewrite orb_true_r. unfold update_arrays.
    by destruct (fresh_arrays _ _ _) as [[??]?].
  - apply negb_false_iff, Z.eqb_eq in Hh.
    destruct force; cbn; [|done]. unfold update_arrays.
    by destruct (fresh_arrays _ _ _) as [[??]?].
Qed.

(** Once synchronised, an object is left alone by the next plain
    [sync_array()]. *)
Lemma sync_array_idem (force : bool) (s : SuperCell) :
  sync_array false (sync_array force s).1 = ((sync_array force s).1, Ok tt).
Proof.
  destruct (sync_array_attrs force s) as (Hv & _ & _ & _ & _ & _ & _ & Hh).
  unfold sync_array at 1, _update_hash, _get_hash, bind, ret.
  rewrite Hv, Hh, Z.eqb_refl. done.
Qed.

Lemma sync_array_run (force : bool) (s : SuperCell) :
  sync_array force s = ((sync_array force s).1, Ok tt).
Proof.
  rewrite <- (sync_array_ok force s). by destruct (sync_array force s).
Qed.

(** [get_hop] returns [hop_of] of the synchronised object. *)
Lemma get_hop_run (use_fast : option bool) (s : SuperCell) :
  get_hop use_fast s
  = ((sync_array false s).1, Ok (hop_of use_fast (sync_array false s).1)).
Proof.
  unfold get_hop, bind. rewrite (sync_array_run false s). done.
Qed.

(** *** Merging the hopping modifier *)

Lemma find_pair_first (hop_i hop_j : list Z) (x y pos : Z) (n : nat) :
  first_pair_at hop_i hop_j x y n →
  core.find_pair hop_i hop_j x y pos = pos + Z.of_nat n.
Proof.
  revert hop_j pos n.
  induction hop_i as [|i hi IH]; intros hj pos n [[Hi Hj] Hmin].
  { by destruct n. }
  destruct hj as [|j hj]; [by destruct n|]. simpl.
  destruct ((i =? x) && (j =? y)) eqn:Hxy.
  - apply andb_true_iff in Hxy as [->%Z.eqb_eq ->%Z.eqb_eq].
    destruct n as [|n]; [lia|]. destruct (Hmin 0%nat); [lia|done].
  - destruct n as [|n].
    { simpl in Hi, Hj. simplify_eq. by rewrite !Z.eqb_refl in Hxy. }
    rewrite (IH hj (pos + 1) n); [lia|]. split; [done|].
    intros m Hm Hp. apply (Hmin (S m)); [lia|done].
Qed.

Lemma find_pair_none (hop_i hop_j : list Z) (x y pos : Z) :
  no_pair hop_i hop_j x y → core.find_pair hop_i hop_j x y pos = -1.
Proof.
  revert hop_j pos. induction hop_i as [|i hi IH]; intros hj pos Hno; [done|].
  destruct hj as [|j hj]; [done|]. simpl.
  destruct ((i =? x) && (j =? y)) eqn:Hxy.
  - apply andb_true_iff in Hxy as [->%Z.eqb_eq ->%Z.eqb_eq].
    by destruct (Hno 0%nat).
  - apply IH. intros m Hp. by apply (Hno (S m)).
Qed.

Section MergeCases.
Context {vec : Type}.
Variable vadd vsub : vec → vec → vec.
Variable vneg : vec → vec.
Variable matmul_sc_lat_vec : SuperCell → vec3 → vec.

(** C6: the step [get_hop] applies to one entry (offset, bra, ket, energy)
    of the modifier.  When the raw index arrays contain the pair (bra, ket),
    the energy slot of its first occurrence is overwritten with the energy;
    otherwise, when they contain (ket, bra), the slot of its first
    occurrence is overwritten with the conjugate of the energy; otherwise
    the entry is appended to the new terms.  The step of [get_dr] writes the
    distance, its opposite, or appends it, at the same places. *)
Theorem merge_entry_cases (hop_i hop_j : list Z) (hop_v : list complex)
    (new : hop_arrays) (entry : hop_ind_row * complex)
    (s : SuperCell) (orb_pos dr dr_new : list vec) (pos_bra pos_ket : vec) :
  let bra := h_bra entry.1 in
  let ket := h_ket entry.1 in
  let merge_hop := merge_hop_entry hop_i hop_j (hop_v, new) entry in
  let merge_dr := merge_dr_entry vadd vsub vneg matmul_sc_lat_vec s orb_pos
                    hop_i hop_j (Ok (dr, dr_new)) entry.1 in
  let dr_i := vsub (vadd pos_ket (matmul_sc_lat_vec s (h_rn entry.1))) pos_bra in
  let positions := orb_pos !! Z.to_nat bra = Some pos_bra
                   ∧ orb_pos !! Z.to_nat ket = Some pos_ket in
  (∀ n, first_pair_at hop_i hop_j bra ket n →
        merge_hop = (<[n := entry.2]> hop_v, new)
        ∧ (positions → merge_dr = Ok (<[n := dr_i]> dr, dr_new)))
  ∧ (no_pair hop_i hop_j bra ket →
     ∀ n, first_pair_at hop_i hop_j ket bra n →
          merge_hop = (<[n := conjugate entry.2]> hop_v, new)
          ∧ (positions → merge_dr = Ok (<[n := vneg dr_i]> dr, dr_new)))
  ∧ (no_pair hop_i hop_j bra ket → no_pair hop_i hop_j ket bra →
     merge_hop = (hop_v, (new.1.1 ++ [bra], new.1.2 ++ [ket], new.2 ++ [entry.2]))
     ∧ (positions → merge_dr = Ok (dr, dr_new ++ [dr_i]))).
Proof.
  intros bra ket merge_hop merge_dr dr_i positions.
  subst merge_hop merge_dr positions. unfold merge_hop_entry, merge_dr_entry.
  destruct new as [[ni nj] nv]. fold bra ket.
  unfold core.find_equiv_hopping. split_and!.
  - intros n Hn. rewrite (find_pair_first _ _ _ _ 0 n Hn).
    rewrite (proj2 (Z.eqb_neq (0 + Z.of_nat n) (-1))) by lia.
    replace (Z.to_nat (0 + Z.of_nat n)) with n by lia.
    split; [done|]. intros [-> ->]. done.
  - intros Hno n Hn. rewrite (find_pair_none _ _ _ _ 0 Hno).
    rewrite (find_pair_first _ _ _ _ 0 n Hn).
    rewrite (proj2 (Z.eqb_neq (0 + Z.of_nat n) (-1))) by lia.
    replace (Z.to_nat (0 + Z.of_nat n)) with n by lia.
    split; [done|]. intros [-> ->]. done.
  - intros Hno Hno'.
    rewrite (find_pair_none _ _ _ _ 0 Hno), (find_pair_none _ _ _ _ 0 Hno').
    split; [done|]. intros [-> ->]. done.
Qed.

End MergeCases.

(** *** Batches *)

Lemma _check_id_pc_run (id_pc : id_pc_type) (s : SuperCell) :
  _check_id_pc id_pc s
  = (s, match id_pc_error s id_pc with
        | Some e => Raise e
        | None => Ok tt
        end).
Proof.
  unfold _check_id_pc, id_pc_error, core.bad_axis.
  destruct (negb (length id_pc =? 4)%nat); [done|].
  cbv beta iota zeta delta
    [for_each bind get raise ret num_orb_pc item Z.eqb Pos.eqb].
  destruct (negb (in_range (getitem id_pc 0) (v0 (dim s)))); [done|].
  destruct (negb (in_range (getitem id_pc 1) (v1 (dim s)))); [done|].
  destruct (negb (in_range (getitem id_pc 2) (v2 (dim s)))); [done|].
  destruct (negb (in_range (getitem id_pc 3) (num_orb (prim_cell s)))); done.
Qed.

Lemma add_vacancies_body_run (vacancy : id_pc_type) (s : SuperCell) :
  add_vacancies_body vacancy s
  = match id_pc_error s vacancy with
    | Some e => (s, Raise (to_vacancy_error e))
    | None => (set_vacancy_list (append_new (vacancy_list s) vacancy) s, Ok tt)
    end.
Proof.
  unfold add_vacancies_body, bind, as_vacancy_error, modify.
  rewrite _check_id_pc_run. unfold id_pc_error, append_new.
  destruct (negb (length vacancy =? 4)%nat); [done|].
  destruct (core.bad_axis _ _ _); [done|].
  destruct (decide (vacancy ∈ vacancy_list s)); [|done].
  by destruct s.
Qed.

Lemma id_pc_error_set_vacancy_list (l : list id_pc_type) (s : SuperCell)
    (p : id_pc_type) :
  id_pc_error (set_vacancy_list l s) p = id_pc_error s p.
Proof. done. Qed.

(** The loop of [add_vacancies] on a batch whose first offending element
    is [bad]: the elements before it have been appended when it raises. *)
Lemma add_vacancies_loop_bad (good : list id_pc_type) (bad : id_pc_type)
    (rest : list id_pc_type) (e : exc) (s : SuperCell) :
  Forall (λ p, id_pc_error s p = None) good →
  id_pc_error s bad = Some e →
  for_each (good ++ bad :: rest) add_vacancies_body s
  = (set_vacancy_list (foldl append_new (vacancy_list s) good) s,
     Raise (to_vacancy_error e)).
Proof.
  revert s. induction good as [|p good IH]; intros s Hgood Hbad.
  - simpl. unfold bind. rewrite add_vacancies_body_run, Hbad. by destruct s.
  - apply Forall_cons in Hgood as [Hp Hgood]. simpl. unfold bind.
    rewrite add_vacancies_body_run, Hp.
    change (for_each (good ++ bad :: rest) add_vacancies_body
              (set_vacancy_list (append_new (vacancy_list s) p) s)
            = (set_vacancy_list
                 (foldl append_new (append_new (vacancy_list s) p) good) s,
               Raise (to_vacancy_error e))).
    rewrite IH; [done| |done].
    eapply Forall_impl; [exact Hgood|]. done.
Qed.

Lemma first_bad_nth {A} (ok : A → bool) (l : list A) (k : nat) (d : A) :
  core.first_bad ok l = Some k →
  ok (nth k l d) = false ∧ (k < length l)%nat
  ∧ ∀ m, (m < k)%nat → ok (nth m l d) = true.
Proof.
  revert k. induction l as [|x l IH]; intros k Hk; [done|]. simpl in Hk.
  destruct (ok x) eqn:Hx.
  - destruct (core.first_bad ok l) as [k'|]; [|done]. simpl in Hk.
    injection Hk as <-. destruct (IH k' eq_refl) as (H1 & H2 & H3).
    simpl. split_and!; [done|lia|]. intros [|m] Hm; [done|]. apply H3. lia.
  - injection Hk as <-. simpl. split_and!; [done|lia|]. intros m Hm. lia.
Qed.

Lemma check_id_pc_array_from_bad (pos : Z) (d : vec3) (n : Z)
    (good : list id_pc_type) (bad : id_pc_type) (rest : list id_pc_type)
    (vac : option (list id_pc_type)) :
  Forall (λ p, core.bad_axis d n p = None ∧ p ∉ default [] vac) good →
  core.check_id_pc_array_from pos d n (good ++ bad :: rest) vac
  = match core.bad_axis d n bad with
    | Some ax => (-2, pos + Z.of_nat (length good), ax)
    | None => if decide (bad ∈ default [] vac)
              then (-1, pos + Z.of_nat (length good), 4)
              else core.check_id_pc_array_from
                     (pos + Z.of_nat (length good) + 1) d n rest vac
    end.
Proof.
  revert pos. induction good as [|p good IH]; intros pos Hgood.
  - simpl. rewrite Z.add_0_r. done.
  - apply Forall_cons in Hgood as [[Hp Hv] Hgood]. simpl.
    rewrite Hp. destruct (decide (p ∈ default [] vac)); [done|].
    rewrite IH by done.
    replace (pos + 1 + Z.of_nat (length good))
      with (pos + Z.pos (Pos.of_succ_nat (length good))) by lia.
    done.
Qed.

(** C9, as the code has it.  A batch operation stops at the first offending
    element and reports it, but [add_vacancies] has by then appended the
    elements that precede it to the vacancy list, and does not synchronise
    the derived arrays; the array conversions return nothing and only
    synchronise the object. *)
Theorem batch_first_offender (s : SuperCell) (force_sync do_sync : bool) :
  (∀ good bad rest e,
     is_locked s = false →
     Forall (λ p, id_pc_error s p = None) good →
     id_pc_error s bad = Some e →
     add_vacancies (good ++ bad :: rest) do_sync force_sync s
     = (set_vacancy_list (foldl append_new (vacancy_list s) good) s,
        Raise (to_vacancy_error e)))
  ∧ (∀ id_sc_array k,
       core.first_bad (λ x, in_range x (num_orb_sc s)) id_sc_array = Some k →
       orb_id_sc2pc_array id_sc_array s
       = ((sync_array false s).1, Raise (IDSCIndexError (nth k id_sc_array 0))))
  ∧ (∀ good bad rest,
       let s' := (sync_array false s).1 in
       Forall (λ p, core.bad_axis (dim s) (num_orb_pc s) p = None
                    ∧ p ∉ default [] (vac_id_pc s')) good →
       (∀ ax, core.bad_axis (dim s) (num_orb_pc s) bad = Some ax →
              orb_id_pc2sc_array 4 (good ++ bad :: rest) s
              = (s', Raise (IDPCIndexError ax bad)))
       ∧ (core.bad_axis (dim s) (num_orb_pc s) bad = None →
          bad ∈ default [] (vac_id_pc s') →
          orb_id_pc2sc_array 4 (good ++ bad :: rest) s
          = (s', Raise (IDPCVacError bad)))).
Proof.
  split_and!.
  - intros good bad rest e Hl Hgood Hbad.
    unfold add_vacancies, bind. rewrite check_lock_unlocked by done.
    by rewrite (add_vacancies_loop_bad good bad rest e s).
  - intros arr k Hk.
    destruct (sync_array_attrs false s) as (Hv & _ & Hp & Hd & _).
    unfold orb_id_sc2pc_array, bind, get, raise.
    rewrite (sync_array_run false s). unfold core.check_id_sc_array.
    replace (num_orb_sc (sync_array false s).1) with (num_orb_sc s)
      by (unfold num_orb_sc, num_orb_pc; by rewrite Hv, Hp, Hd).
    rewrite Hk. simpl. by rewrite Nat2Z.id.
  - intros good bad rest s' Hgood.
    destruct (sync_array_attrs false s) as (Hv & _ & Hp & Hd & _).
    fold s' in Hv, Hp, Hd.
    assert (Hrun : ∀ r,
      core.check_id_pc_array (dim s') (num_orb_pc s') (good ++ bad :: rest)
        (vac_id_pc s') = r →
      orb_id_pc2sc_array 4 (good ++ bad :: rest) s
      = (if r.1.1 =? -2
         then raise (IDPCIndexError r.2 (nth (Z.to_nat r.1.2) (good ++ bad :: rest) []))
         else if r.1.1 =? -1
         then raise (IDPCVacError (nth (Z.to_nat r.1.2) (good ++ bad :: rest) []))
         else get (λ s, core.id_pc2sc_array (dim s) (num_orb_pc s)
                          (good ++ bad :: rest) (vac_id_sc s))) s').
    { intros r <-. unfold orb_id_pc2sc_array, bind, get.
      rewrite (sync_array_run false s). done. }
    assert (Hnth : nth (Z.to_nat (0 + Z.of_nat (length good)))
                     (good ++ bad :: rest) [] = bad).
    { replace (Z.to_nat (0 + Z.of_nat (length good))) with (length good) by lia.
      rewrite app_nth2 by lia. by rewrite Nat.sub_diag. }
    unfold core.check_id_pc_array in Hrun.
    rewrite check_id_pc_array_from_bad in Hrun
      by (unfold num_orb_pc; by rewrite Hd, Hp).
    unfold num_orb_pc in *. rewrite Hd, Hp in Hrun. split.
    + intros ax Hax. rewrite Hax in Hrun.
      rewrite (Hrun _ eq_refl). simpl. by rewrite Hnth.
    + intros Hax Hvac. rewrite Hax in Hrun.
      destruct (decide (bad ∈ default [] (vac_id_pc s'))); [|done].
      rewrite (Hrun _ eq_refl). simpl. by rewrite Hnth.
Qed.

(** *** Compaction *)

Lemma id_pc_error_None (s : SuperCell) (p : id_pc_type) :
  id_pc_error s p = None ↔ valid_id_pc (dim s) (num_orb_pc s) p.
Proof.
  unfold id_pc_error, valid_id_pc, core.bad_axis, in_range, num_orb_pc.
  destruct (Nat.eqb_spec (length p) 4) as [Hl|Hl]; simpl;
    [|split; [done | by intros [? _]]].
  repeat match goal with
  | |- context [?a <=? ?b] => destruct (Z.leb_spec a b); simpl
  | |- context [?a <? ?b] => destruct (Z.ltb_spec a b); simpl
  end; split; try done; intros; lia.
Qed.

Lemma fresh_arrays_spec (d : vec3) (n : Z) (vl : list id_pc_type) :
  ∃ vac_pc vac_sc,
    vac_pc ≡ₚ vl ∧ vac_sc ≡ₚ core._id_pc2sc d n <$> vl
    ∧ (fresh_arrays d n vl).2 = core.build_orb_id_pc d n (Some vac_pc)
    ∧ ∀ p, core.id_pc2sc d n p (fresh_arrays d n vl).1.2
           = core.id_pc2sc d n p (Some vac_sc).
Proof.
  unfold fresh_arrays. destruct vl as [|v vl].
  - exists [], []. simpl. split_and!; try done.
    + unfold core.build_orb_id_pc. symmetry. apply filter_all.
      apply Forall_forall. intros p _. apply not_elem_of_nil.
    + intros p. lia.
  - set (l := v :: vl). simpl negb. cbv iota.
    set (sorted := argsort_pairs (core.build_vac_id_sc d n l) l).
    assert (Hs : sorted ≡ₚ zip (core.build_vac_id_sc d n l) l)
      by apply merge_sort_Permutation.
    exists sorted.*2, sorted.*1. split_and!; try done.
    + rewrite Hs. rewrite snd_zip; [done|].
      unfold core.build_vac_id_sc. by rewrite length_fmap.
    + rewrite Hs. rewrite fst_zip; [done|].
      unfold core.build_vac_id_sc. by rewrite length_fmap.
Qed.

(** *** The invariant is established and kept *)

Lemma wf_ext (s s' : SuperCell) :
  dim s' = dim s → prim_cell s' = prim_cell s →
  vacancy_list s' = vacancy_list s → wf s → wf s'.
Proof.
  intros Hd Hp Hv [? ? ? ?]. unfold num_orb_pc in *.
  split; unfold num_orb_pc; by rewrite ?Hd, ?Hp, ?Hv.
Qed.

Lemma append_new_wf (d : vec3) (n : Z) (l : list id_pc_type) (v : id_pc_type) :
  valid_id_pc d n v → Forall (valid_id_pc d n) l → NoDup l →
  Forall (valid_id_pc d n) (append_new l v) ∧ NoDup (append_new l v).
Proof.
  intros Hv Hl Hnd. unfold append_new.
  destruct (decide (v ∈ l)) as [Hin|Hin]; [done|]. split.
  - apply Forall_app. split; [done|]. by apply Forall_singleton.
  - apply NoDup_app. split_and!; [done| |apply NoDup_singleton].
    intros x Hx ->%list_elem_of_singleton. done.
Qed.

Lemma add_vacancies_loop_wf (vacancies : list id_pc_type) (s : SuperCell) :
  wf s → wf (for_each vacancies add_vacancies_body s).1.
Proof.
  revert s. induction vacancies as [|v vs IH]; intros s Hwf; [done|].
  simpl. unfold bind. rewrite add_vacancies_body_run.
  destruct (id_pc_error s v) as [e|] eqn:He; [done|].
  apply IH. apply id_pc_error_None in He.
  destruct Hwf as [Hd Hn Hvalid Hnd].
  destruct (append_new_wf _ _ _ _ He Hvalid Hnd) as [Hvalid' Hnd'].
  by split.
Qed.

Lemma add_vacancies_wf (vacancies : list id_pc_type) (do_sync force : bool)
    (s : SuperCell) :
  wf s → wf (add_vacancies vacancies do_sync force s).1.
Proof.
  intros Hwf. unfold add_vacancies, bind, check_lock.
  destruct (is_locked s); [done|].
  pose proof (add_vacancies_loop_wf vacancies s Hwf) as Hloop.
  destruct (for_each vacancies add_vacancies_body s) as [s1 [[]|e]]; [|done].
  simpl in Hloop. destruct do_sync; [|done].
  destruct (sync_array_attrs force s1) as (Hv & _ & Hp & Hd & _).
  by apply (wf_ext s1).
Qed.

Lemma set_vacancies_wf (vacancies : list id_pc_type) (do_sync force : bool)
    (s : SuperCell) :
  wf s → wf (set_vacancies vacancies do_sync force s).1.
Proof.
  intros [Hd Hn _ _]. unfold set_vacancies, bind, modify.
  apply add_vacancies_wf. split; simpl; [done|done|constructor|constructor].
Qed.

Lemma max_abs_rn_nonneg (pc : PrimitiveCell) (i : Z) : 0 ≤ max_abs_rn pc i.
Proof.
  unfold max_abs_rn. induction (hop_ind_column pc i); simpl; lia.
Qed.

Lemma SuperCell_init_wf (pc : PrimitiveCell) (dims : list Z) (pbc : list bool)
    (vacancies : option (list id_pc_type)) (modifier : option callable)
    (s : SuperCell) :
  0 ≤ num_orb pc →
  SuperCell_init pc dims pbc vacancies modifier = Ok s → wf s.
Proof.
  intros Hn. unfold SuperCell_init, OrbitalSet_init.
  destruct (base.check_rn dims 1) as [d legal].
  destruct legal; simpl; [|done].
  destruct (decide (hop_ind pc = [])) as [Hrows|Hne].
  { unfold check_dim_axes, check_dim_axis, hop_ind_column.
    rewrite Hrows. done. }
  rewrite !check_dim_axis_spec by done.
  destruct (getitem d 0 <? max_abs_rn pc 0) eqn:H0; [done|].
  destruct (getitem d 1 <? max_abs_rn pc 1) eqn:H1; [done|].
  destruct (getitem d 2 <? max_abs_rn pc 2) eqn:H2; [done|].
  apply Z.ltb_ge in H0, H1, H2.
  pose proof (max_abs_rn_nonneg pc 0). pose proof (max_abs_rn_nonneg pc 1).
  pose proof (max_abs_rn_nonneg pc 2).
  destruct (base.check_pbc pbc false) as [p legal].
  destruct legal; simpl; [|done].
  set (s0 := mkSuperCell _ _ _ _ _ _ _ _ _ _ _).
  assert (Hwf0 : wf s0).
  { split; simpl; [|done|constructor|constructor].
    unfold dims_ok, np_array3. cbn [v0 v1 v2]. unfold getitem in *.
    change (Z.to_nat 0) with 0%nat in *. change (Z.to_nat 1) with 1%nat in *.
    change (Z.to_nat 2) with 2%nat in *. lia. }
  destruct vacancies as [vac|].
  - pose proof (add_vacancies_wf vac true false s0 Hwf0) as Hwf1.
    destruct (add_vacancies vac true false s0) as [s1 [[]|e]]; [|done].
    intros [= <-]. by apply (wf_ext s1).
  - intros [= <-]. by apply (wf_ext s0).
Qed.

(** After [sync_array] the derived arrays are those of the vacancy list,
    when the call is forced, when the hash has changed, or when they were
    so before. *)
Lemma sync_array_current (s : SuperCell) (force_sync : bool) :
  force_sync = true ∨ hash_dict s ≠ py_hash (vacancy_list s) ∨ arrays_current s →
  arrays_current (sync_array force_sync s).1.
Proof.
  intros Hsync.
  destruct (sync_array_attrs force_sync s) as (Hv & _ & Hp & Hdim & _).
  unfold arrays_current. rewrite Hv, Hdim. unfold num_orb_pc. rewrite Hp.
  fold (num_orb_pc s).
  unfold sync_array, _update_hash, _get_hash, bind, modify, ret.
  destruct (negb (hash_dict s =? py_hash (vacancy_list s))) eqn:Hh.
  - rewrite orb_true_r. unfold update_arrays. cbn.
    fold (num_orb_pc s). by destruct (fresh_arrays _ _ _) as [[??]?].
  - apply negb_false_iff, Z.eqb_eq in Hh.
    destruct Hsync as [-> | [Hne | Hcur]]; [|done|].
    + unfold update_arrays. cbn.
      by destruct (fresh_arrays _ _ _) as [[??]?].
    + destruct force_sync; [|done]. unfold update_arrays. cbn.
      by destruct (fresh_arrays _ _ _) as [[??]?].
Qed.

(** C3: once the arrays are synchronised with a vacancy list of valid,
    distinct indices, the live orbitals and the vacancies add up to
    [num_orb_pc * prod(dim)], and converting a live supercell index to the
    primitive-cell representation and back gives the index again. *)
Theorem compaction_consistency (s : SuperCell) (force_sync : bool) :
  wf s →
  force_sync = true ∨ hash_dict s ≠ py_hash (vacancy_list s) ∨ arrays_current s →
  let s' := (sync_array force_sync s).1 in
  Z.of_nat (length (orb_id_pc s')) + Z.of_nat (length (vacancy_list s'))
  = num_orb_pc s' * np_prod (dim s')
  ∧ ∀ i, 0 ≤ i < num_orb_sc s' →
         ∃ p, orb_id_sc2pc i s' = (s', Ok p) ∧ orb_id_pc2sc p s' = (s', Ok i).
Proof.
  intros [Hd Hn Hvalid Hnodup] Hsync s'.
  destruct (sync_array_attrs force_sync s) as (Hv & _ & Hp & Hdim & _).
  fold s' in Hv, Hp, Hdim.
  pose proof (sync_array_current s force_sync Hsync) as Hcur. fold s' in Hcur.
  unfold arrays_current in Hcur. rewrite Hv, Hdim in Hcur.
  unfold num_orb_sc, num_orb_pc in *. rewrite Hp, Hv, Hdim in *.
  set (d := dim s) in *. set (n := num_orb (prim_cell s)) in *.
  set (vl := vacancy_list s) in *.
  destruct (fresh_arrays_spec d n vl) as (vac_pc & vac_sc & Hpc & Hsc & Ho & Hi).
  rewrite <- Hcur in Ho, Hi. cbn [fst snd] in Ho, Hi.
  pose proof (build_orb_id_pc_length d n Hn Hd vl vac_pc vac_sc Hvalid Hnodup
                Hpc Hsc) as Hlen.
  rewrite <- Ho in Hlen. split; [done|].
  intros i Hi'.
  destruct (lookup_lt_is_Some_2 (orb_id_pc s') (Z.to_nat i)) as [p Hlp]; [lia|].
  exists p.
  pose proof Hlp as Hlp'. rewrite Ho in Hlp'.
  apply (build_orb_id_pc_lookup d n Hn Hd vl vac_pc vac_sc Hvalid Hnodup
           Hpc Hsc) in Hlp' as [Hpv Hpi].
  assert (Hidem : sync_array false s' = (s', Ok tt)) by apply sync_array_idem.
  split.
  - unfold orb_id_sc2pc, bind, get, ret. rewrite Hidem.
    rewrite (proj2 (Z.leb_le 0 i)) by lia.
    rewrite (proj2 (Z.ltb_lt i _)) by lia. simpl.
    by rewrite (nth_lookup_Some _ _ _ _ Hlp).
  - unfold orb_id_pc2sc, bind, get, ret. rewrite Hidem.
    rewrite _check_id_pc_run.
    rewrite (proj2 (id_pc_error_None s' p))
      by (unfold num_orb_pc; by rewrite Hdim, Hp).
    unfold num_orb_pc. rewrite Hdim, Hp. fold d n.
    rewrite Hi, Hpi. rewrite Z2Nat.id by lia.
    by rewrite (proj2 (Z.eqb_neq i (-1))) by lia.
Qed.

(** *** Conjugate pairs in the output of [get_hop] *)

Lemma find_pair_range (hop_i hop_j : list Z) (x y pos : Z) :
  core.find_pair hop_i hop_j x y pos = -1
  ∨ ∃ n, core.find_pair hop_i hop_j x y pos = pos + Z.of_nat n
         ∧ first_pair_at hop_i hop_j x y n.
Proof.
  revert hop_j pos. induction hop_i as [|i hi IH]; intros hj pos; [by left|].
  destruct hj as [|j hj]; [by left|]. simpl.
  destruct ((i =? x) && (j =? y)) eqn:Hxy.
  - right. exists 0%nat. apply andb_true_iff in Hxy as [->%Z.eqb_eq ->%Z.eqb_eq].
    split; [lia|]. split; [done|]. intros m Hm. lia.
  - destruct (IH hj (pos + 1)) as [Hn | (n & Hn & Hf & Hmin)]; [by left|].
    right. exists (S n). split; [lia|]. split; [done|].
    intros [|m] Hm [Hi Hj].
    + simpl in Hi, Hj. simplify_eq. by rewrite !Z.eqb_refl in Hxy.
    + apply (Hmin m); [lia|done].
Qed.

Lemma find_pair_none_inv (hop_i hop_j : list Z) (x y pos : Z) :
  0 ≤ pos → core.find_pair hop_i hop_j x y pos = -1 → no_pair hop_i hop_j x y.
Proof.
  revert hop_j pos. induction hop_i as [|i hi IH]; intros hj pos Hpos Hf.
  { intros m [Hm _]. by destruct m. }
  destruct hj as [|j hj]. { intros m [_ Hm]. by destruct m. }
  simpl in Hf. destruct ((i =? x) && (j =? y)) eqn:Hxy; [lia|].
  intros [|m] [Hi Hj].
  - simpl in Hi, Hj. simplify_eq. by rewrite !Z.eqb_refl in Hxy.
  - apply (IH hj (pos + 1) ltac:(lia) Hf m). done.
Qed.

Lemma is_new_no_pair (hop_i hop_j : list Z) (entry : hop_ind_row * complex) :
  is_new hop_i hop_j entry →
  no_pair hop_i hop_j (h_bra entry.1) (h_ket entry.1)
  ∧ no_pair hop_i hop_j (h_ket entry.1) (h_bra entry.1).
Proof.
  unfold is_new, core.find_equiv_hopping. intros [= H1 H2].
  split; eapply find_pair_none_inv; try eassumption; lia.
Qed.

(** The loop of [get_hop] leaves the index arrays alone and collects the
    entries without a match, in the order of the modifier. *)
Lemma merge_hop_fold (hop_i hop_j : list Z) (entries : list (hop_ind_row * complex))
    (hop_v : list complex) (new : hop_arrays) :
  ∃ hop_v',
    foldl (merge_hop_entry hop_i hop_j) (hop_v, new) entries
    = (hop_v',
       (new.1.1 ++ (h_bra ∘ fst <$> filter (is_new hop_i hop_j) entries),
        new.1.2 ++ (h_ket ∘ fst <$> filter (is_new hop_i hop_j) entries),
        new.2 ++ (snd <$> filter (is_new hop_i hop_j) entries)))
    ∧ length hop_v' = length hop_v.
Proof.
  revert hop_v new. induction entries as [|e entries IH]; intros hop_v new.
  { exists hop_v. simpl. destruct new as [[??]?]. by rewrite !app_nil_r. }
  cbn [foldl]. destruct new as [[ni nj] nv].
  unfold merge_hop_entry at 2. cbv beta zeta iota.
  destruct (core.find_equiv_hopping hop_i hop_j (h_bra e.1) (h_ket e.1))
    as [id_same id_conj] eqn:Hfind.
  destruct (negb (id_same =? -1)) eqn:Hs.
  { destruct (IH (<[Z.to_nat id_same:=e.2]> hop_v) (ni, nj, nv))
      as (hv' & Heq & Hl).
    exists hv'. rewrite length_insert in Hl. rewrite Heq. split; [|done].
    rewrite filter_cons_False; [done|].
    unfold is_new. rewrite Hfind. intros [= -> _]. done. }
  destruct (negb (id_conj =? -1)) eqn:Hc.
  { destruct (IH (<[Z.to_nat id_conj:=conjugate e.2]> hop_v) (ni, nj, nv))
      as (hv' & Heq & Hl).
    exists hv'. rewrite length_insert in Hl. rewrite Heq. split; [|done].
    rewrite filter_cons_False; [done|].
    unfold is_new. rewrite Hfind. intros [= _ ->]. done. }
  apply negb_false_iff, Z.eqb_eq in Hs, Hc. subst.
  destruct (IH hop_v (ni ++ [h_bra e.1], nj ++ [h_ket e.1], nv ++ [e.2]))
    as (hv' & Heq & Hl).
  exists hv'. rewrite Heq. split; [|done].
  rewrite filter_cons_True by done. cbn [fst snd]. rewrite !fmap_cons.
  by rewrite <- !app_assoc.
Qed.

Lemma unzip3_length {A B C} (l : list (A * B * C)) :
  length (core.unzip3 l).1.1 = length l
  ∧ length (core.unzip3 l).1.2 = length l
  ∧ length (core.unzip3 l).2 = length l.
Proof. unfold core.unzip3. simpl. by rewrite !length_fmap. Qed.

(** The three raw arrays have one length. *)
Lemma raw_hop_length (use_fast : option bool) (s : SuperCell) :
  length (raw_hop use_fast s).1.2 = length (raw_hop use_fast s).1.1
  ∧ length (raw_hop use_fast s).2 = length (raw_hop use_fast s).1.1.
Proof.
  unfold raw_hop.
  destruct (match use_fast with Some b => b | None => _ end).
  - unfold _init_hop_fast, core.split_pc_hop, core.build_hop_pbc, core.build_hop.
    cbv zeta. simpl. rewrite !length_app, !length_fmap. done.
  - unfold _init_hop, core.build_hop. simpl. by rewrite !length_fmap.
Qed.

Lemma apply_hop_modifier_indices (modifier : base.IntraHopping)
    (raw : hop_arrays) :
  let new := filter (is_new raw.1.1 raw.1.2) modifier in
  ∃ hop_v,
    apply_hop_modifier modifier raw
    = (raw.1.1 ++ (h_bra ∘ fst <$> new), raw.1.2 ++ (h_ket ∘ fst <$> new),
       hop_v ++ (snd <$> new))
    ∧ length hop_v = length raw.2.
Proof.
  destruct raw as [[hop_i hop_j] hop_v]. simpl. unfold apply_hop_modifier.
  destruct (negb (base.num_hop modifier =? 0)) eqn:Hn.
  - unfold base.to_array. rewrite zip_fst_snd.
    destruct (merge_hop_fold hop_i hop_j modifier hop_v ([], [], []))
      as (hv' & Heq & Hl).
    rewrite Heq. exists hv'. done.
  - apply negb_false_iff, Z.eqb_eq in Hn. unfold base.num_hop in Hn.
    destruct modifier; [|simpl in Hn; lia].
    exists hop_v. simpl. by rewrite !app_nil_r.
Qed.

Lemma filter_lookup_distinct {A} (P : A → Prop) `{∀ x, Decision (P x)}
    (l : list A) (i j : nat) (x y : A) :
  i ≠ j → filter P l !! i = Some x → filter P l !! j = Some y →
  ∃ i' j', i' ≠ j' ∧ l !! i' = Some x ∧ l !! j' = Some y ∧ P x ∧ P y.
Proof.
  intros Hij (i' & Hi' & Hx & Hli)%filter_lookup_take
    (j' & Hj' & Hy & Hlj)%filter_lookup_take.
  exists i', j'. split_and!; try done. intros ->. lia.
Qed.

(** The merge keeps the raw index arrays and appends the entries without a
    match: it adds no transposed entries unless two entries of the modifier
    name the same orbitals in opposite order. *)
Lemma apply_hop_modifier_pair_free (modifier : base.IntraHopping)
    (raw : hop_arrays) :
  length raw.1.2 = length raw.1.1 →
  conj_pair_free raw.1.1 raw.1.2 → modifier_pair_free modifier →
  conj_pair_free (apply_hop_modifier modifier raw).1.1
    (apply_hop_modifier modifier raw).1.2.
Proof.
  intros Hlj Hraw Hmod.
  destruct (apply_hop_modifier_indices modifier raw) as (hv & Heq & Hlen).
  set (new := filter (is_new raw.1.1 raw.1.2) modifier) in *.
  rewrite Heq. cbn [fst snd].
  intros k l x y Hkl [Hki Hkj] [Hli Hlj'].
  assert (Hsplit : ∀ m a b,
    (raw.1.1 ++ (h_bra ∘ fst <$> new)) !! m = Some a →
    (raw.1.2 ++ (h_ket ∘ fst <$> new)) !! m = Some b →
    (m < length raw.1.1)%nat ∧ pair_at raw.1.1 raw.1.2 a b m
    ∨ (length raw.1.1 ≤ m)%nat
      ∧ ∃ e, new !! (m - length raw.1.1)%nat = Some e
             ∧ h_bra e.1 = a ∧ h_ket e.1 = b).
  { intros m a b Ha Hb. destruct (decide (m < length raw.1.1)%nat) as [Hlt|Hge].
    - left. split; [done|]. split.
      + by rewrite lookup_app_l in Ha.
      + rewrite lookup_app_l in Hb by lia. done.
    - right. split; [lia|].
      rewrite lookup_app_r in Ha by lia. rewrite lookup_app_r in Hb by lia.
      rewrite Hlj in Hb. rewrite list_lookup_fmap in Ha, Hb.
      destruct (new !! (m - length raw.1.1)%nat) as [e|];
        simpl in Ha, Hb; [|done].
      exists e. by simplify_eq. }
  destruct (Hsplit k x y Hki Hkj) as [[Hk Hpk] | [Hk (ek & Hek & Hekx & Heky)]];
  destruct (Hsplit l y x Hli Hlj') as [[Hl Hpl] | [Hl (el & Hel & Hely & Helx)]].
  - by apply (Hraw k l x y).
  - apply list_elem_of_lookup_2, list_elem_of_filter in Hel as [Hnew _].
    apply is_new_no_pair in Hnew as [_ Hno]. rewrite Hely, Helx in Hno.
    by apply (Hno k).
  - apply list_elem_of_lookup_2, list_elem_of_filter in Hek as [Hnew _].
    apply is_new_no_pair in Hnew as [_ Hno]. rewrite Hekx, Heky in Hno.
    by apply (Hno l).
  - destruct (filter_lookup_distinct (is_new raw.1.1 raw.1.2)
                modifier (k - length raw.1.1) (l - length raw.1.1)
                ek el ltac:(lia) Hek Hel)
      as (k' & l' & Hkl' & Hk' & Hl' & _).
    apply (Hmod k' l' ek.1 el.1 Hkl').
    + by rewrite list_lookup_fmap, Hk'.
    + by rewrite list_lookup_fmap, Hl'.
    + split; congruence.
Qed.

(** *** The merge, read on triples *)

Lemma triples_unzip3 (l : list (Z * Z * complex)) :
  triples (core.unzip3 l) = l.
Proof.
  unfold triples, core.unzip3. simpl. by rewrite !zip_fst_snd.
Qed.

Lemma triples_app (ai aj : list Z) (av : list complex) (bi bj : list Z)
    (bv : list complex) :
  length aj = length ai → length av = length ai →
  triples (ai ++ bi, aj ++ bj, av ++ bv)
  = triples (ai, aj, av) ++ triples (bi, bj, bv).
Proof.
  intros Hj Hv. unfold triples. cbn [fst snd].
  rewrite (zip_with_app pair ai bi aj bj) by done.
  rewrite zip_with_app; [done|]. rewrite length_zip_with. lia.
Qed.

Lemma find_pair_lookup (hop_i hop_j : list Z) (hop_v : list complex)
    (x y pos : Z) :
  length hop_j = length hop_i → length hop_v = length hop_i →
  match lookup_pair x y (triples (hop_i, hop_j, hop_v)) with
  | None => core.find_pair hop_i hop_j x y pos = -1
  | Some _ =>
      ∃ n, core.find_pair hop_i hop_j x y pos = pos + Z.of_nat n
           ∧ ∀ e, triples (hop_i, hop_j, <[n := e]> hop_v)
                  = set_pair x y e (triples (hop_i, hop_j, hop_v))
  end.
Proof.
  revert hop_j hop_v pos.
  induction hop_i as [|i hi IH]; intros [|j hj] [|v hv] pos Hj Hv;
    try done.
  unfold triples in *. simpl in *.
  destruct ((i =? x) && (j =? y)) eqn:Hxy.
  - exists 0%nat. split; [lia|done].
  - specialize (IH hj hv (pos + 1) ltac:(lia) ltac:(lia)).
    destruct (lookup_pair x y (zip (zip hi hj) hv)); [|done].
    destruct IH as (n & Hn & Hset). exists (S n). split; [lia|].
    intros e. simpl. by rewrite Hset.
Qed.

(** The loop of [get_hop] acts on the triples of the raw arrays as
    [merge_raw_triples] does. *)
Lemma merge_hop_fold_triples (hop_i hop_j : list Z)
    (entries : list (hop_ind_row * complex)) (hop_v : list complex)
    (new : hop_arrays) :
  length hop_j = length hop_i → length hop_v = length hop_i →
  triples (hop_i, hop_j,
           (foldl (merge_hop_entry hop_i hop_j) (hop_v, new) entries).1)
  = foldl merge_raw_triples (triples (hop_i, hop_j, hop_v)) entries.
Proof.
  intros Hj. revert hop_v new.
  induction entries as [|e entries IH]; intros hop_v new Hv; [done|].
  cbn [foldl]. destruct new as [[ni nj] nv].
  unfold merge_hop_entry at 2, merge_raw_triples at 2.
  unfold core.find_equiv_hopping. cbv beta zeta iota.
  pose proof (find_pair_lookup hop_i hop_j hop_v (h_bra e.1) (h_ket e.1) 0
                Hj Hv) as Hsame.
  pose proof (find_pair_lookup hop_i hop_j hop_v (h_ket e.1) (h_bra e.1) 0
                Hj Hv) as Hconj.
  destruct (lookup_pair (h_bra e.1) (h_ket e.1) _) as [v|].
  { destruct Hsame as (n & -> & Hset).
    rewrite (proj2 (Z.eqb_neq (0 + Z.of_nat n) (-1))) by lia.
    replace (Z.to_nat (0 + Z.of_nat n)) with n by lia. cbn [negb].
    rewrite IH by (by rewrite length_insert). by rewrite Hset. }
  rewrite Hsame. cbn [Z.eqb Pos.eqb negb].
  destruct (lookup_pair (h_ket e.1) (h_bra e.1) _) as [v|].
  { destruct Hconj as (n & -> & Hset).
    rewrite (proj2 (Z.eqb_neq (0 + Z.of_nat n) (-1))) by lia.
    replace (Z.to_nat (0 + Z.of_nat n)) with n by lia. cbn [negb].
    rewrite IH by (by rewrite length_insert). by rewrite Hset. }
  rewrite Hconj. cbn [Z.eqb Pos.eqb negb]. by rewrite IH.
Qed.

Lemma is_new_lookup (hop_i hop_j : list Z) (hop_v : list complex)
    (entry : hop_ind_row * complex) :
  length hop_j = length hop_i → length hop_v = length hop_i →
  is_new hop_i hop_j entry
  ↔ lookup_pair (h_bra entry.1) (h_ket entry.1) (triples (hop_i, hop_j, hop_v))
    = None
    ∧ lookup_pair (h_ket entry.1) (h_bra entry.1) (triples (hop_i, hop_j, hop_v))
      = None.
Proof.
  intros Hj Hv. unfold is_new, core.find_equiv_hopping.
  pose proof (find_pair_lookup hop_i hop_j hop_v (h_bra entry.1)
                (h_ket entry.1) 0 Hj Hv) as Hsame.
  pose proof (find_pair_lookup hop_i hop_j hop_v (h_ket entry.1)
                (h_bra entry.1) 0 Hj Hv) as Hconj.
  destruct (lookup_pair (h_bra entry.1) (h_ket entry.1) _) as [v|].
  { destruct Hsame as (n & -> & _). split; [|by intros [? _]].
    intros [= Hn _]. lia. }
  destruct (lookup_pair (h_ket entry.1) (h_bra entry.1) _) as [v|].
  { destruct Hconj as (n & -> & _). split; [|by intros [_ ?]].
    intros [= _ Hn]. lia. }
  rewrite Hsame, Hconj. done.
Qed.

Lemma triples_entries (l : list (hop_ind_row * complex)) :
  triples (h_bra ∘ fst <$> l, h_ket ∘ fst <$> l, l.*2)
  = (λ e : hop_ind_row * complex, (h_bra e.1, h_ket e.1, e.2)) <$> l.
Proof.
  unfold triples. cbn [fst snd].
  induction l as [|e l IH]; [done|].
  rewrite !fmap_cons. cbn [zip_with]. by rewrite IH.
Qed.

(** The triples [get_hop] returns: the raw ones as the modifier rewrites
    them, then the new ones. *)
Lemma apply_hop_modifier_triples (modifier : base.IntraHopping)
    (raw : hop_arrays) :
  length raw.1.2 = length raw.1.1 → length raw.2 = length raw.1.1 →
  triples (apply_hop_modifier modifier raw)
  = foldl merge_raw_triples (triples raw) modifier
    ++ ((λ e : hop_ind_row * complex, (h_bra e.1, h_ket e.1, e.2))
          <$> filter (is_new raw.1.1 raw.1.2) modifier).
Proof.
  destruct raw as [[hop_i hop_j] hop_v]. cbn [fst snd]. intros Hj Hv.
  unfold apply_hop_modifier.
  destruct (negb (base.num_hop modifier =? 0)) eqn:Hn.
  - unfold base.to_array. rewrite zip_fst_snd.
    pose proof (merge_hop_fold_triples hop_i hop_j modifier hop_v ([], [], [])
                  Hj Hv) as Ht.
    destruct (merge_hop_fold hop_i hop_j modifier hop_v ([], [], []))
      as (hv' & Heq & Hl).
    rewrite Heq in *. cbn [fst snd app] in *.
    set (new := filter (is_new hop_i hop_j) modifier).
    rewrite triples_app by lia.
    rewrite Ht. f_equal. apply triples_entries.
  - apply negb_false_iff, Z.eqb_eq in Hn. unfold base.num_hop in Hn.
    destruct modifier; [|simpl in Hn; lia]. simpl. by rewrite app_nil_r.
Qed.

(** *** The merge does not depend on the order of the raw triples *)

Lemma lookup_pair_app (x y : Z) (l1 l2 : list (Z * Z * complex)) :
  lookup_pair x y (l1 ++ l2)
  = match lookup_pair x y l1 with
    | Some v => Some v
    | None => lookup_pair x y l2
    end.
Proof.
  induction l1 as [|[[i j] v] l1 IH]; [done|]. simpl.
  by destruct ((i =? x) && (j =? y)).
Qed.

Lemma lookup_pair_Some (x y : Z) (l : list (Z * Z * complex)) (v : complex) :
  lookup_pair x y l = Some v → (x, y, v) ∈ l.
Proof.
  induction l as [|[[i j] w] l IH]; [done|]. simpl.
  destruct ((i =? x) && (j =? y)) eqn:Hxy.
  - apply andb_true_iff in Hxy as [->%Z.eqb_eq ->%Z.eqb_eq].
    intros [= ->]. left.
  - intros Hl. right. by apply IH.
Qed.

Lemma lookup_pair_None (x y : Z) (l : list (Z * Z * complex)) :
  lookup_pair x y l = None ↔ ∀ v, (x, y, v) ∉ l.
Proof.
  induction l as [|[[i j] w] l IH]; simpl.
  { split; [|done]. intros _ v. apply not_elem_of_nil. }
  destruct ((i =? x) && (j =? y)) eqn:Hxy.
  - apply andb_true_iff in Hxy as [->%Z.eqb_eq ->%Z.eqb_eq].
    split; [done|]. intros Hn. destruct (Hn w). left.
  - rewrite IH. apply andb_false_iff in Hxy.
    split.
    + intros Hn v [Heq|Hin]%elem_of_cons; [|by apply (Hn v)].
      injection Heq as -> -> ->. rewrite !Z.eqb_refl in Hxy. by destruct Hxy.
    + intros Hn v Hin. apply (Hn v). by right.
Qed.

Lemma set_pair_lookup (x y a b : Z) (e : complex) (l : list (Z * Z * complex)) :
  lookup_pair a b (set_pair x y e l)
  = if decide (a = x ∧ b = y)
    then (match lookup_pair x y l with Some _ => Some e | None => None end)
    else lookup_pair a b l.
Proof.
  induction l as [|[[i j] v] l IH]; simpl.
  { by destruct (decide _). }
  destruct ((i =? x) && (j =? y)) eqn:Hxy; simpl.
  - apply andb_true_iff in Hxy as [->%Z.eqb_eq ->%Z.eqb_eq].
    destruct (decide (a = x ∧ b = y)) as [[-> ->]|Hne].
    + by rewrite !Z.eqb_refl.
    + destruct ((x =? a) && (y =? b)) eqn:Hab; [|done].
      apply andb_true_iff in Hab as [->%Z.eqb_eq ->%Z.eqb_eq]. tauto.
  - rewrite IH. destruct (decide (a = x ∧ b = y)) as [[-> ->]|Hne].
    + by rewrite Hxy.
    + done.
Qed.

Lemma set_pair_Permutation (x y : Z) (e v : complex)
    (l : list (Z * Z * complex)) :
  lookup_pair x y l = Some v →
  ∃ rest, l ≡ₚ (x, y, v) :: rest ∧ set_pair x y e l ≡ₚ (x, y, e) :: rest.
Proof.
  induction l as [|[[i j] w] l IH]; [done|]. simpl.
  destruct ((i =? x) && (j =? y)) eqn:Hxy.
  - apply andb_true_iff in Hxy as [->%Z.eqb_eq ->%Z.eqb_eq].
    intros [= ->]. by exists l.
  - intros Hl. destruct (IH Hl) as (rest & Hp1 & Hp2).
    exists ((i, j, w) :: rest). split.
    + rewrite Hp1. apply Permutation_swap.
    + rewrite Hp2. apply Permutation_swap.
Qed.

Lemma set_pair_None (x y : Z) (e : complex) (l : list (Z * Z * complex)) :
  lookup_pair x y l = None → set_pair x y e l = l.
Proof.
  induction l as [|[[i j] w] l IH]; [done|]. simpl.
  destruct ((i =? x) && (j =? y)); [done|]. intros Hl. by rewrite IH.
Qed.

Lemma set_pair_same_triples (x y : Z) (e : complex)
    (l1 l2 : list (Z * Z * complex)) :
  same_triples l1 l2 → same_triples (set_pair x y e l1) (set_pair x y e l2).
Proof.
  intros [Hp Hl]. split.
  - destruct (lookup_pair x y l1) as [v|] eqn:H1.
    + destruct (set_pair_Permutation x y e v l1 H1) as (r1 & Hr1 & Hs1).
      rewrite Hl in H1.
      destruct (set_pair_Permutation x y e v l2 H1) as (r2 & Hr2 & Hs2).
      rewrite Hs1, Hs2. apply Permutation_skip.
      apply (Permutation_cons_inv (a := (x, y, v))). by rewrite <- Hr1, <- Hr2.
    + rewrite (set_pair_None x y e l1 H1). rewrite Hl in H1.
      by rewrite (set_pair_None x y e l2 H1).
  - intros a b. rewrite !set_pair_lookup. by rewrite !Hl.
Qed.

Lemma merge_raw_same_triples (l1 l2 : list (Z * Z * complex))
    (entries : list (hop_ind_row * complex)) :
  same_triples l1 l2 →
  same_triples (foldl merge_raw_triples l1 entries)
    (foldl merge_raw_triples l2 entries).
Proof.
  revert l1 l2. induction entries as [|e entries IH]; intros l1 l2 Hs; [done|].
  simpl. apply IH. unfold merge_raw_triples.
  destruct Hs as [Hp Hl]. rewrite <- !Hl.
  destruct (lookup_pair (h_bra e.1) (h_ket e.1) l1).
  { by apply set_pair_same_triples. }
  destruct (lookup_pair (h_ket e.1) (h_bra e.1) l1).
  { by apply set_pair_same_triples. }
  done.
Qed.

(** Raw arrays with the same triples and the same first energies give,
    under any modifier, outputs that are permutations of each other. *)
Lemma apply_hop_modifier_Permutation (modifier : base.IntraHopping)
    (raw1 raw2 : hop_arrays) :
  length raw1.1.2 = length raw1.1.1 → length raw1.2 = length raw1.1.1 →
  length raw2.1.2 = length raw2.1.1 → length raw2.2 = length raw2.1.1 →
  same_triples (triples raw1) (triples raw2) →
  triples (apply_hop_modifier modifier raw1)
  ≡ₚ triples (apply_hop_modifier modifier raw2).
Proof.
  intros Hj1 Hv1 Hj2 Hv2 Hs.
  rewrite !apply_hop_modifier_triples by done.
  apply Permutation_app.
  - by apply merge_raw_same_triples.
  - replace (filter (is_new raw1.1.1 raw1.1.2) modifier)
      with (filter (is_new raw2.1.1 raw2.1.2) modifier); [done|].
    apply list_filter_iff. intros e.
    destruct raw1 as [[i1 j1] v1], raw2 as [[i2 j2] v2]. cbn [fst snd] in *.
    rewrite (is_new_lookup i1 j1 v1), (is_new_lookup i2 j2 v2) by done.
    destruct Hs as [_ Hl]. by rewrite !Hl.
Qed.

(** *** Nested loops over the flat indices *)

Lemma omap_bind_option_list {A B} (f : A → option B) (l : list A) :
  omap f l = l ≫= λ x, option_list (f x).
Proof.
  induction l as [|x l IH]; [done|]. csimpl.
  destruct (f x); csimpl; by rewrite IH.
Qed.

Lemma list_bind_assoc {A B C} (f : A → list B) (g : B → list C) (l : list A) :
  (l ≫= f) ≫= g = l ≫= λ x, f x ≫= g.
Proof.
  induction l as [|x l IH]; [done|]. by rewrite !bind_cons, bind_app, IH.
Qed.

Lemma list_bind_fmap_r {A B C} (f : A → list B) (g : B → C) (l : list A) :
  g <$> (l ≫= f) = l ≫= λ x, g <$> f x.
Proof.
  induction l as [|x l IH]; [done|]. by rewrite !bind_cons, fmap_app, IH.
Qed.

Lemma list_bind_nil_r {A B} (l : list A) : l ≫= (λ _, @nil B) = [].
Proof. induction l as [|x l IH]; [done|]. by rewrite bind_cons, IH. Qed.

Lemma list_bind_singleton_r {A B} (g : A → B) (l : list A) :
  l ≫= (λ x, [g x]) = g <$> l.
Proof.
  induction l as [|x l IH]; [done|]. rewrite bind_cons, IH. done.
Qed.

Lemma seqZ_mul_bind {B} (a n : Z) (h : Z → list B) :
  0 ≤ a → 0 ≤ n →
  seqZ 0 (a * n) ≫= h = seqZ 0 a ≫= λ x, seqZ 0 n ≫= λ o, h (x * n + o).
Proof.
  intros Ha Hn. rewrite <- (Z2Nat.id a Ha). clear Ha.
  induction (Z.to_nat a) as [|k IH]; [done|].
  rewrite seqZ_S, bind_app, bind_singleton, <- IH.
  replace (Z.of_nat (S k) * n) with (Z.of_nat k * n + n) by lia.
  rewrite seqZ_app by lia. rewrite bind_app. f_equal.
  replace (0 + Z.of_nat k * n) with (Z.of_nat k * n + 0) by lia.
  rewrite Z.add_0_l, <- (fmap_add_seqZ (Z.of_nat k * n) 0 n).
  by rewrite list_fmap_bind.
Qed.

Lemma bind_seqZ_single {B} (n i : Z) (z : B) :
  0 ≤ i < n → seqZ 0 n ≫= (λ o, if o =? i then [z] else []) = [z].
Proof.
  intros Hi. replace n with (i + (1 + (n - i - 1))) by lia.
  rewrite seqZ_app by lia. rewrite seqZ_app by lia. rewrite !bind_app.
  rewrite (Forall_bind_ext _ (λ _, []) (seqZ 0 i)).
  2: { apply Forall_forall. intros o [? ?]%elem_of_seqZ.
       by rewrite (proj2 (Z.eqb_neq o i)) by lia. }
  rewrite (Forall_bind_ext _ (λ _, []) (seqZ (0 + i + 1) _)).
  2: { apply Forall_forall. intros o [? ?]%elem_of_seqZ.
       by rewrite (proj2 (Z.eqb_neq o i)) by lia. }
  rewrite !list_bind_nil_r. simpl. rewrite Z.eqb_refl. done.
Qed.

(** The flat indices in order are the cells in row-major order, each with
    its orbitals in order. *)
Lemma seqZ_cells_bind {B} (d : vec3) (n : Z) (h : Z → list B) :
  dims_ok d → 0 ≤ n →
  seqZ 0 (n * np_prod d) ≫= h
  = core.cells d ≫= λ abc : Z * Z * Z,
      seqZ 0 n ≫= λ o,
        h (core._id_pc2sc d n [abc.1.1; abc.1.2; abc.2; o]).
Proof.
  intros (Hd0 & Hd1 & Hd2) Hn. unfold np_prod, core.cells.
  replace (n * (v0 d * v1 d * v2 d)) with (v0 d * v1 d * v2 d * n) by lia.
  rewrite seqZ_mul_bind by nia. rewrite seqZ_mul_bind by nia.
  rewrite seqZ_mul_bind by nia.
  rewrite !list_bind_assoc. apply list_bind_ext; [|done]. intros a.
  rewrite !list_bind_assoc. apply list_bind_ext; [|done]. intros b.
  rewrite !list_bind_assoc. apply list_bind_ext; [|done]. intros c.
  rewrite bind_singleton. done.
Qed.

Lemma elem_of_cells (d : vec3) (abc : Z * Z * Z) :
  abc ∈ core.cells d
  ↔ 0 ≤ abc.1.1 < v0 d ∧ 0 ≤ abc.1.2 < v1 d ∧ 0 ≤ abc.2 < v2 d.
Proof.
  unfold core.cells. destruct abc as [[a b] c]. simpl.
  setoid_rewrite list_elem_of_bind. setoid_rewrite list_elem_of_bind.
  setoid_rewrite list_elem_of_bind. setoid_rewrite elem_of_seqZ.
  setoid_rewrite list_elem_of_singleton. split.
  - intros (a' & (b' & (c' & [= -> -> ->] & ?) & ?) & ?). lia.
  - intros (? & ? & ?). exists a. split; [|lia]. exists b. split; [|lia].
    exists c. split; [done|lia].
Qed.

Lemma enumerate_all_id_pc (d : vec3) (n N : Z) :
  0 ≤ N →
  core.enumerate (core.all_id_pc d n N)
  = (λ k, (k, core._id_sc2pc d n k)) <$> seqZ 0 N.
Proof.
  intros HN. unfold core.enumerate, core.all_id_pc.
  rewrite length_fmap, length_seqZ, Z2Nat.id by done.
  rewrite zip_with_fmap_r, zip_with_diag. done.
Qed.

(** *** The fast algorithm on the periodic part *)

Lemma wrap_axis_pbc (p dim_i x r : Z) :
  0 ≤ x < dim_i → negb (p =? 0) || (r =? 0) = true →
  core.wrap_axis p dim_i (x + r) = Some (core.wrap_pbc p dim_i (x + r))
  ∧ 0 ≤ core.wrap_pbc p dim_i (x + r) < dim_i.
Proof.
  intros Hx Hp. unfold core.wrap_axis, core.wrap_pbc, in_range.
  destruct (p =? 0) eqn:Hp0; simpl in Hp.
  - apply Z.eqb_eq in Hp. subst r. rewrite Z.add_0_r.
    rewrite (proj2 (Z.leb_le 0 x)), (proj2 (Z.ltb_lt x dim_i)) by lia. done.
  - split; [done|]. apply Z.mod_pos_bound. lia.
Qed.

Lemma emit_term_pbc_eq (d pbc : vec3) (n : Z) (t : hop_ind_row * complex) :
  dims_ok d → 0 ≤ n →
  core.is_pbc_term pbc t.1 = true →
  0 ≤ h_bra t.1 < n → 0 ≤ h_ket t.1 < n →
  core.emit_term d pbc n (core.all_id_pc d n (n * np_prod d)) None t
  = core.emit_term_pbc d pbc n t.
Proof.
  intros Hd Hn Hpbc Hbra Hket.
  assert (0 ≤ n * np_prod d)
    by (destruct Hd as (? & ? & ?); unfold np_prod; nia).
  unfold core.emit_term, core.emit_term_pbc.
  rewrite enumerate_all_id_pc by done.
  rewrite omap_bind_option_list, list_fmap_bind, seqZ_cells_bind by done.
  rewrite <- list_bind_singleton_r. apply Forall_bind_ext, Forall_forall.
  intros [[a b] c] (Ha & Hb & Hc)%elem_of_cells. cbn [fst snd] in *.
  unfold core.is_pbc_term in Hpbc.
  apply andb_true_iff in Hpbc as [[P0 P1]%andb_true_iff P2].
  destruct (wrap_axis_pbc (v0 pbc) (v0 d) a (v0 (h_rn t.1)) Ha P0) as [Ea Ra].
  destruct (wrap_axis_pbc (v1 pbc) (v1 d) b (v1 (h_rn t.1)) Hb P1) as [Eb Rb].
  destruct (wrap_axis_pbc (v2 pbc) (v2 d) c (v2 (h_rn t.1)) Hc P2) as [Ec Rc].
  rewrite <- (bind_seqZ_single n (h_bra t.1) _ Hbra).
  apply Forall_bind_ext, Forall_forall. intros o [Ho Ho']%elem_of_seqZ.
  assert (Hp : valid_id_pc d n [a; b; c; o]).
  { unfold valid_id_pc, getitem. simpl. repeat split; lia. }
  unfold compose. cbn [fst snd].
  rewrite (proj1 (_id_sc2pc_pc2sc d n _ Hp)).
  change (getitem [a; b; c; o] 3) with o.
  destruct (o =? h_bra t.1) eqn:Hob; [|done].
  apply Z.eqb_eq in Hob. subst o.
  unfold core.dest_id_pc.
  change (getitem [a; b; c; h_bra t.1] 0) with a.
  change (getitem [a; b; c; h_bra t.1] 1) with b.
  change (getitem [a; b; c; h_bra t.1] 2) with c.
  rewrite Ea, Eb, Ec. simpl.
  set (q := [core.wrap_pbc _ _ _; core.wrap_pbc _ _ _; core.wrap_pbc _ _ _; _]).
  assert (Hq : valid_id_pc d n q).
  { unfold valid_id_pc, getitem. simpl. repeat split; lia. }
  pose proof (proj2 (_id_sc2pc_pc2sc d n q Hq)) as Hr.
  rewrite (proj2 (Z.eqb_neq _ (-1))) by lia. done.
Qed.

(** *** The periodic part and the rest emit different pairs *)

Lemma wrap_axis_Some (p dim_i x x' : Z) :
  0 < dim_i → core.wrap_axis p dim_i x = Some x' →
  0 ≤ x' < dim_i ∧ (p = 0 → x' = x).
Proof.
  intros Hd. unfold core.wrap_axis, in_range.
  destruct (Z.eqb_spec p 0) as [->|Hp].
  - destruct (Z.leb_spec 0 x), (Z.ltb_spec x dim_i); simpl; intros [= <-]; lia.
  - intros [= <-]. split; [apply Z.mod_pos_bound; lia|done].
Qed.

Lemma dest_id_pc_Some (d pbc : vec3) (n : Z) (p q : id_pc_type) (rn : vec3)
    (ket : Z) :
  valid_id_pc d n p → 0 ≤ ket < n →
  core.dest_id_pc d pbc p rn ket = Some q →
  valid_id_pc d n q
  ∧ (v0 pbc = 0 → getitem q 0 = getitem p 0 + v0 rn)
  ∧ (v1 pbc = 0 → getitem q 1 = getitem p 1 + v1 rn)
  ∧ (v2 pbc = 0 → getitem q 2 = getitem p 2 + v2 rn).
Proof.
  intros (Hlen & Ha & Hb & Hc & Ho) Hket. unfold core.dest_id_pc.
  destruct (core.wrap_axis (v0 pbc) _ _) as [a'|] eqn:Ea; [|done].
  destruct (core.wrap_axis (v1 pbc) _ _) as [b'|] eqn:Eb; [|done].
  destruct (core.wrap_axis (v2 pbc) _ _) as [c'|] eqn:Ec; [|done].
  simpl. intros [= <-].
  apply wrap_axis_Some in Ea as [? ?]; [|lia].
  apply wrap_axis_Some in Eb as [? ?]; [|lia].
  apply wrap_axis_Some in Ec as [? ?]; [|lia].
  unfold valid_id_pc, getitem. simpl. repeat split; (done || lia).
Qed.

Lemma elem_of_emit_term (d pbc : vec3) (n : Z) (t : hop_ind_row * complex)
    (x y : Z) (v : complex) :
  dims_ok d → 0 ≤ n →
  (x, y, v) ∈ core.emit_term d pbc n (core.all_id_pc d n (n * np_prod d)) None t →
  ∃ p q, valid_id_pc d n p ∧ x = core._id_pc2sc d n p
         ∧ core.dest_id_pc d pbc p (h_rn t.1) (h_ket t.1) = Some q
         ∧ y = core._id_pc2sc d n q.
Proof.
  intros Hd Hn.
  assert (0 ≤ n * np_prod d)
    by (destruct Hd as (? & ? & ?); unfold np_prod; nia).
  unfold core.emit_term. rewrite enumerate_all_id_pc by done.
  intros ([k p] & Hin & Hf)%list_elem_of_omap.
  apply list_elem_of_fmap in Hin as (k' & [= -> ->] & [? ?]%elem_of_seqZ).
  cbn [fst snd] in Hf.
  destruct (getitem _ 3 =? h_bra t.1); [|done].
  destruct (core.dest_id_pc _ _ _ _ _) as [q|] eqn:Hq; [|done].
  simpl in Hf. destruct (core._id_pc2sc d n q =? -1); [done|].
  injection Hf as <- <- <-.
  exists (core._id_sc2pc d n k'), q. split_and!; try done.
  - apply _id_sc2pc_valid; [done|lia].
  - by rewrite _id_pc2sc_sc2pc by (done || lia).
Qed.

Lemma _id_pc2sc_inj (d : vec3) (n : Z) (p q : id_pc_type) :
  valid_id_pc d n p → valid_id_pc d n q →
  core._id_pc2sc d n p = core._id_pc2sc d n q → p = q.
Proof.
  intros Hp Hq Heq.
  rewrite <- (proj1 (_id_sc2pc_pc2sc d n p Hp)).
  rewrite <- (proj1 (_id_sc2pc_pc2sc d n q Hq)). by rewrite Heq.
Qed.

Lemma emit_term_disjoint (d pbc : vec3) (n : Z) (t1 t2 : hop_ind_row * complex)
    (x y : Z) (w1 w2 : complex) :
  dims_ok d → 0 ≤ n →
  core.is_pbc_term pbc t1.1 = true → core.is_pbc_term pbc t2.1 ≠ true →
  0 ≤ h_ket t1.1 < n → 0 ≤ h_ket t2.1 < n →
  (x, y, w1) ∈ core.emit_term d pbc n (core.all_id_pc d n (n * np_prod d)) None t1 →
  (x, y, w2) ∈ core.emit_term d pbc n (core.all_id_pc d n (n * np_prod d)) None t2 →
  False.
Proof.
  intros Hd Hn Hp1 Hp2 Hk1 Hk2.
  intros (p1 & q1 & Hv1 & Hx1 & Hd1 & Hy1)%elem_of_emit_term; [|done..].
  intros (p2 & q2 & Hv2 & Hx2 & Hd2 & Hy2)%elem_of_emit_term; [|done..].
  assert (p2 = p1) as -> by (apply (_id_pc2sc_inj d n); congruence).
  destruct (dest_id_pc_Some d pbc n p1 q1 _ _ Hv1 Hk1 Hd1) as (Hq1 & A1 & B1 & C1).
  destruct (dest_id_pc_Some d pbc n p1 q2 _ _ Hv1 Hk2 Hd2) as (Hq2 & A2 & B2 & C2).
  assert (q2 = q1) as -> by (apply (_id_pc2sc_inj d n); congruence).
  apply Hp2. unfold core.is_pbc_term in *.
  apply andb_true_iff in Hp1 as [[P0 P1]%andb_true_iff P2].
  rewrite !andb_true_iff. split_and!.
  - destruct (Z.eqb_spec (v0 pbc) 0) as [E|E]; [|done]. simpl in *.
    apply Z.eqb_eq in P0. apply Z.eqb_eq. specialize (A1 E). specialize (A2 E).
    lia.
  - destruct (Z.eqb_spec (v1 pbc) 0) as [E|E]; [|done]. simpl in *.
    apply Z.eqb_eq in P1. apply Z.eqb_eq. specialize (B1 E). specialize (B2 E).
    lia.
  - destruct (Z.eqb_spec (v2 pbc) 0) as [E|E]; [|done]. simpl in *.
    apply Z.eqb_eq in P2. apply Z.eqb_eq. specialize (C1 E). specialize (C2 E).
    lia.
Qed.

(** *** First energies of a concatenation of emissions *)

Section Partition.
Context {A : Type} (emit : A → list (Z * Z * complex)).
Context (P : A → Prop) `{∀ t, Decision (P t)}.

Lemma lookup_pair_bind_None (x y : Z) (l : list A) :
  lookup_pair x y (l ≫= emit) = None
  ↔ ∀ t, t ∈ l → lookup_pair x y (emit t) = None.
Proof.
  induction l as [|t l IH].
  { split; [|done]. intros _ t Ht. by apply not_elem_of_nil in Ht. }
  rewrite bind_cons, lookup_pair_app. split.
  - destruct (lookup_pair x y (emit t)) eqn:Ht; [done|].
    intros Hl t' [->|Hin]%elem_of_cons; [done|]. by apply IH.
  - intros Hall. rewrite (Hall t) by left. apply IH.
    intros t' Ht'. apply Hall. by right.
Qed.

Lemma lookup_pair_bind_filter (x y : Z) (l : list A) :
  (∀ t, t ∈ l → ¬ P t → lookup_pair x y (emit t) = None) →
  lookup_pair x y (l ≫= emit) = lookup_pair x y (filter P l ≫= emit).
Proof.
  induction l as [|t l IH]; intros Hall; [done|].
  rewrite bind_cons, lookup_pair_app.
  rewrite IH by (intros t' Ht'; apply Hall; by right).
  destruct (decide (P t)) as [Ht|Ht].
  - rewrite filter_cons_True by done. by rewrite bind_cons, lookup_pair_app.
  - rewrite filter_cons_False by done. by rewrite (Hall t) by (done || left).
Qed.

End Partition.

(** Splitting the hopping table in two parts that emit different pairs,
    and emitting one part after the other, changes neither the triples nor
    the first energy of any pair. *)
Lemma split_same_triples {A} (emit : A → list (Z * Z * complex))
    (P : A → Prop) `{∀ t, Decision (P t)} (l : list A) :
  (∀ t1 t2 x y w1 w2, t1 ∈ l → t2 ∈ l → P t1 → ¬ P t2 →
     (x, y, w1) ∈ emit t1 → (x, y, w2) ∈ emit t2 → False) →
  same_triples ((filter P l ≫= emit) ++ (filter (λ t, ¬ P t) l ≫= emit))
    (l ≫= emit).
Proof.
  intros Hdis. split.
  - rewrite <- bind_app. apply bind_Permutation, filter_app_complement.
  - intros x y. rewrite lookup_pair_app.
    destruct (lookup_pair x y (filter P l ≫= emit)) as [w|] eqn:Hw.
    + rewrite (lookup_pair_bind_filter emit P x y l); [done|].
      intros t2 Ht2 Hn2.
      destruct (lookup_pair x y (emit t2)) as [w2|] eqn:Hw2; [|done].
      exfalso. apply lookup_pair_Some in Hw, Hw2.
      apply list_elem_of_bind in Hw as (t1 & Hin1 & [Hp1 Ht1]%list_elem_of_filter).
      by apply (Hdis t1 t2 x y w w2).
    + rewrite (lookup_pair_bind_filter emit (λ t, ¬ P t) x y l); [done|].
      intros t1 Ht1 Hp1. apply dec_stable in Hp1.
      rewrite lookup_pair_bind_None in Hw. apply Hw.
      by apply list_elem_of_filter.
Qed.

(** *** The two algorithms *)


Lemma table_ok_terms (s : SuperCell) (t : hop_ind_row * complex) :
  table_ok s → t ∈ pc_terms s →
  0 ≤ h_bra t.1 < num_orb_pc s ∧ 0 ≤ h_ket t.1 < num_orb_pc s.
Proof.
  unfold table_ok, pc_terms. rewrite Forall_forall. intros Hok Ht.
  apply Hok. destruct t as [r e]. by apply elem_of_zip_l in Ht.
Qed.

(** Without vacancies the fast algorithm returns what the general one
    emits for the periodic part, followed by what it emits for the rest. *)
Lemma _init_hop_fast_no_vacancy (s : SuperCell) :
  wf s → table_ok s →
  orb_id_pc s = core.all_id_pc (dim s) (num_orb_pc s)
                  (num_orb_pc s * np_prod (dim s)) →
  vac_id_sc s = None →
  let emit := core.emit_term (dim s) (pbc s) (num_orb_pc s) (orb_id_pc s) None in
  let periodic t := core.is_pbc_term (pbc s) t.1 = true in
  _init_hop_fast s
  = core.unzip3 ((filter periodic (pc_terms s) ≫= emit)
                 ++ (filter (λ t, ¬ periodic t) (pc_terms s) ≫= emit))
  ∧ _init_hop s = core.unzip3 (pc_terms s ≫= emit).
Proof.
  intros [Hd Hn _ _] Hok Horb Hvac emit periodic.
  unfold _init_hop_fast, _init_hop, core.split_pc_hop, core.build_hop_pbc,
    core.build_hop.
  fold (pc_terms s). rewrite !zip_fst_snd, Hvac. fold emit. split; [|done].
  rewrite (Forall_bind_ext _ emit (filter _ (pc_terms s))).
  - unfold core.unzip3. cbn [fst snd]. by rewrite !fmap_app.
  - apply Forall_forall. intros t [Hp Ht]%list_elem_of_filter.
    destruct (table_ok_terms s t Hok Ht) as [Hb Hk].
    subst emit. rewrite Horb. symmetry. by apply emit_term_pbc_eq.
Qed.

Lemma apply_hop_modifier_length (modifier : base.IntraHopping)
    (raw : hop_arrays) :
  length raw.1.2 = length raw.1.1 → length raw.2 = length raw.1.1 →
  length (apply_hop_modifier modifier raw).1.2
  = length (apply_hop_modifier modifier raw).1.1
  ∧ length (apply_hop_modifier modifier raw).2
    = length (apply_hop_modifier modifier raw).1.1.
Proof.
  intros Hj Hv.
  destruct (apply_hop_modifier_indices modifier raw) as (hv & -> & Hl).
  cbn [fst snd]. rewrite !length_app, !length_fmap. lia.
Qed.

(** C2: without vacancies, [get_hop] with the fast algorithm and [get_hop]
    with the general algorithm return arrays whose triples
    [(hop_i[k], hop_j[k], hop_v[k])] are the same up to their order, for
    every hopping modifier. *)
Theorem fast_general_equivalent (s : SuperCell) :
  wf s → table_ok s → vacancy_list s = [] →
  hash_dict s ≠ py_hash (vacancy_list s) ∨ arrays_current s →
  ∃ out_fast out_general,
    get_hop (Some true) s = ((sync_array false s).1, Ok out_fast)
    ∧ get_hop (Some false) s = ((sync_array false s).1, Ok out_general)
    ∧ length out_fast.1.2 = length out_fast.1.1
    ∧ length out_fast.2 = length out_fast.1.1
    ∧ length out_general.1.2 = length out_general.1.1
    ∧ length out_general.2 = length out_general.1.1
    ∧ triples out_fast ≡ₚ triples out_general.
Proof.
  intros Hwf Hok Hvac Hsync.
  rewrite !get_hop_run. set (s' := (sync_array false s).1).
  destruct (sync_array_attrs false s) as (Hv & _ & Hp & Hd & Hpbc & _).
  fold s' in Hv, Hp, Hd, Hpbc.
  assert (Hwf' : wf s') by (by apply (wf_ext s)).
  assert (Hok' : table_ok s').
  { unfold table_ok, pc_hop_ind, num_orb_pc in *. by rewrite Hp. }
  pose proof (sync_array_current s false (or_intror Hsync)) as Hcur.
  fold s' in Hcur. unfold arrays_current in Hcur.
  rewrite Hv, Hvac in Hcur. injection Hcur as _ Hvs Horb.
  destruct (_init_hop_fast_no_vacancy s' Hwf' Hok' Horb Hvs) as [Hfast Hgen].
  exists (hop_of (Some true) s'), (hop_of (Some false) s').
  split; [done|]. split; [done|].
  pose proof (raw_hop_length (Some true) s') as [Hf1 Hf2].
  pose proof (raw_hop_length (Some false) s') as [Hg1 Hg2].
  destruct (apply_hop_modifier_length (hop_modifier s') _ Hf1 Hf2) as [? ?].
  destruct (apply_hop_modifier_length (hop_modifier s') _ Hg1 Hg2) as [? ?].
  unfold hop_of. split_and!; try done.
  apply apply_hop_modifier_Permutation; try done.
  unfold raw_hop. rewrite Hfast, Hgen, !triples_unzip3.
  apply split_same_triples.
  intros t1 t2 x y w1 w2 Ht1 Ht2 Hp1 Hp2. rewrite Horb.
  destruct Hwf' as [Hdims Hn _ _].
  destruct (table_ok_terms s' t1 Hok' Ht1) as [_ Hk1].
  destruct (table_ok_terms s' t2 Hok' Ht2) as [_ Hk2].
  by apply emit_term_disjoint.
Qed.

End Verification.

(** C8, at a failing input: the locked supercell [chain4_locked] holds the
    vacancy [(0, 0, 0, 1)]; [set_vacancies] on it raises the lock error and
    leaves it with an empty vacancy list, so that its number of orbitals
    changes from 7 to 8 although the call failed. *)
Theorem set_vacancies_locked_example :
  is_locked chain4_locked = true
  ∧ vacancy_list chain4_locked = [[0; 0; 0; 1]]
  ∧ (set_vacancies (H := example_hash) [[1; 0; 0; 0]] true false
       chain4_locked).2 = Raise SCLockError
  ∧ vacancy_list
      (set_vacancies (H := example_hash) [[1; 0; 0; 0]] true false
         chain4_locked).1 = []
  ∧ num_orb_sc chain4_locked = 7
  ∧ num_orb_sc
      (set_vacancies (H := example_hash) [[1; 0; 0; 0]] true false
         chain4_locked).1 = 8.
Proof. vm_compute. repeat split; reflexivity. Qed.

Lemma set_vacancies_locked_clears_witness :
  is_locked chain4_locked = true
  ∧ set_vacancies (H := example_hash) [[1; 0; 0; 0]] true false chain4_locked
    = (set_vacancy_list [] chain4_locked, Raise SCLockError)
  ∧ vacancy_list
      (set_vacancies (H := example_hash) [[1; 0; 0; 0]] true false
         chain4_locked).1 = [].
Proof.
  split; [reflexivity|].
  apply (set_vacancies_locked_clears (H := example_hash) chain4_locked).
  reflexivity.
Defined.

(** C7, as it is worded, fails: with a zero cell index and twice the same
    orbital out of range, the range check comes first and the error is the
    range error, not the diagonal one. *)
Lemma add_hopping_diagonal_out_of_range :
  is_locked chain4 = false
  ∧ (add_hopping [0; 0; 0] (-1) (-1) (Complex 1 0)
       chain4).2 = Raise (SCOrbIndexError (-1))
  ∧ (add_hopping [0; 0; 0] (-1) (-1) (Complex 1 0)
       chain4).2 ≠ Raise (SCHopDiagonalError [0; 0; 0] (-1)).
Proof. vm_compute. repeat split; [done]. Qed.

Lemma add_hopping_checks_witness :
  add_hopping [0; 0] 3 3 (Complex 1 0) chain4
  = (chain4, Raise (SCHopDiagonalError [0; 0; 0] 3))
  ∧ add_hopping [0; 0] 8 3 (Complex 1 0) chain4
    = (chain4, Raise (SCOrbIndexError 8)).
Proof.
  split.
  - apply (add_hopping_checks chain4 [0; 0] 3 3
             (Complex 1 0)); reflexivity.
  - apply (add_hopping_checks chain4 [0; 0] 8 3
             (Complex 1 0)); reflexivity.
Defined.

Lemma init_minimal_dimension_witness :
  (∃ i, i ∈ [0; 1; 2] ∧
     SuperCell_init (H := example_hash) chain [0; 1; 1] [false; false; false]
       None None = Raise (SCDimSizeError i (max_abs_rn chain i)))
  ∧ (∃ s, SuperCell_init (H := example_hash) chain [1; 0; 0]
            [false; false; false] None None = Ok s).
Proof.
  split.
  - destruct (proj1 (init_minimal_dimension (H := example_hash) chain
                       [0; 1; 1] [false; false; false] None None
                       ltac:(discriminate) eq_refl)) as (i & Hi & _ & _ & _ & He).
    + exists 0. split; [set_solver | reflexivity].
    + exists i. split; [exact Hi | exact He].
  - destruct (proj2 (init_minimal_dimension (H := example_hash) chain
                       [1; 0; 0] [false; false; false] None None
                       ltac:(discriminate) eq_refl)) as (s & Hs & _).
    + intros i Hi. set_unfold in Hi.
      destruct Hi as [-> | [-> | [-> | []]]]; reflexivity.
    + reflexivity.
    + exists s. exact Hs.
Defined.

Lemma merge_entry_cases_witness :
  merge_hop_entry [1; 3; 5] [2; 4; 6]
    ([Complex 1 0; Complex 1 0; Complex 1 0], ([], [], []))
    (HopInd (Vec3 0 0 0) 4 3, Complex 2 1)
  = ([Complex 1 0; Complex 2 (-1); Complex 1 0], ([], [], [])).
Proof.
  refine (proj1 (proj1 (proj2 (merge_entry_cases (vec := Z) Z.add Z.sub Z.opp
            (λ _ _, 0) [1; 3; 5] [2; 4; 6]
            [Complex 1 0; Complex 1 0; Complex 1 0] ([], [], [])
            (HopInd (Vec3 0 0 0) 4 3, Complex 2 1) chain4 [] [] [] 0 0))
            _ 1%nat _)).
  - intros [|[|[|m]]] [H1 H2]; simpl in *; discriminate.
  - split; [split; reflexivity|].
    intros [|m] Hm [H1 H2]; [discriminate | lia].
Defined.

(** C9, as it is worded, fails for [add_vacancies]: the second element of
    the batch is out of range, the call raises, and the first element has
    been committed to the vacancy list all the same. *)
Lemma add_vacancies_partial_commit :
  is_locked chain4 = false ∧ vacancy_list chain4 = []
  ∧ (add_vacancies (H := example_hash) [[0; 0; 0; 0]; [9; 0; 0; 0]] true false
       chain4).2 = Raise (VacIDPCIndexError 0 [9; 0; 0; 0])
  ∧ vacancy_list
      (add_vacancies (H := example_hash) [[0; 0; 0; 0]; [9; 0; 0; 0]] true
         false chain4).1 = [[0; 0; 0; 0]].
Proof. vm_compute. done. Qed.

Lemma batch_first_offender_witness :
  add_vacancies (H := example_hash) ([[0; 0; 0; 0]] ++ [9; 0; 0; 0] :: [])
    true false chain4
  = (set_vacancy_list [[0; 0; 0; 0]] chain4,
     Raise (VacIDPCIndexError 0 [9; 0; 0; 0]))
  ∧ orb_id_sc2pc_array (H := example_hash) [0; 8; 9] chain4
    = ((sync_array (H := example_hash) false chain4).1,
       Raise (IDSCIndexError 8)).
Proof.
  split.
  - apply (proj1 (batch_first_offender (H := example_hash) chain4 false true)
             [[0; 0; 0; 0]] [9; 0; 0; 0] [] (IDPCIndexError 0 [9; 0; 0; 0]));
      [reflexivity | | reflexivity].
    apply Forall_cons. split; [reflexivity | apply Forall_nil_2].
  - apply (proj1 (proj2 (batch_first_offender (H := example_hash) chain4
                           false true)) [0; 8; 9] 1%nat).
    reflexivity.
Defined.

Lemma chain4_wf : wf chain4.
Proof.
  apply (SuperCell_init_wf (H := example_hash) chain [4; 1; 1]
           [false; false; false] None None); [done|reflexivity].
Qed.

Lemma compaction_consistency_witness :
  let s' := (sync_array (H := example_hash) true chain4_vac).1 in
  Z.of_nat (length (orb_id_pc s')) + Z.of_nat (length (vacancy_list s'))
  = num_orb_pc s' * np_prod (dim s')
  ∧ ∃ p, orb_id_sc2pc (H := example_hash) 4 s' = (s', Ok p)
         ∧ orb_id_pc2sc (H := example_hash) p s' = (s', Ok 4).
Proof.
  destruct (compaction_consistency (H := example_hash) chain4_vac true)
    as [Hlen Hround].
  - split.
    + vm_compute. repeat split; discriminate.
    + vm_compute. discriminate.
    + repeat (constructor; try (vm_compute; repeat split; done)).
    + apply (bool_decide_unpack _). by vm_compute.
  - by left.
  - split; [exact Hlen|]. apply Hround. vm_compute.
    split; [discriminate | reflexivity].
Defined.

Lemma chain4_init :
  SuperCell_init (H := example_hash) chain [4; 1; 1] [false; false; false]
    None None = Ok chain4.
Proof. vm_compute. reflexivity. Qed.

Lemma ring2_init :
  SuperCell_init (H := example_hash) site [2; 1; 1] [true; false; false]
    None None = Ok ring2.
Proof. vm_compute. reflexivity. Qed.

Lemma fast_general_equivalent_witness :
  ∃ out_fast out_general,
    (get_hop (H := example_hash) (Some true) ladder32).2 = Ok out_fast
    ∧ (get_hop (H := example_hash) (Some false) ladder32).2 = Ok out_general
    ∧ triples out_fast ≡ₚ triples out_general.
Proof.
  destruct (fast_general_equivalent (H := example_hash) ladder32)
    as (out_fast & out_general & Hf & Hg & _ & _ & _ & _ & Hperm).
  - split.
    + vm_compute. repeat split; discriminate.
    + vm_compute. discriminate.
    + constructor.
    + constructor.
  - repeat (constructor; try (vm_compute; repeat split; done)).
  - reflexivity.
  - right. vm_compute. reflexivity.
  - exists out_fast, out_general. rewrite Hf, Hg. done.
Defined.

(** ** Further properties

    *** Vacancies *)

Lemma set_vacancy_list_id (s : SuperCell) : set_vacancy_list (vacancy_list s) s = s.
Proof. by destruct s. Qed.

Lemma foldl_append_new_spec (vs l : list id_pc_type) :
  ∃ added, foldl append_new l vs = l ++ added ∧ NoDup added
           ∧ ∀ v, v ∈ added ↔ v ∈ vs ∧ v ∉ l.
Proof.
  revert l. induction vs as [|v vs IH]; intros l.
  - exists []. rewrite app_nil_r. split_and!; [done|constructor|].
    intros v. rewrite !elem_of_nil. tauto.
  - cbn [foldl]. destruct (IH (append_new l v)) as (added & Heq & Hnd & Hin).
    unfold append_new in *. destruct (decide (v ∈ l)) as [Hv|Hv].
    + exists added. split_and!; [done..|]. intros w.
      rewrite Hin, elem_of_cons. intuition congruence.
    + exists (v :: added). rewrite Heq, <- app_assoc. split_and!; [done| |].
      * constructor; [|done]. rewrite Hin, elem_of_app, list_elem_of_singleton.
        tauto.
      * intros w. rewrite !elem_of_cons, Hin, elem_of_app, list_elem_of_singleton.
        destruct (decide (w = v)); intuition congruence.
Qed.

Lemma foldl_append_new_absorb (vs l : list id_pc_type) :
  Forall (λ v, v ∈ l) vs → foldl append_new l vs = l.
Proof.
  induction 1 as [|v vs Hv _ IH]; [done|]. cbn [foldl].
  unfold append_new at 2. by rewrite decide_True.
Qed.

Lemma foldl_append_new_NoDup (vs l : list id_pc_type) :
  NoDup (l ++ vs) → foldl append_new l vs = l ++ vs.
Proof.
  revert l. induction vs as [|v vs IH]; intros l Hl.
  - by rewrite app_nil_r.
  - cbn [foldl]. unfold append_new at 2. rewrite decide_False.
    + rewrite IH; rewrite <- app_assoc; done.
    + apply NoDup_app in Hl as (_ & Hl & _). intros Hv. apply (Hl v Hv).
      by left.
Qed.

Section VacancyRuns.
Context `{PyHash}.

Lemma add_vacancies_loop_ok (vs : list id_pc_type) (s : SuperCell) :
  Forall (λ p, id_pc_error s p = None) vs →
  for_each vs add_vacancies_body s
  = (set_vacancy_list (foldl append_new (vacancy_list s) vs) s, Ok tt).
Proof.
  revert s. induction vs as [|v vs IH]; intros s Hall.
  - cbn. by rewrite set_vacancy_list_id.
  - inversion Hall as [|?? Hv Hvs]; subst. cbn [for_each foldl].
    unfold bind. rewrite add_vacancies_body_run, Hv. rewrite IH; [done|].
    eapply Forall_impl; [exact Hvs|]. intros p Hp.
    by rewrite id_pc_error_set_vacancy_list.
Qed.

(** The outcome of the loop of [add_vacancies]: every element passes, or
    there is a first one that does not. *)
Lemma vacancies_split (s : SuperCell) (vs : list id_pc_type) :
  Forall (λ p, id_pc_error s p = None) vs
  ∨ ∃ good bad rest e, vs = good ++ bad :: rest
      ∧ Forall (λ p, id_pc_error s p = None) good
      ∧ id_pc_error s bad = Some e.
Proof.
  induction vs as [|v vs IH]; [by left|].
  destruct (id_pc_error s v) as [e|] eqn:Hv.
  - right. exists [], v, vs, e. by split_and!.
  - destruct IH as [Hall|(good & bad & rest & e & -> & Hg & Hb)].
    + left. by constructor.
    + right. exists (v :: good), bad, rest, e. split_and!; [done| |done].
      by constructor.
Qed.

Lemma add_vacancies_run_ok (vs : list id_pc_type) (do_sync force : bool)
    (s : SuperCell) :
  is_locked s = false →
  Forall (λ p, id_pc_error s p = None) vs →
  add_vacancies vs do_sync force s
  = let s1 := set_vacancy_list (foldl append_new (vacancy_list s) vs) s in
    if do_sync then sync_array force s1 else (s1, Ok tt).
Proof.
  intros Hl Hall. unfold add_vacancies, bind.
  rewrite check_lock_unlocked by done. rewrite add_vacancies_loop_ok by done.
  by destruct do_sync.
Qed.

Lemma add_vacancies_run_bad (good : list id_pc_type) (bad : id_pc_type)
    (rest : list id_pc_type) (e : exc) (do_sync force : bool) (s : SuperCell) :
  is_locked s = false →
  Forall (λ p, id_pc_error s p = None) good →
  id_pc_error s bad = Some e →
  add_vacancies (good ++ bad :: rest) do_sync force s
  = (set_vacancy_list (foldl append_new (vacancy_list s) good) s,
     Raise (to_vacancy_error e)).
Proof.
  intros Hl Hg Hb. unfold add_vacancies, bind.
  rewrite check_lock_unlocked by done.
  by rewrite (add_vacancies_loop_bad good bad rest e s Hg Hb).
Qed.

End VacancyRuns.

Section VacancyFacts.
Context `{PyHash}.

Lemma valid_Forall_error (s : SuperCell) (vs : list id_pc_type) :
  Forall (valid_id_pc (dim s) (num_orb_pc s)) vs
  ↔ Forall (λ p, id_pc_error s p = None) vs.
Proof. apply Forall_iff. intros p. symmetry. apply id_pc_error_None. Qed.

Lemma add_vacancies_result (vs : list id_pc_type) (do_sync force : bool)
    (s : SuperCell) :
  (add_vacancies vs do_sync force s).2 = Ok tt
  ↔ is_locked s = false ∧ Forall (valid_id_pc (dim s) (num_orb_pc s)) vs.
Proof.
  split.
  - intros Hok. destruct (is_locked s) eqn:Hl.
    { destruct (locked_mutators_keep_state s Hl) as (_ & Hadd & _).
      by rewrite Hadd in Hok. }
    split; [done|]. apply valid_Forall_error.
    destruct (vacancies_split s vs) as [Hall|(g & b & r & e & -> & Hg & Hb)];
      [done|].
    by rewrite (add_vacancies_run_bad g b r e do_sync force s Hl Hg Hb) in Hok.
  - intros [Hl Hall%valid_Forall_error].
    rewrite add_vacancies_run_ok by done. destruct do_sync; [|done].
    apply sync_array_ok.
Qed.

Lemma add_vacancies_appends (s : SuperCell) (vacancies : list id_pc_type)
    (do_sync force : bool) :
  is_locked s = false →
  Forall (valid_id_pc (dim s) (num_orb_pc s)) vacancies →
  ∃ added,
    vacancy_list (add_vacancies vacancies do_sync force s).1
    = vacancy_list s ++ added
    ∧ NoDup added
    ∧ (∀ v, v ∈ added ↔ v ∈ vacancies ∧ v ∉ vacancy_list s).
Proof.
  intros Hl Hall.
  destruct (foldl_append_new_spec vacancies (vacancy_list s))
    as (added & Heq & Hnd & Hin).
  exists added. split_and!; [|done..].
  rewrite add_vacancies_run_ok; [|done|by apply valid_Forall_error].
  cbv zeta. destruct do_sync; [|done].
  pose proof (sync_array_attrs force
    (set_vacancy_list (foldl append_new (vacancy_list s) vacancies) s))
    as (Hv & _).
  by rewrite Hv.
Qed.

(** X6: on an unlocked object [add_vacancies] with valid indices returns;
    the vacancy list grows at its end by the given indices that were not in
    it, each once, and [num_orb_sc] drops by their number. *)
Theorem add_vacancies_valid (s : SuperCell) (vacancies : list id_pc_type)
    (do_sync force : bool) :
  is_locked s = false →
  Forall (valid_id_pc (dim s) (num_orb_pc s)) vacancies →
  let r := add_vacancies vacancies do_sync force s in
  r.2 = Ok tt
  ∧ ∃ added, vacancy_list r.1 = vacancy_list s ++ added ∧ NoDup added
      ∧ (∀ v, v ∈ added ↔ v ∈ vacancies ∧ v ∉ vacancy_list s)
      ∧ num_orb_sc r.1 = num_orb_sc s - Z.of_nat (length added).
Proof.
  intros Hl Hall r. split; [by apply add_vacancies_result|].
  destruct (add_vacancies_appends s vacancies do_sync force Hl Hall)
    as (added & Hv & Hnd & Hin).
  fold r in Hv. exists added.
  assert (dim r.1 = dim s ∧ prim_cell r.1 = prim_cell s) as (Hd & Hp).
  { subst r. rewrite add_vacancies_run_ok; [|done|by apply valid_Forall_error].
    cbv zeta. destruct do_sync; [|done].
    pose proof (sync_array_attrs force
      (set_vacancy_list (foldl append_new (vacancy_list s) vacancies) s))
      as (_ & _ & Hp & Hd & _).
    by rewrite Hd, Hp. }
  split_and!; [done..|].
  unfold num_orb_sc, num_orb_pc. rewrite Hv, Hd, Hp, length_app. lia.
Qed.

(** X7: [add_vacancies] is idempotent: after a call that returned, the same
    call again leaves the vacancy list as it is and does nothing but the
    synchronisation it was asked for. *)
Theorem add_vacancies_again (s : SuperCell) (vacancies : list id_pc_type)
    (do_sync force do_sync' force' : bool) :
  (add_vacancies vacancies do_sync force s).2 = Ok tt →
  let s1 := (add_vacancies vacancies do_sync force s).1 in
  add_vacancies vacancies do_sync' force' s1
  = (if do_sync' then sync_array force' s1 else (s1, Ok tt))
  ∧ vacancy_list (add_vacancies vacancies do_sync' force' s1).1
    = vacancy_list s1.
Proof.
  intros [Hl Hall]%add_vacancies_result s1.
  destruct (add_vacancies_appends s vacancies do_sync force Hl Hall)
    as (added & Hv & _ & Hin). fold s1 in Hv.
  assert (is_locked s1 = false ∧ dim s1 = dim s ∧ prim_cell s1 = prim_cell s)
    as (Hl1 & Hd & Hp).
  { subst s1. rewrite add_vacancies_run_ok; [|done|by apply valid_Forall_error].
    cbv zeta. destruct do_sync; [|done].
    pose proof (sync_array_attrs force
      (set_vacancy_list (foldl append_new (vacancy_list s) vacancies) s))
      as (_ & Hl' & Hp & Hd & _). by rewrite Hl', Hd, Hp. }
  assert (Forall (λ v, v ∈ vacancy_list s1) vacancies) as Hmem.
  { apply Forall_forall. intros v Hv'. rewrite Hv, elem_of_app, Hin.
    destruct (decide (v ∈ vacancy_list s)); tauto. }
  assert (add_vacancies vacancies do_sync' force' s1
          = (if do_sync' then sync_array force' s1 else (s1, Ok tt))) as Hrun.
  { rewrite add_vacancies_run_ok; [|done|].
    - cbv zeta. by rewrite foldl_append_new_absorb, set_vacancy_list_id.
    - apply valid_Forall_error. unfold num_orb_pc. by rewrite Hd, Hp. }
  split; [done|]. rewrite Hrun. destruct do_sync'; [|done].
  by destruct (sync_array_attrs force' s1) as (-> & _).
Qed.

Lemma set_vacancies_NoDup (s : SuperCell) (vacancies : list id_pc_type)
    (do_sync force : bool) :
  is_locked s = false →
  Forall (valid_id_pc (dim s) (num_orb_pc s)) vacancies →
  NoDup vacancies →
  (set_vacancies vacancies do_sync force s).2 = Ok tt
  ∧ vacancy_list (set_vacancies vacancies do_sync force s).1 = vacancies.
Proof.
  intros Hl Hall Hnd.
  change (set_vacancies vacancies do_sync force s)
    with (add_vacancies vacancies do_sync force (set_vacancy_list [] s)).
  split; [by apply add_vacancies_result|].
  rewrite add_vacancies_run_ok; [|done|by apply valid_Forall_error].
  cbv zeta. cbn [vacancy_list set_vacancy_list].
  rewrite (foldl_append_new_NoDup vacancies []) by done. cbn [app].
  destruct do_sync; [|done].
  by destruct (sync_array_attrs force (set_vacancy_list vacancies
                                         (set_vacancy_list [] s))) as (-> & _).
Qed.

(** X8: on an unlocked object [set_vacancies] with valid indices returns and
    the vacancy list holds the given indices and nothing else, whatever it
    held before, without duplicates; it is the given list itself when that
    has no duplicates. *)
Theorem set_vacancies_valid (s : SuperCell) (vacancies : list id_pc_type)
    (do_sync force : bool) :
  is_locked s = false →
  Forall (valid_id_pc (dim s) (num_orb_pc s)) vacancies →
  let r := set_vacancies vacancies do_sync force s in
  r.2 = Ok tt
  ∧ NoDup (vacancy_list r.1)
  ∧ (∀ v, v ∈ vacancy_list r.1 ↔ v ∈ vacancies)
  ∧ (NoDup vacancies → vacancy_list r.1 = vacancies).
Proof.
  intros Hl Hall. cbv zeta.
  split_and!; [| | |by apply set_vacancies_NoDup].
  all: change (set_vacancies vacancies do_sync force s)
         with (add_vacancies vacancies do_sync force (set_vacancy_list [] s)).
  1: by apply add_vacancies_result.
  all: destruct (add_vacancies_appends (set_vacancy_list [] s) vacancies
                   do_sync force Hl Hall) as (added & Hv & Hnd & Hin);
       cbn [vacancy_list set_vacancy_list] in Hv, Hin;
       rewrite app_nil_l in Hv; rewrite Hv.
  - done.
  - intros v. rewrite Hin, elem_of_nil. tauto.
Qed.

(** X9: a [set_vacancies] on an unlocked object that fails on an invalid
    index has replaced the vacancy list all the same: the list then holds
    the valid indices given before the offending one, and the other
    attributes, the derived arrays among them, are untouched. *)
Theorem set_vacancies_invalid (s : SuperCell) (good : list id_pc_type)
    (bad : id_pc_type) (rest : list id_pc_type) (e : exc)
    (do_sync force : bool) :
  is_locked s = false →
  Forall (valid_id_pc (dim s) (num_orb_pc s)) good →
  id_pc_error s bad = Some e →
  let r := set_vacancies (good ++ bad :: rest) do_sync force s in
  r = (set_vacancy_list (vacancy_list r.1) s, Raise (to_vacancy_error e))
  ∧ NoDup (vacancy_list r.1)
  ∧ (∀ v, v ∈ vacancy_list r.1 ↔ v ∈ good).
Proof.
  intros Hl Hg Hb r.
  assert (r = (set_vacancy_list (foldl append_new [] good) s,
               Raise (to_vacancy_error e))) as Hr.
  { subst r. unfold set_vacancies, bind, modify.
    rewrite (add_vacancies_run_bad good bad rest e); try done.
    by apply valid_Forall_error. }
  rewrite Hr. cbn [fst vacancy_list set_vacancy_list].
  destruct (foldl_append_new_spec good []) as (added & Heq & Hnd & Hin).
  rewrite Heq. cbn. split_and!; [done..|].
  intros v. rewrite Hin, elem_of_nil. tauto.
Qed.

End VacancyFacts.

(** *** Queries *)

Section QueryStates.
Context `{PyHash}.

(** Splits the call of [sync_array] a query starts with. *)
Ltac sync_step s s' E :=
  let Hok := fresh in
  pose proof (sync_array_ok false s) as Hok;
  destruct (sync_array false s) as [s' [[]|?]] eqn:E; [clear Hok|done].

Lemma sync_array_fixed (force : bool) (s : SuperCell) :
  sync_array false (sync_array force s).1 = ((sync_array force s).1, Ok tt).
Proof. apply sync_array_idem. Qed.

Lemma orb_id_sc2pc_state (i : Z) (s : SuperCell) :
  (orb_id_sc2pc i s).1 = (sync_array false s).1.
Proof.
  unfold orb_id_sc2pc, bind. sync_step s s' E. cbn.
  repeat case_match; done.
Qed.

Lemma orb_id_pc2sc_state (p : id_pc_type) (s : SuperCell) :
  (orb_id_pc2sc p s).1 = (sync_array false s).1.
Proof.
  unfold orb_id_pc2sc, bind. sync_step s s' E.
  rewrite _check_id_pc_run. cbn [fst]. destruct (id_pc_error s' p); [done|].
  unfold get. repeat case_match; done.
Qed.

Lemma orb_id_sc2pc_array_state (ids : list Z) (s : SuperCell) :
  (orb_id_sc2pc_array ids s).1 = (sync_array false s).1.
Proof.
  unfold orb_id_sc2pc_array, bind. sync_step s s' E. unfold get.
  repeat case_match; done.
Qed.

Lemma orb_id_pc2sc_array_state (ncols : nat) (ps : list id_pc_type)
    (s : SuperCell) :
  (orb_id_pc2sc_array ncols ps s).1 = (sync_array false s).1.
Proof.
  unfold orb_id_pc2sc_array, bind. sync_step s s' E. unfold get.
  repeat case_match; done.
Qed.

Lemma get_hop_state (use_fast : option bool) (s : SuperCell) :
  (get_hop use_fast s).1 = (sync_array false s).1.
Proof. by rewrite get_hop_run. Qed.

Lemma get_orb_pos_state {vec} (build_orb_pos : SuperCell → list vec)
    (s : SuperCell) :
  get_orb_pos build_orb_pos s
  = ((sync_array false s).1, Ok (build_orb_pos (sync_array false s).1)).
Proof. unfold get_orb_pos, bind. sync_step s s' E. done. Qed.

Lemma get_dr_state {vec} (vadd vsub : vec → vec → vec) (vneg : vec → vec)
    (matmul_sc_lat_vec : SuperCell → vec3 → vec)
    (build_orb_pos : SuperCell → list vec)
    (_init_dr : bool → SuperCell → list vec → list vec)
    (use_fast : option bool) (s : SuperCell) :
  (get_dr vadd vsub vneg matmul_sc_lat_vec build_orb_pos _init_dr use_fast s).1
  = (sync_array false s).1.
Proof.
  unfold get_dr, bind. pose proof (sync_array_fixed false s) as Hfix.
  sync_step s s' E. cbn [fst] in Hfix. rewrite get_orb_pos_state, Hfix.
  cbn [fst]. unfold get, ret, raise. repeat case_match; done.
Qed.

End QueryStates.

(** *** Sequences of calls *)

Section Invariant.
Context `{PyHash}.

Lemma wf_sync_array (force : bool) (s : SuperCell) :
  wf s → wf (sync_array force s).1.
Proof.
  destruct (sync_array_attrs force s) as (Hv & _ & Hp & Hd & _).
  by apply wf_ext.
Qed.

Lemma trim_run (s : SuperCell) :
  is_locked s = false →
  let s1 := (sync_array false s).1 in
  let hop := hop_of None s1 in
  let id_pc_trim := core.get_orb_id_trim (orb_id_pc s1) hop.1.1 hop.1.2 in
  trim s
  = match orb_id_pc2sc_array 4 id_pc_trim s1 with
    | (s2, Ok id_sc_trim) =>
        match add_vacancies id_pc_trim true false s2 with
        | (s3, Ok _) =>
            (set_hop_modifier
               (base.remove_orbitals (hop_modifier s3) id_sc_trim) s3, Ok tt)
        | (s3, Raise e) => (s3, Raise e)
        end
    | (s2, Raise e) => (s2, Raise e)
    end.
Proof.
  intros Hl. cbv zeta. unfold trim, bind, get. rewrite Hl.
  rewrite get_hop_run. cbv beta iota. repeat case_match; done.
Qed.

Lemma wf_trim (s : SuperCell) : wf s → wf (trim s).1.
Proof.
  intros Hwf. destruct (is_locked s) eqn:Hl.
  { destruct (locked_mutators_keep_state s Hl) as (_ & _ & _ & _ & ->). done. }
  rewrite trim_run by done. cbv zeta.
  set (s1 := (sync_array false s).1).
  set (tr := core.get_orb_id_trim _ _ _).
  pose proof (orb_id_pc2sc_array_state 4 tr s1) as Hs2.
  destruct (orb_id_pc2sc_array 4 tr s1) as [s2 [ids|e]]; cbn [fst] in Hs2.
  - pose proof (add_vacancies_wf tr true false s2) as Hs3.
    destruct (add_vacancies tr true false s2) as [s3 [[]|e]]; cbn [fst] in *.
    + apply (wf_ext s3); [done..|]. apply Hs3.
      subst s2 s1. by do 2 apply wf_sync_array.
    + apply Hs3. subst s2 s1. by do 2 apply wf_sync_array.
  - subst s2 s1. by do 2 apply wf_sync_array.
Qed.

Lemma wf_add_hopping (rn : list Z) (i j : Z) (e : complex) (s : SuperCell) :
  wf s → wf (add_hopping rn i j e s).1.
Proof.
  intros Hwf. unfold add_hopping, bind, check_lock, get, raise, modify.
  destruct (is_locked s); [done|]. destruct (base.check_rn rn 0) as [rn' legal].
  repeat case_match; simplify_eq; cbn [fst]; first [done|by apply (wf_ext s)].
Qed.

Lemma wf_state_after (m : method) (s : SuperCell) :
  wf s → wf (state_after m s).
Proof.
  intros Hwf. destruct m; cbn [state_after].
  - by apply add_vacancies_wf.
  - by apply add_vacancies_wf.
  - by apply set_vacancies_wf.
  - by apply wf_sync_array.
  - rewrite orb_id_sc2pc_state. by apply wf_sync_array.
  - rewrite orb_id_pc2sc_state. by apply wf_sync_array.
  - rewrite orb_id_sc2pc_array_state. by apply wf_sync_array.
  - rewrite orb_id_pc2sc_array_state. by apply wf_sync_array.
  - by apply (wf_ext s).
  - by apply wf_add_hopping.
  - unfold set_orb_pos_modifier, bind, check_lock, modify.
    destruct (is_locked s); [done|]. by apply (wf_ext s).
  - rewrite get_hop_state. by apply wf_sync_array.
  - by apply wf_trim.
Qed.

(** X2: after any sequence of method calls on a constructed supercell,
    whether they return or raise, every entry of [vacancy_list] is a valid
    index, no entry occurs twice, and [num_orb_sc] lies between 0 and
    [num_orb_pc * prod(dim)]. *)
Theorem calls_keep_vacancies_valid (pc : PrimitiveCell) (dims : list Z)
    (pbc : list bool) (vacancies : option (list id_pc_type))
    (modifier : option callable) (s : SuperCell) (calls : list method) :
  0 ≤ num_orb pc →
  SuperCell_init pc dims pbc vacancies modifier = Ok s →
  let s' := state_after_calls calls s in
  Forall (valid_id_pc (dim s') (num_orb_pc s')) (vacancy_list s')
  ∧ NoDup (vacancy_list s')
  ∧ 0 ≤ num_orb_sc s' ≤ num_orb_pc s' * np_prod (dim s').
Proof.
  intros Hn Hinit s'.
  assert (wf s') as Hwf.
  { subst s'. pose proof (SuperCell_init_wf _ _ _ _ _ _ Hn Hinit) as Hwf.
    clear Hinit. revert s Hwf. unfold state_after_calls.
    induction calls as [|m calls IH]; intros s Hwf; [done|].
    cbn [foldl]. by apply IH, wf_state_after. }
  destruct Hwf as [Hd Hno Hv Hnd]. split_and!; [done..| |].
  - pose proof (build_orb_id_pc_length (dim s') (num_orb_pc s') Hno Hd
      (vacancy_list s') (vacancy_list s')
      (core._id_pc2sc (dim s') (num_orb_pc s') <$> vacancy_list s')
      Hv Hnd (reflexivity _) (reflexivity _)) as Hlen.
    unfold num_orb_sc. lia.
  - unfold num_orb_sc. lia.
Qed.

End Invariant.

Section Frames.
Context `{PyHash}.

(** The attributes no method assigns after the constructor. *)
Lemma add_vacancies_shape (vs : list id_pc_type) (do_sync force : bool)
    (s : SuperCell) :
  ∃ l, (add_vacancies vs do_sync force s).1 = set_vacancy_list l s
       ∨ (add_vacancies vs do_sync force s).1
         = (sync_array force (set_vacancy_list l s)).1.
Proof.
  destruct (is_locked s) eqn:Hl.
  { destruct (locked_mutators_keep_state s Hl) as (_ & -> & _).
    exists (vacancy_list s). left. by rewrite set_vacancy_list_id. }
  destruct (vacancies_split s vs) as [Hall|(g & b & r & e & -> & Hg & Hb)].
  - rewrite add_vacancies_run_ok by done. cbv zeta.
    eexists. destruct do_sync; [by right|by left].
  - rewrite (add_vacancies_run_bad g b r e) by done. eexists. by left.
Qed.

Lemma add_vacancies_frame (vs : list id_pc_type) (do_sync force : bool)
    (s : SuperCell) :
  let s' := (add_vacancies vs do_sync force s).1 in
  is_locked s' = is_locked s ∧ prim_cell s' = prim_cell s ∧ dim s' = dim s
  ∧ pbc s' = pbc s ∧ hop_modifier s' = hop_modifier s
  ∧ orb_pos_modifier s' = orb_pos_modifier s.
Proof.
  cbv zeta. destruct (add_vacancies_shape vs do_sync force s) as [l [-> | ->]];
    [done|].
  by destruct (sync_array_attrs force (set_vacancy_list l s))
    as (_ & -> & -> & -> & -> & -> & -> & _).
Qed.

Lemma sync_array_frame (force : bool) (s : SuperCell) :
  let s' := (sync_array force s).1 in
  is_locked s' = is_locked s ∧ prim_cell s' = prim_cell s ∧ dim s' = dim s
  ∧ pbc s' = pbc s ∧ hop_modifier s' = hop_modifier s
  ∧ orb_pos_modifier s' = orb_pos_modifier s.
Proof.
  cbv zeta.
  by destruct (sync_array_attrs force s) as (_ & -> & -> & -> & -> & -> & -> & _).
Qed.

Lemma add_hopping_frame (rn : list Z) (i j : Z) (e : complex) (s : SuperCell) :
  let s' := (add_hopping rn i j e s).1 in
  is_locked s' = is_locked s ∧ prim_cell s' = prim_cell s ∧ dim s' = dim s
  ∧ pbc s' = pbc s ∧ vacancy_list s' = vacancy_list s
  ∧ orb_pos_modifier s' = orb_pos_modifier s.
Proof.
  cbv zeta. unfold add_hopping, bind, check_lock, get, raise, modify.
  destruct (is_locked s) eqn:Hl; [done|].
  destruct (base.check_rn rn 0) as [rn' legal].
  repeat case_match; simplify_eq; cbn; done.
Qed.

Lemma trim_frame (s : SuperCell) :
  let s' := (trim s).1 in
  is_locked s' = is_locked s ∧ prim_cell s' = prim_cell s ∧ dim s' = dim s
  ∧ pbc s' = pbc s ∧ orb_pos_modifier s' = orb_pos_modifier s.
Proof.
  cbv zeta. destruct (is_locked s) eqn:Hl.
  { destruct (locked_mutators_keep_state s Hl) as (_ & _ & _ & _ & ->). done. }
  rewrite trim_run by done. cbv zeta.
  set (s1 := (sync_array false s).1).
  set (tr := core.get_orb_id_trim _ _ _).
  pose proof (orb_id_pc2sc_array_state 4 tr s1) as Hs2.
  pose proof (sync_array_frame false s) as (F1 & F2 & F3 & F4 & F5 & F6).
  pose proof (sync_array_frame false s1) as (G1 & G2 & G3 & G4 & G5 & G6).
  fold s1 in F1, F2, F3, F4, F5, F6.
  destruct (orb_id_pc2sc_array 4 tr s1) as [s2 [ids|e]]; cbn [fst] in Hs2;
    subst s2.
  - pose proof (add_vacancies_frame tr true false (sync_array false s1).1)
      as (A1 & A2 & A3 & A4 & A5 & A6).
    destruct (add_vacancies tr true false _) as [s3 [[]|e]];
      cbn [fst is_locked prim_cell dim pbc orb_pos_modifier set_hop_modifier]
        in *;
      split_and!; congruence.
  - cbn [fst]. split_and!; congruence.
Qed.

Lemma state_after_geometry (m : method) (s : SuperCell) :
  let s' := state_after m s in
  prim_cell s' = prim_cell s ∧ dim s' = dim s ∧ pbc s' = pbc s
  ∧ orb_pos_modifier s'
    = match m with
      | call_set_orb_pos_modifier f =>
          if is_locked s then orb_pos_modifier s else f
      | _ => orb_pos_modifier s
      end
  ∧ is_locked s'
    = match m with call_lock => true | _ => is_locked s end.
Proof.
  cbv zeta.
  pose proof (sync_array_frame false s) as (F1 & F2 & F3 & F4 & F5 & F6).
  destruct m; cbn [state_after];
    rewrite ?orb_id_sc2pc_state, ?orb_id_pc2sc_state, ?orb_id_sc2pc_array_state,
      ?orb_id_pc2sc_array_state, ?get_hop_state; try done.
  - by destruct (add_vacancies_frame [vacancy] do_sync force_sync s)
      as (? & ? & ? & ? & ? & ?).
  - by destruct (add_vacancies_frame vacancies do_sync force_sync s)
      as (? & ? & ? & ? & ? & ?).
  - by destruct (add_vacancies_frame vacancies do_sync force_sync
                   (set_vacancy_list [] s)) as (? & ? & ? & ? & ? & ?).
  - by destruct (sync_array_frame force_sync s) as (? & ? & ? & ? & ? & ?).
  - by destruct (add_hopping_frame rn orb_i orb_j energy s)
      as (? & ? & ? & ? & ? & ?).
  - unfold set_orb_pos_modifier, bind, check_lock, modify.
    destruct s as [[] ? ? ? ? ? ? ? ? ? ?]; cbn; done.
  - by destruct (trim_frame s) as (? & ? & ? & ? & ?).
Qed.

(** X3: no sequence of method calls changes the primitive cell, the
    dimension or the periodicity of a supercell, and the object is locked
    afterwards exactly when it was locked before or [lock] is among the
    calls. *)
Theorem calls_keep_geometry (calls : list method) (s : SuperCell) :
  let s' := state_after_calls calls s in
  prim_cell s' = prim_cell s ∧ dim s' = dim s ∧ pbc s' = pbc s
  ∧ (is_locked s' = true ↔ is_locked s = true ∨ call_lock ∈ calls).
Proof.
  cbv zeta. revert s. unfold state_after_calls.
  induction calls as [|m calls IH]; intros s.
  - cbn. split_and!; [done..|]. rewrite elem_of_nil. tauto.
  - cbn [foldl]. destruct (IH (state_after m s)) as (-> & -> & -> & ->).
    destruct (state_after_geometry m s) as (-> & -> & -> & _ & ->).
    split_and!; [done..|]. rewrite elem_of_cons.
    destruct m; intuition congruence.
Qed.

Lemma locked_state_after (m : method) (s : SuperCell) :
  is_locked s = true →
  let s' := state_after m s in
  is_locked s' = true ∧ hop_modifier s' = hop_modifier s
  ∧ orb_pos_modifier s' = orb_pos_modifier s
  ∧ (vacancy_list s' = vacancy_list s
     ∨ vacancy_list s' = [] ∧ ∃ vs sy f, m = call_set_vacancies vs sy f).
Proof.
  intros Hl. cbv zeta.
  destruct (locked_mutators_keep_state s Hl) as (L1 & L2 & L3 & L4 & L5).
  pose proof (sync_array_attrs false s) as (F0 & F1 & _ & _ & _ & F5 & F6 & _).
  destruct m; cbn [state_after];
    rewrite ?orb_id_sc2pc_state, ?orb_id_pc2sc_state, ?orb_id_sc2pc_array_state,
      ?orb_id_pc2sc_array_state, ?get_hop_state, ?L1, ?L2, ?L3, ?L4, ?L5;
    cbn [fst]; rewrite ?F0, ?F1, ?F5, ?F6; try (split_and!; by auto).
  - unfold set_vacancies, bind, modify.
    destruct (locked_mutators_keep_state (set_vacancy_list [] s) Hl)
      as (_ & -> & _). cbn. split_and!; [done..|]. right. eauto.
  - destruct (sync_array_attrs force_sync s)
      as (-> & -> & _ & _ & _ & -> & -> & _). split_and!; by auto.
Qed.

(** X4: whatever is called on a locked supercell, it stays locked and keeps
    its hopping modifier and its position modifier; its vacancy list is the
    one it had, or it is empty and [set_vacancies] is among the calls. *)
Theorem locked_calls_frame (calls : list method) (s : SuperCell) :
  is_locked s = true →
  let s' := state_after_calls calls s in
  is_locked s' = true ∧ hop_modifier s' = hop_modifier s
  ∧ orb_pos_modifier s' = orb_pos_modifier s
  ∧ (vacancy_list s' = vacancy_list s
     ∨ vacancy_list s' = []
       ∧ ∃ vs sy f, call_set_vacancies vs sy f ∈ calls).
Proof.
  cbv zeta. revert s. unfold state_after_calls.
  induction calls as [|m calls IH]; intros s Hl; [by auto|].
  cbn [foldl].
  destruct (locked_state_after m s Hl) as (Hl' & Hm & Ho & Hv).
  destruct (IH _ Hl') as (-> & -> & -> & Hv').
  split_and!; [done..|].
  destruct Hv' as [->|[-> (vs & sy & f & Hin)]].
  - destruct Hv as [->|[-> (vs & sy & f & ->)]]; [by left|].
    right. split; [done|]. exists vs, sy, f. by left.
  - right. split; [done|]. exists vs, sy, f. by right.
Qed.

End Frames.

(** *** Validation of an index *)

Section Checks.
Context `{PyHash}.

Lemma bad_axis_first (d : vec3) (n : Z) (p : id_pc_type) (i : Z) :
  let size j := if j =? 3 then n else item d j in
  0 ≤ i ≤ 3 →
  ¬ (0 ≤ getitem p i < size i) →
  (∀ j, 0 ≤ j < i → 0 ≤ getitem p j < size j) →
  core.bad_axis d n p = Some i.
Proof.
  intros size Hi Hbad Hgood. unfold core.bad_axis, in_range.
  assert (i = 0 ∨ i = 1 ∨ i = 2 ∨ i = 3) as Hcases by lia.
  pose proof (Hgood 0) as G0. pose proof (Hgood 1) as G1.
  pose proof (Hgood 2) as G2. subst size. cbn in G0, G1, G2.
  destruct Hcases as [-> | [-> | [-> | ->]]]; cbn in Hbad;
    repeat (case_match; try lia); try done.
Qed.

(** X5: [_check_id_pc] never changes the object and accepts exactly the
    indices of four components that are all in range.  It raises
    [IDPCLenError] for another length, and otherwise [IDPCIndexError] for the
    first component that is out of range.  [orb_id_pc2sc] raises the same
    exception, and [add_vacancy] on an unlocked object its vacancy
    counterpart, leaving the object as it was. *)
Theorem _check_id_pc_first_axis (s : SuperCell) (id_pc : id_pc_type) :
  (_check_id_pc id_pc s).1 = s
  ∧ ((_check_id_pc id_pc s).2 = Ok tt
     ↔ valid_id_pc (dim s) (num_orb_pc s) id_pc)
  ∧ (length id_pc ≠ 4%nat →
     (_check_id_pc id_pc s).2 = Raise (IDPCLenError id_pc))
  ∧ (∀ i, length id_pc = 4%nat → 0 ≤ i ≤ 3 →
          ¬ (0 ≤ getitem id_pc i < axis_size s i) →
          (∀ j, 0 ≤ j < i → 0 ≤ getitem id_pc j < axis_size s j) →
          (_check_id_pc id_pc s).2 = Raise (IDPCIndexError i id_pc))
  ∧ (∀ e, (_check_id_pc id_pc s).2 = Raise e →
          (orb_id_pc2sc id_pc s).2 = Raise e
          ∧ ∀ do_sync force_sync,
              is_locked s = false →
              add_vacancy id_pc do_sync force_sync s
              = (s, Raise (to_vacancy_error e))).
Proof.
  rewrite _check_id_pc_run. cbn [fst snd]. split_and!.
  - done.
  - rewrite <- id_pc_error_None. by destruct (id_pc_error s id_pc).
  - intros Hlen. unfold id_pc_error.
    rewrite (proj2 (Nat.eqb_neq _ _)) by done. done.
  - intros i Hlen Hi Hbad Hgood. unfold id_pc_error.
    rewrite (proj2 (Nat.eqb_eq _ _)) by done. cbn [negb].
    by rewrite (bad_axis_first (dim s) (num_orb (prim_cell s)) id_pc i Hi Hbad
                  Hgood).
  - intros e He. destruct (id_pc_error s id_pc) as [e'|] eqn:Herr; [|done].
    simplify_eq. split.
    + unfold orb_id_pc2sc, bind.
      pose proof (sync_array_attrs false s) as (_ & _ & Hp & Hd & _).
      pose proof (sync_array_ok false s) as Hok.
      destruct (sync_array false s) as [s' [[]|?]]; [|done]. cbn [fst] in *.
      rewrite _check_id_pc_run.
      assert (id_pc_error s' id_pc = Some e) as ->; [|done].
      unfold id_pc_error in *. by rewrite Hp, Hd.
    + intros do_sync force_sync Hl. unfold add_vacancy.
      rewrite (add_vacancies_run_bad [] id_pc [] e) by done.
      cbn [foldl]. by rewrite set_vacancy_list_id.
Qed.

(** X11: the queries [orb_id_sc2pc], [orb_id_pc2sc], their array variants,
    [get_hop], [get_orb_pos] and [get_dr] leave the object as [sync_array()]
    leaves it, whether they return or raise: the vacancy list and the
    modifiers are untouched, and an object whose hash is up to date is not
    changed at all. *)
Theorem queries_only_sync (s : SuperCell) :
  let s' := (sync_array false s).1 in
  (∀ id_sc, (orb_id_sc2pc id_sc s).1 = s')
  ∧ (∀ id_pc, (orb_id_pc2sc id_pc s).1 = s')
  ∧ (∀ id_sc_array, (orb_id_sc2pc_array id_sc_array s).1 = s')
  ∧ (∀ ncols id_pc_array, (orb_id_pc2sc_array ncols id_pc_array s).1 = s')
  ∧ (∀ use_fast, (get_hop use_fast s).1 = s')
  ∧ (∀ (vec : Type) (build_orb_pos : SuperCell → list vec),
       (get_orb_pos build_orb_pos s).1 = s')
  ∧ (∀ (vec : Type) (vadd vsub : vec → vec → vec) (vneg : vec → vec)
       matmul_sc_lat_vec build_orb_pos _init_dr use_fast,
       (get_dr vadd vsub vneg matmul_sc_lat_vec build_orb_pos _init_dr
          use_fast s).1 = s')
  ∧ vacancy_list s' = vacancy_list s ∧ hop_modifier s' = hop_modifier s
  ∧ orb_pos_modifier s' = orb_pos_modifier s
  ∧ (hash_dict s = py_hash (vacancy_list s) → s' = s).
Proof.
  cbv zeta.
  pose proof (sync_array_attrs false s) as (Hv & _ & _ & _ & _ & Hm & Ho & _).
  split_and!; try done.
  - intros. apply orb_id_sc2pc_state.
  - intros. apply orb_id_pc2sc_state.
  - intros. apply orb_id_sc2pc_array_state.
  - intros. apply orb_id_pc2sc_array_state.
  - intros. apply get_hop_state.
  - intros. by rewrite get_orb_pos_state.
  - intros. apply get_dr_state.
  - intros Hh. unfold sync_array, bind, _update_hash, _get_hash.
    rewrite Hh, Z.eqb_refl. done.
Qed.

End Checks.

(** *** Index conversion *)

Lemma fresh_arrays_vac_pc (d : vec3) (n : Z) (vl : list id_pc_type) :
  default [] (fresh_arrays d n vl).1.1 ≡ₚ vl.
Proof.
  unfold fresh_arrays. destruct vl as [|v vl]; [done|].
  cbn [length Nat.eqb negb fst default]. unfold argsort_pairs.
  rewrite merge_sort_Permutation. rewrite snd_zip; [done|].
  unfold core.build_vac_id_sc. by rewrite length_fmap.
Qed.

Lemma first_bad_None {A} (ok : A → bool) (l : list A) :
  Forall (λ x, ok x = true) l → core.first_bad ok l = None.
Proof.
  induction 1 as [|x l Hx _ IH]; [done|]. cbn. by rewrite Hx, IH.
Qed.

Lemma check_id_pc_array_from_ok (pos : Z) (d : vec3) (n : Z)
    (rows : list id_pc_type) (vac : option (list id_pc_type)) :
  Forall (λ p, core.bad_axis d n p = None ∧ p ∉ default [] vac) rows →
  core.check_id_pc_array_from pos d n rows vac = (0, 0, 0).
Proof.
  intros Hall. revert pos. induction Hall as [|p rows [Hp Hv] _ IH]; intros pos;
    [done|].
  cbn. rewrite Hp. by rewrite decide_False.
Qed.

Lemma bad_axis_None (d : vec3) (n : Z) (p : id_pc_type) :
  valid_id_pc d n p → core.bad_axis d n p = None.
Proof.
  intros (_ & ? & ? & ? & ?). unfold core.bad_axis, in_range.
  repeat (case_match; try lia); done.
Qed.

Section SyncedView.
Context `{PyHash}.

(** The object a query works on: what is known of the arrays once
    [sync_array] has run on a well-formed object. *)
Lemma synced_view (s : SuperCell) :
  wf s → hash_sound s →
  let s' := (sync_array false s).1 in
  let d := dim s in
  let n := num_orb_pc s in
  sync_array false s' = (s', Ok tt)
  ∧ dim s' = d ∧ num_orb_pc s' = n ∧ vacancy_list s' = vacancy_list s
  ∧ Z.of_nat (length (orb_id_pc s')) = num_orb_sc s
  ∧ NoDup (orb_id_pc s')
  ∧ (∀ p, p ∈ default [] (vac_id_pc s') ↔ p ∈ vacancy_list s)
  ∧ (∀ i p, orb_id_pc s' !! i = Some p →
            valid_id_pc d n p ∧ (p ∉ vacancy_list s)
            ∧ core.id_pc2sc d n p (vac_id_sc s') = Z.of_nat i)
  ∧ (∀ p, valid_id_pc d n p →
          if decide (p ∈ vacancy_list s)
          then core.id_pc2sc d n p (vac_id_sc s') = -1
          else ∃ i, orb_id_pc s' !! i = Some p).
Proof.
  intros [Hd Hn Hvalid Hnodup] Hsound s' d n.
  destruct (sync_array_attrs false s) as (Hv & _ & Hp & Hdim & _).
  fold s' in Hv, Hp, Hdim.
  pose proof (sync_array_current s false (or_intror Hsound)) as Hcur.
  fold s' in Hcur. unfold arrays_current in Hcur. rewrite Hv, Hdim in Hcur.
  assert (num_orb_pc s' = n) as Hn' by (unfold num_orb_pc; by rewrite Hp).
  rewrite Hn' in Hcur. fold d in Hcur, Hd. fold n in Hn, Hvalid.
  set (vl := vacancy_list s) in *.
  destruct (fresh_arrays_spec d n vl) as (vac_pc & vac_sc & Hpc & Hsc & Ho & Hi).
  pose proof (fresh_arrays_vac_pc d n vl) as Hvp.
  rewrite <- Hcur in Ho, Hi, Hvp. cbn [fst snd] in Ho, Hi, Hvp.
  pose proof (build_orb_id_pc_length d n Hn Hd vl vac_pc vac_sc Hvalid Hnodup
                Hpc Hsc) as Hlen.
  rewrite <- Ho in Hlen.
  assert (∀ p, valid_id_pc d n p →
               core._id_pc2sc d n p ∈ vac_sc ↔ p ∈ vl) as Hmem.
  { intros p Hpv. rewrite Hsc, list_elem_of_fmap. split.
    - intros (q & Hq & Hin).
      rewrite (_id_pc2sc_inj d n p q); [done|done| |done].
      by apply (proj1 (Forall_forall _ _) Hvalid).
    - intros Hin. by exists p. }
  split_and!; [apply sync_array_idem|done|done|done| | | | |].
  - unfold num_orb_sc. fold n d vl. lia.
  - rewrite Ho. unfold core.build_orb_id_pc. apply NoDup_filter.
    apply (all_id_pc_NoDup d n Hn Hd vl vac_pc vac_sc Hvalid Hnodup Hpc Hsc).
    apply Z.le_refl.
  - intros p. by rewrite Hvp.
  - intros i p Hlp. pose proof Hlp as Hlp'. rewrite Ho in Hlp'.
    destruct (build_orb_id_pc_lookup d n Hn Hd vl vac_pc vac_sc Hvalid Hnodup
                Hpc Hsc i p Hlp') as [Hpv Hpi].
    split_and!; [done| |by rewrite Hi].
    apply list_elem_of_lookup_2 in Hlp'. unfold core.build_orb_id_pc in Hlp'.
    apply list_elem_of_filter in Hlp' as [Hnot _]. by rewrite <- Hpc.
  - intros p Hpv. destruct (decide (p ∈ vl)) as [Hin|Hin].
    + rewrite Hi. unfold core.id_pc2sc. rewrite decide_True; [done|].
      by apply Hmem.
    + apply list_elem_of_lookup_1. rewrite Ho. unfold core.build_orb_id_pc.
      apply list_elem_of_filter. split; [by rewrite Hpc|].
      apply (elem_of_all_id_pc d n Hn Hd vl vac_pc vac_sc Hvalid Hnodup Hpc Hsc).
      * split; [lia|]. apply Z.le_refl.
      * split; [done|]. by destruct (_id_sc2pc_pc2sc d n p Hpv) as [_ [_ ?]].
Qed.

End SyncedView.

Section Conversions.
Context `{PyHash}.

Lemma orb_id_sc2pc_run (s : SuperCell) (i : Z) :
  let s' := (sync_array false s).1 in
  let n := Z.of_nat (length (orb_id_pc s')) in
  orb_id_sc2pc i s
  = (s', if (0 <=? i) && (i <? n)
         then Ok (nth (Z.to_nat i) (orb_id_pc s') [])
         else if (- n <=? i) && (i <? 0)
              then Ok (nth (Z.to_nat (n + i)) (orb_id_pc s') [])
              else Raise (IDSCIndexError i)).
Proof.
  cbv zeta. unfold orb_id_sc2pc, bind, get, ret, raise.
  pose proof (sync_array_ok false s) as Hok.
  destruct (sync_array false s) as [s' [[]|?]]; [|done]. cbn [fst].
  repeat case_match; done.
Qed.

Lemma orb_id_pc2sc_run (s : SuperCell) (p : id_pc_type) :
  let s' := (sync_array false s).1 in
  valid_id_pc (dim s) (num_orb_pc s) p →
  orb_id_pc2sc p s
  = (s', let k := core.id_pc2sc (dim s) (num_orb_pc s) p (vac_id_sc s') in
         if k =? -1 then Raise (IDPCVacError p) else Ok k).
Proof.
  cbv zeta. intros Hp. unfold orb_id_pc2sc, bind, get, ret, raise.
  pose proof (sync_array_attrs false s) as (_ & _ & Hpc & Hd & _).
  pose proof (sync_array_ok false s) as Hok.
  destruct (sync_array false s) as [s' [[]|?]]; [|done]. cbn [fst] in *.
  rewrite _check_id_pc_run.
  rewrite (proj2 (id_pc_error_None s' p))
    by (unfold num_orb_pc; by rewrite Hd, Hpc).
  unfold num_orb_pc. rewrite Hd, Hpc. by case_match.
Qed.

(** X12: on a valid index [orb_id_pc2sc] raises [IDPCVacError] when the
    index is a vacancy, and otherwise returns a supercell index from 0 to
    [num_orb_sc - 1] that [orb_id_sc2pc] converts back to the index. *)
Theorem orb_id_pc2sc_valid (s : SuperCell) (id_pc : id_pc_type) :
  wf s → hash_sound s →
  valid_id_pc (dim s) (num_orb_pc s) id_pc →
  let s' := (sync_array false s).1 in
  (id_pc ∈ vacancy_list s →
   orb_id_pc2sc id_pc s = (s', Raise (IDPCVacError id_pc)))
  ∧ (id_pc ∉ vacancy_list s →
     ∃ i, 0 ≤ i < num_orb_sc s
          ∧ orb_id_pc2sc id_pc s = (s', Ok i)
          ∧ orb_id_sc2pc i s = (s', Ok id_pc)).
Proof.
  intros Hwf Hsound Hp s'.
  destruct (synced_view s Hwf Hsound) as (_ & _ & _ & _ & Hlen & _ & _ & Hlook & Hvac).
  fold s' in Hlen, Hlook, Hvac. specialize (Hvac id_pc Hp).
  rewrite orb_id_pc2sc_run by done. cbv zeta. fold s'. split.
  - intros Hin. rewrite decide_True in Hvac by done. by rewrite Hvac.
  - intros Hin. rewrite decide_False in Hvac by done.
    destruct Hvac as [i Hi].
    destruct (Hlook i id_pc Hi) as (_ & _ & Hk).
    pose proof (lookup_lt_Some _ _ _ Hi) as Hlt.
    exists (Z.of_nat i). split; [lia|]. rewrite Hk.
    rewrite (proj2 (Z.eqb_neq _ (-1))) by lia. split; [done|].
    rewrite orb_id_sc2pc_run. cbv zeta. fold s'.
    rewrite (proj2 (Z.leb_le 0 _)) by lia.
    rewrite (proj2 (Z.ltb_lt _ _)) by lia. cbn [andb].
    rewrite Nat2Z.id. by rewrite (nth_lookup_Some _ _ _ _ Hi).
Qed.

Lemma orb_id_sc2pc_array_run (s : SuperCell) (id_sc_array : list Z) :
  wf s → hash_sound s →
  Forall (λ i, 0 ≤ i < num_orb_sc s) id_sc_array →
  let s' := (sync_array false s).1 in
  orb_id_sc2pc_array id_sc_array s
  = (s', Ok (core.id_sc2pc_array (orb_id_pc s') id_sc_array)).
Proof.
  intros Hwf Hsound Hall s'.
  destruct (synced_view s Hwf Hsound) as (_ & Hd & Hn & Hv & _).
  fold s' in Hd, Hn, Hv.
  pose proof (sync_array_ok false s) as Hok.
  unfold orb_id_sc2pc_array, bind, get. subst s'.
  destruct (sync_array false s) as [s' [[]|?]]; [|done]. cbn [fst] in *.
  assert (num_orb_sc s' = num_orb_sc s) as Hsc.
  { unfold num_orb_sc. unfold num_orb_pc in *. by rewrite Hn, Hd, Hv. }
  unfold core.check_id_sc_array. rewrite first_bad_None; [done|].
  eapply Forall_impl; [exact Hall|]. intros i Hi. cbn beta in Hi.
  unfold in_range.
  rewrite Hsc. apply andb_true_iff. split; [apply Z.leb_le|apply Z.ltb_lt];
    lia.
Qed.

Lemma orb_id_pc2sc_array_run (s : SuperCell) (id_pc_array : list id_pc_type) :
  wf s → hash_sound s →
  Forall (λ p, valid_id_pc (dim s) (num_orb_pc s) p ∧ p ∉ vacancy_list s)
    id_pc_array →
  let s' := (sync_array false s).1 in
  orb_id_pc2sc_array 4 id_pc_array s
  = (s', Ok (core.id_pc2sc_array (dim s') (num_orb_pc s') id_pc_array
               (vac_id_sc s'))).
Proof.
  intros Hwf Hsound Hall s'.
  destruct (synced_view s Hwf Hsound)
    as (_ & Hd & Hn & Hv & Hlen & _ & Hvp & Hlook & Hvac).
  fold s' in Hd, Hn, Hv, Hlen, Hvp, Hlook, Hvac.
  pose proof (sync_array_ok false s) as Hok.
  unfold orb_id_pc2sc_array, bind, get. subst s'.
  destruct (sync_array false s) as [s' [[]|?]]; [|done]. cbn [fst] in *.
  cbn [Nat.eqb negb]. unfold core.check_id_pc_array.
  rewrite check_id_pc_array_from_ok; [done|].
  eapply Forall_impl; [exact Hall|]. intros p [Hp Hnot]. cbn beta.
  rewrite Hd, Hn. split; [by apply bad_axis_None|]. by rewrite Hvp.
Qed.

(** X13: on a batch of supercell indices in range, and on a batch of valid
    indices of live orbitals, the array variants return element by element
    what [orb_id_sc2pc] and [orb_id_pc2sc] return. *)
Theorem array_variants_agree (s : SuperCell) :
  wf s → hash_sound s →
  let s' := (sync_array false s).1 in
  (∀ id_sc_array,
     Forall (λ i, 0 ≤ i < num_orb_sc s) id_sc_array →
     ∃ id_pc_array,
       orb_id_sc2pc_array id_sc_array s = (s', Ok id_pc_array)
       ∧ Forall2 (λ i p, orb_id_sc2pc i s = (s', Ok p))
           id_sc_array id_pc_array)
  ∧ (∀ id_pc_array,
       Forall (λ p, valid_id_pc (dim s) (num_orb_pc s) p
                    ∧ p ∉ vacancy_list s) id_pc_array →
       ∃ id_sc_array,
         orb_id_pc2sc_array 4 id_pc_array s = (s', Ok id_sc_array)
         ∧ Forall2 (λ p i, orb_id_pc2sc p s = (s', Ok i))
             id_pc_array id_sc_array).
Proof.
  intros Hwf Hsound s'.
  destruct (synced_view s Hwf Hsound)
    as (_ & Hd & Hn & Hv & Hlen & _ & Hvp & Hlook & Hvac).
  fold s' in Hd, Hn, Hv, Hlen, Hvp, Hlook, Hvac.
  pose proof (sync_array_ok false s) as Hok.
  split.
  - intros ids Hall. eexists. split.
    + by apply orb_id_sc2pc_array_run.
    + unfold core.id_sc2pc_array. apply Forall2_fmap_r, Forall2_same_length_lookup.
      split; [done|]. intros k i i' Hi Hi'. simplify_eq.
      pose proof (proj1 (Forall_lookup _ _) Hall k i Hi) as Hr. cbn in Hr.
      rewrite orb_id_sc2pc_run. cbv zeta. fold s'.
      rewrite (proj2 (Z.leb_le 0 _)) by lia.
      by rewrite (proj2 (Z.ltb_lt _ _)) by lia.
  - intros rows Hall. eexists. split.
    + by apply orb_id_pc2sc_array_run.
    + unfold core.id_pc2sc_array. apply Forall2_fmap_r, Forall2_same_length_lookup.
      split; [done|]. intros k p p' Hp Hp'. simplify_eq. unfold compose.
      cbn beta.
      pose proof (proj1 (Forall_lookup _ _) Hall k p Hp) as [Hpv Hnot].
      rewrite orb_id_pc2sc_run by done. cbv zeta. fold s'. rewrite ?Hd, ?Hn.
      pose proof (Hvac p Hpv) as Hlive. rewrite decide_False in Hlive by done.
      destruct Hlive as [i Hi]. destruct (Hlook i p Hi) as (_ & _ & ->).
      by rewrite (proj2 (Z.eqb_neq _ (-1))) by lia.
Qed.

(** X14: [orb_id_sc2pc] counts an index from [-num_orb_sc] to [-1] from the
    end of [orb_id_pc], as numpy does, and returns the orbital at
    [num_orb_sc + id_sc]; [orb_id_sc2pc_array] refuses such an index with
    [IDSCIndexError].  Below [-num_orb_sc] and from [num_orb_sc] on, both
    raise [IDSCIndexError]. *)
Theorem orb_id_sc2pc_negative (s : SuperCell) (id_sc : Z) :
  wf s → hash_sound s →
  let s' := (sync_array false s).1 in
  let n := num_orb_sc s in
  (- n ≤ id_sc < 0 →
   (∃ p, orb_id_sc2pc id_sc s = (s', Ok p))
   ∧ orb_id_sc2pc id_sc s = orb_id_sc2pc (n + id_sc) s
   ∧ orb_id_sc2pc_array [id_sc] s = (s', Raise (IDSCIndexError id_sc)))
  ∧ (id_sc < - n ∨ n ≤ id_sc →
     orb_id_sc2pc id_sc s = (s', Raise (IDSCIndexError id_sc))
     ∧ orb_id_sc2pc_array [id_sc] s = (s', Raise (IDSCIndexError id_sc))).
Proof.
  intros Hwf Hsound s' n.
  destruct (synced_view s Hwf Hsound)
    as (_ & Hd & Hn & Hv & Hlen & _).
  fold s' n in Hd, Hn, Hv, Hlen.
  assert (orb_id_sc2pc_array [id_sc] s
          = (s', if in_range id_sc n then Ok [nth (Z.to_nat id_sc) (orb_id_pc s') []]
                 else Raise (IDSCIndexError id_sc))) as Harr.
  { unfold orb_id_sc2pc_array, bind, get. subst s'.
    pose proof (sync_array_ok false s) as Hok.
    destruct (sync_array false s) as [s' [[]|?]]; [|done]. cbn [fst] in *.
    assert (num_orb_sc s' = n) as ->.
    { subst n. unfold num_orb_sc. unfold num_orb_pc in *. by rewrite Hn, Hd, Hv. }
    unfold core.check_id_sc_array. cbn [core.first_bad].
    by destruct (in_range id_sc n). }
  rewrite Harr, !orb_id_sc2pc_run. cbv zeta. fold s'. rewrite Hlen. fold n.
  unfold in_range. split.
  - intros Hr.
    rewrite (proj2 (Z.leb_gt 0 id_sc)) by lia. cbn [andb].
    rewrite (proj2 (Z.leb_le (- n) id_sc)) by lia.
    rewrite (proj2 (Z.ltb_lt id_sc 0)) by lia. cbn [andb].
    rewrite (proj2 (Z.leb_le 0 (n + id_sc))) by lia.
    rewrite (proj2 (Z.ltb_lt (n + id_sc) n)) by lia. cbn [andb].
    split_and!; [by eexists|done|done].
  - intros Hr.
    destruct (Z.leb_spec 0 id_sc); destruct (Z.ltb_spec id_sc n);
      destruct (Z.leb_spec (- n) id_sc); destruct (Z.ltb_spec id_sc 0);
      cbn [andb]; try lia; done.
Qed.

End Conversions.

(** *** The vacancy arrays *)

Lemma StronglySorted_le_lt (l : list Z) :
  StronglySorted Z.le l → NoDup l → StronglySorted Z.lt l.
Proof.
  induction 1 as [|x l Hl IH Hx]; intros Hnd; [constructor|].
  apply NoDup_cons in Hnd as [Hnot Hnd]. constructor; [by apply IH|].
  apply Forall_forall. intros y Hy.
  pose proof (proj1 (Forall_forall _ _) Hx y Hy) as Hle. cbn in Hle.
  assert (x ≠ y) by (by intros ->). lia.
Qed.

Lemma argsort_pairs_spec (d : vec3) (n : Z) (vl : list id_pc_type) :
  let sorted := argsort_pairs (core.build_vac_id_sc d n vl) vl in
  sorted.*2 ≡ₚ vl
  ∧ sorted.*1 = core.build_vac_id_sc d n sorted.*2
  ∧ StronglySorted Z.le sorted.*1.
Proof.
  cbv zeta. unfold argsort_pairs.
  set (pairs := zip (core.build_vac_id_sc d n vl) vl).
  assert (length (core.build_vac_id_sc d n vl) = length vl) as Hlen
    by (unfold core.build_vac_id_sc; by rewrite length_fmap).
  pose proof (merge_sort_Permutation sc_le pairs) as Hperm.
  split_and!.
  - rewrite Hperm. subst pairs. rewrite snd_zip; [done|lia].
  - assert (Forall (λ kp : Z * id_pc_type, kp.1 = core._id_pc2sc d n kp.2)
              (merge_sort sc_le pairs)) as Hall.
    { rewrite Hperm. subst pairs. unfold core.build_vac_id_sc. clear.
      induction vl as [|v vl IH]; [constructor|]. rewrite fmap_cons.
      cbn [zip zip_with]. constructor; [done|apply IH]. }
    unfold core.build_vac_id_sc. clear Hperm.
    induction Hall as [|[k p] l Hk _ IH]; [done|].
    rewrite !fmap_cons. cbn [fst snd] in *. by rewrite Hk, IH.
  - apply (StronglySorted_fmap fst sc_le Z.le); [done|].
    apply StronglySorted_merge_sort.
    + intros x y z. unfold sc_le. lia.
    + intros x y. unfold sc_le. lia.
Qed.

Section VacancyArrays.
Context `{PyHash}.

(** X10: once [sync_array] has updated the arrays (forced, or with a hash
    that tells a change), an empty vacancy list gives no vacancy arrays; a
    non-empty one gives [vac_id_pc], a rearrangement of the vacancy list,
    and [vac_id_sc], its flat ids row by row in increasing order, strictly
    increasing when the vacancies are valid and distinct. *)
Theorem sync_array_vacancy_arrays (s : SuperCell) (force_sync : bool) :
  force_sync = true ∨ hash_sound s →
  let s' := (sync_array force_sync s).1 in
  (vacancy_list s = [] → vac_id_pc s' = None ∧ vac_id_sc s' = None)
  ∧ (vacancy_list s ≠ [] →
     ∃ vp vs, vac_id_pc s' = Some vp ∧ vac_id_sc s' = Some vs
              ∧ vp ≡ₚ vacancy_list s
              ∧ vs = core.build_vac_id_sc (dim s) (num_orb_pc s) vp
              ∧ StronglySorted Z.le vs
              ∧ (wf s → StronglySorted Z.lt vs)).
Proof.
  intros Hsync s'.
  assert (arrays_current s') as Hcur.
  { apply sync_array_current. destruct Hsync as [?|?]; [by left|by right]. }
  destruct (sync_array_attrs force_sync s) as (Hv & _ & Hp & Hd & _).
  fold s' in Hv, Hp, Hd. unfold arrays_current in Hcur.
  unfold num_orb_pc in *. rewrite Hv, Hd, Hp in Hcur.
  set (d := dim s) in *. set (n := num_orb (prim_cell s)) in *.
  unfold fresh_arrays in Hcur. split.
  - intros Hnil. rewrite Hnil in Hcur. cbn in Hcur. by simplify_eq.
  - intros Hne. destruct (vacancy_list s) as [|v vl] eqn:Hvl; [done|].
    cbn [length Nat.eqb negb] in Hcur. cbv zeta in Hcur.
    destruct (argsort_pairs_spec d n (v :: vl)) as (Hperm & Hrows & Hsorted).
    set (sorted := argsort_pairs (core.build_vac_id_sc d n (v :: vl)) (v :: vl))
      in *.
    injection Hcur as Hvp Hvs _. exists sorted.*2, sorted.*1.
    split_and!; [done..|].
    intros [Hdok Hn Hvalid Hnd]. apply StronglySorted_le_lt; [done|].
    rewrite Hvl in Hvalid, Hnd.
    apply (vac_sc_NoDup d n Hn Hdok (v :: vl) (v :: vl)); try done.
    rewrite Hrows. unfold core.build_vac_id_sc. by rewrite Hperm.
Qed.

End VacancyArrays.

(** *** Trimming *)

Lemma enumerate_snd {A} (l : list A) : (core.enumerate l).*2 = l.
Proof.
  unfold core.enumerate. apply snd_zip. rewrite length_seqZ. lia.
Qed.

Lemma enumerate_lookup {A} (l : list A) (i : nat) (k : Z) (x : A) :
  core.enumerate l !! i = Some (k, x) ↔ k = Z.of_nat i ∧ l !! i = Some x.
Proof.
  unfold core.enumerate. rewrite lookup_zip_with_Some. split.
  - intros (k' & x' & [= -> ->] & Hk & Hx). split; [|done].
    apply lookup_seqZ in Hk. lia.
  - intros [-> Hx]. exists (Z.of_nat i), x. split_and!; [done| |done].
    apply lookup_seqZ. split; [lia|]. apply lookup_lt_Some in Hx. lia.
Qed.

Lemma get_orb_id_trim_sublist (orb : list id_pc_type) (hop_i hop_j : list Z) :
  core.get_orb_id_trim orb hop_i hop_j `sublist_of` orb.
Proof.
  unfold core.get_orb_id_trim. rewrite <- (enumerate_snd orb) at 2.
  apply fmap_sublist, sublist_filter.
Qed.

Lemma elem_of_get_orb_id_trim (orb : list id_pc_type) (hop_i hop_j : list Z)
    (p : id_pc_type) :
  p ∈ core.get_orb_id_trim orb hop_i hop_j
  ↔ ∃ i, orb !! i = Some p ∧ (Z.of_nat i ∉ hop_i) ∧ (Z.of_nat i ∉ hop_j).
Proof.
  unfold core.get_orb_id_trim. rewrite list_elem_of_fmap. split.
  - intros ([k q] & -> & [[Hi Hj] Hin]%list_elem_of_filter).
    apply list_elem_of_lookup in Hin as [i Hin].
    apply enumerate_lookup in Hin as [-> Hq]. cbn in *. by exists i.
  - intros (i & Hp & Hi & Hj). exists (Z.of_nat i, p). split; [done|].
    apply list_elem_of_filter. split; [done|].
    apply list_elem_of_lookup. exists i. by apply enumerate_lookup.
Qed.

Section Trim.
Context `{PyHash}.

Lemma hash_sound_sync (force : bool) (s : SuperCell) :
  hash_sound s → hash_sound (sync_array force s).1.
Proof. intros Hs. right. apply sync_array_current. by right. Qed.

(** X18: [trim] on an unlocked object returns; it appends to the vacancy
    list the orbitals that are an endpoint of no hopping term of [get_hop],
    and nothing else, so that [num_orb_sc] drops by their number. *)
Theorem trim_adds_dangling (s : SuperCell) :
  wf s → hash_sound s → is_locked s = false →
  let s1 := (sync_array false s).1 in
  let hop := hop_of None s1 in
  let dangling := core.get_orb_id_trim (orb_id_pc s1) hop.1.1 hop.1.2 in
  (trim s).2 = Ok tt
  ∧ vacancy_list (trim s).1 = vacancy_list s ++ dangling
  ∧ num_orb_sc (trim s).1 = num_orb_sc s - Z.of_nat (length dangling)
  ∧ (∀ p, p ∈ dangling
          ↔ ∃ i, orb_id_pc s1 !! i = Some p
                 ∧ (Z.of_nat i ∉ hop.1.1) ∧ (Z.of_nat i ∉ hop.1.2)).
Proof.
  intros Hwf Hsound Hl s1 hop dangling.
  destruct (synced_view s Hwf Hsound)
    as (Hidem & Hd & Hn & Hv & Hlen & Hnd & Hvp & Hlook & Hvac).
  fold s1 in Hidem, Hd, Hn, Hv, Hlen, Hnd, Hvp, Hlook, Hvac.
  assert (wf s1) as Hwf1 by by apply wf_sync_array.
  assert (hash_sound s1) as Hsound1 by by apply hash_sound_sync.
  assert (is_locked s1 = false) as Hl1.
  { destruct (sync_array_attrs false s) as (_ & Hl' & _). fold s1 in Hl'.
    congruence. }
  assert (Forall (λ p, valid_id_pc (dim s1) (num_orb_pc s1) p
                       ∧ p ∉ vacancy_list s1) dangling) as Hdang.
  { apply Forall_forall. intros p Hp.
    apply (λ Hp, elem_of_sublist _ _ _ Hp (get_orb_id_trim_sublist _ _ _)) in Hp.
    apply list_elem_of_lookup in Hp as [i Hp].
    destruct (Hlook i p Hp) as (Hpv & Hnot & _). by rewrite Hd, Hn, Hv. }
  assert (NoDup dangling) as Hnd'.
  { eapply sublist_NoDup; [exact Hnd|apply get_orb_id_trim_sublist]. }
  pose proof (orb_id_pc2sc_array_run s1 dangling Hwf1 Hsound1 Hdang) as Hids.
  cbv zeta in Hids.
  rewrite Hidem in Hids. cbn [fst] in Hids.
  set (ids := core.id_pc2sc_array _ _ _ _) in Hids.
  assert (add_vacancies dangling true false s1
          = sync_array false
              (set_vacancy_list (vacancy_list s ++ dangling) s1)) as Hadd.
  { rewrite add_vacancies_run_ok; [|done|].
    - cbv zeta. rewrite Hv. rewrite foldl_append_new_NoDup; [done|].
      apply NoDup_app. split_and!; [by destruct Hwf| |done].
      intros p Hp Hp'. apply (proj1 (Forall_forall _ _) Hdang) in Hp'.
      destruct Hp' as [_ Hnot]. by rewrite Hv in Hnot.
    - apply valid_Forall_error. eapply Forall_impl; [exact Hdang|].
      by intros p [? _]. }
  assert (trim s
          = (set_hop_modifier
               (base.remove_orbitals
                  (hop_modifier (sync_array false
                     (set_vacancy_list (vacancy_list s ++ dangling) s1)).1) ids)
               (sync_array false
                  (set_vacancy_list (vacancy_list s ++ dangling) s1)).1,
             Ok tt)) as Htrim.
  { rewrite trim_run by done. cbv zeta. fold s1 hop dangling.
    rewrite Hids, Hadd.
    pose proof (sync_array_ok false
                  (set_vacancy_list (vacancy_list s ++ dangling) s1)) as Hok.
    destruct (sync_array false
                (set_vacancy_list (vacancy_list s ++ dangling) s1))
      as [s3 [[]|?]]; cbn in *; [reflexivity|discriminate]. }
  rewrite Htrim. cbn [fst snd].
  destruct (sync_array_attrs false
              (set_vacancy_list (vacancy_list s ++ dangling) s1))
    as (Hv3 & _ & Hp3 & Hd3 & _).
  split_and!; [done| | |].
  - done.
  - unfold num_orb_sc, num_orb_pc in *.
    cbn [vacancy_list dim prim_cell set_hop_modifier].
    rewrite Hv3, Hd3, Hp3. cbn [vacancy_list dim prim_cell set_vacancy_list].
    rewrite length_app. rewrite Hd, Hn. lia.
  - apply elem_of_get_orb_id_trim.
Qed.

End Trim.

(** *** Cutting a disc out of a supercell *)

Lemma select_rows {vec} (outside : vec → bool) (orb_pos : list vec)
    (orb pre : list id_pc_type) :
  length orb_pos = length orb →
  (λ k : Z, nth (Z.to_nat k) (pre ++ orb) [])
    <$> (filter (λ ip : Z * vec, outside ip.2 = true)
           (zip (seqZ (Z.of_nat (length pre)) (Z.of_nat (length orb_pos)))
              orb_pos)).*1
  = orbitals_outside outside orb_pos orb.
Proof.
  unfold orbitals_outside. revert orb pre.
  induction orb_pos as [|x orb_pos IH]; intros [|p orb] pre Hlen; try done.
  injection Hlen as Hlen.
  replace (Z.of_nat (length (x :: orb_pos)))
    with (Z.succ (Z.of_nat (length orb_pos))) by (cbn [length]; lia).
  rewrite seqZ_cons by lia. rewrite Z.pred_succ. cbn [zip zip_with].
  rewrite !filter_cons. cbn [snd fst].
  specialize (IH orb (pre ++ [p]) Hlen). rewrite <- app_assoc in IH.
  rewrite length_app, Nat2Z.inj_add in IH. cbn [length app] in IH.
  change (Z.of_nat 1) with 1 in IH.
  replace (Z.succ (Z.of_nat (length pre))) with (Z.of_nat (length pre) + 1)
    by lia.
  destruct (decide (outside x = true)) as [Hx|Hx].
  - rewrite !fmap_cons, IH. cbn [fst snd]. f_equal.
    rewrite Nat2Z.id. by rewrite nth_middle.
  - by rewrite IH.
Qed.

Lemma orbitals_outside_sublist {vec} (outside : vec → bool) (orb_pos : list vec)
    (orb : list id_pc_type) :
  orbitals_outside outside orb_pos orb `sublist_of` orb.
Proof.
  unfold orbitals_outside.
  transitivity (zip orb_pos orb).*2.
  - apply fmap_sublist, sublist_filter.
  - clear. revert orb. induction orb_pos as [|x l IH]; intros [|p orb];
      cbn; try done; [apply sublist_nil_l|]. by apply sublist_skip.
Qed.

Section Cutoff.
Context `{PyHash}.

(** X19: [cutoff_sc] on an unlocked supercell returns, and the vacancies are
    then the orbitals that lay outside the disc, in the order of their
    supercell indices: the vacancies the supercell had before are live
    orbitals again. *)
Theorem cutoff_sc_vacancies {vec} (build_orb_pos : SuperCell → list vec)
    (outside : vec → bool) (s : SuperCell) :
  wf s → hash_sound s → is_locked s = false →
  let s1 := (sync_array false s).1 in
  let removed := orbitals_outside outside (build_orb_pos s1) (orb_id_pc s1) in
  length (build_orb_pos s1) = length (orb_id_pc s1) →
  (cutoff_sc build_orb_pos outside s).2 = Ok tt
  ∧ vacancy_list (cutoff_sc build_orb_pos outside s).1 = removed
  ∧ (∀ p, p ∈ vacancy_list s → p ∉ removed)
  ∧ num_orb_sc (cutoff_sc build_orb_pos outside s).1
    = num_orb_pc s * np_prod (dim s) - Z.of_nat (length removed).
Proof.
  intros Hwf Hsound Hl s1 removed Hpos.
  destruct (synced_view s Hwf Hsound)
    as (Hidem & Hd & Hn & Hv & Hlen & Hnd & Hvp & Hlook & Hvac).
  fold s1 in Hidem, Hd, Hn, Hv, Hlen, Hnd, Hvp, Hlook, Hvac.
  assert (wf s1) as Hwf1 by by apply wf_sync_array.
  assert (hash_sound s1) as Hsound1 by by apply hash_sound_sync.
  assert (is_locked s1 = false) as Hl1.
  { destruct (sync_array_attrs false s) as (_ & Hl' & _). fold s1 in Hl'.
    congruence. }
  set (idx := (filter (λ ip : Z * vec, outside ip.2 = true)
                 (core.enumerate (build_orb_pos s1))).*1).
  assert (Forall (λ i, 0 ≤ i < num_orb_sc s1) idx) as Hidx.
  { assert (num_orb_sc s1 = num_orb_sc s) as ->.
    { unfold num_orb_sc. unfold num_orb_pc in *. by rewrite Hn, Hd, Hv. }
    apply Forall_forall. intros i Hi. subst idx.
    apply list_elem_of_fmap in Hi as ([k x] & -> & [_ Hin]%list_elem_of_filter).
    apply list_elem_of_lookup in Hin as [j Hin].
    apply enumerate_lookup in Hin as [-> Hx]. cbn [fst].
    apply lookup_lt_Some in Hx. lia. }
  pose proof (orb_id_sc2pc_array_run s1 idx Hwf1 Hsound1 Hidx) as Hrows.
  cbv zeta in Hrows.
  rewrite Hidem in Hrows. cbn [fst] in Hrows.
  assert (core.id_sc2pc_array (orb_id_pc s1) idx = removed) as Heq.
  { unfold core.id_sc2pc_array. subst idx removed. unfold core.enumerate.
    rewrite <- (select_rows outside (build_orb_pos s1) (orb_id_pc s1) [] Hpos).
    done. }
  rewrite Heq in Hrows. clear Heq.
  assert (removed `sublist_of` orb_id_pc s1) as Hsub
    by apply orbitals_outside_sublist.
  assert (Forall (λ p, valid_id_pc (dim s1) (num_orb_pc s1) p
                       ∧ p ∉ vacancy_list s) removed) as Hrem.
  { apply Forall_forall. intros p Hp.
    apply (λ Hp, elem_of_sublist _ _ _ Hp Hsub) in Hp.
    apply list_elem_of_lookup in Hp as [i Hp].
    destruct (Hlook i p Hp) as (Hpv & Hnot & _). by rewrite Hd, Hn. }
  assert (cutoff_sc build_orb_pos outside s = set_vacancies removed true false s1)
    as Hrun.
  { unfold cutoff_sc, bind. rewrite get_orb_pos_state. fold s1 idx.
    by rewrite Hrows. }
  rewrite Hrun.
  destruct (set_vacancies_NoDup s1 removed true false Hl1) as (Hok & Heq).
  { eapply Forall_impl; [exact Hrem|]. by intros p [? _]. }
  { exact (sublist_NoDup _ _ Hnd Hsub). }
  split_and!; [done|done| |].
  - intros p Hp Hp'. apply (proj1 (Forall_forall _ _) Hrem) in Hp'. tauto.
  - unfold num_orb_sc. rewrite Heq.
    pose proof (set_vacancies_wf removed true false s1) as _.
    destruct (add_vacancies_frame removed true false (set_vacancy_list [] s1))
      as (_ & Hp2 & Hd2 & _).
    change (add_vacancies removed true false (set_vacancy_list [] s1))
      with (set_vacancies removed true false s1) in Hp2, Hd2.
    unfold num_orb_pc in *. rewrite Hp2, Hd2. cbn [prim_cell dim set_vacancy_list].
    by rewrite Hn, Hd.
Qed.

End Cutoff.

(** *** Reading the modifier back *)

Lemma slot_pair (hop_i hop_j : list Z) (entry : hop_ind_row * complex) (n : nat) :
  slot hop_i hop_j entry = Some n →
  ∃ x y, pair_at hop_i hop_j x y n ∧ names_pair x y entry.
Proof.
  unfold slot, core.find_equiv_hopping.
  set (bra := h_bra entry.1). set (ket := h_ket entry.1).
  destruct (find_pair_range hop_i hop_j bra ket 0) as [->|(k & -> & [Hk _])].
  - cbn [Z.eqb negb].
    destruct (find_pair_range hop_i hop_j ket bra 0) as [->|(k & -> & [Hk _])];
      [done|].
    rewrite (proj2 (Z.eqb_neq _ (-1))) by lia. cbn [negb].
    intros [= <-]. rewrite Z.add_0_l, Nat2Z.id.
    exists ket, bra. split; [done|]. by right.
  - rewrite (proj2 (Z.eqb_neq _ (-1))) by lia. cbn [negb].
    intros [= <-]. rewrite Z.add_0_l, Nat2Z.id.
    exists bra, ket. split; [done|]. by left.
Qed.

Lemma merge_hop_entry_slot (hop_i hop_j : list Z) (hop_v : list complex)
    (new : hop_arrays) (entry : hop_ind_row * complex) :
  (merge_hop_entry hop_i hop_j (hop_v, new) entry).1
  = match slot hop_i hop_j entry with
    | Some n =>
        <[n := if negb ((core.find_equiv_hopping hop_i hop_j (h_bra entry.1)
                           (h_ket entry.1)).1 =? -1)
               then entry.2 else conjugate entry.2]> hop_v
    | None => hop_v
    end.
Proof.
  unfold merge_hop_entry, slot. destruct new as [[ni nj] nv].
  destruct (core.find_equiv_hopping _ _ _ _) as [same conj]. cbn [fst].
  by repeat case_match.
Qed.

Lemma merge_hop_fold_other (hop_i hop_j : list Z)
    (entries : list (hop_ind_row * complex)) (hop_v : list complex)
    (new : hop_arrays) (n : nat) :
  Forall (λ e, slot hop_i hop_j e ≠ Some n) entries →
  (foldl (merge_hop_entry hop_i hop_j) (hop_v, new) entries).1 !! n
  = hop_v !! n.
Proof.
  intros Hall. revert hop_v new.
  induction Hall as [|e entries He _ IH]; intros hop_v new; [done|].
  cbn [foldl].
  destruct (merge_hop_entry hop_i hop_j (hop_v, new) e) as [hop_v' new'] eqn:Hm.
  rewrite IH. pose proof (merge_hop_entry_slot hop_i hop_j hop_v new e) as Hs.
  rewrite Hm in Hs. cbn [fst] in Hs. rewrite Hs.
  destruct (slot hop_i hop_j e) as [m|]; [|done].
  apply list_lookup_insert_ne. congruence.
Qed.

Lemma merge_hop_fold_length (hop_i hop_j : list Z)
    (entries : list (hop_ind_row * complex)) (hop_v : list complex)
    (new : hop_arrays) :
  length (foldl (merge_hop_entry hop_i hop_j) (hop_v, new) entries).1
  = length hop_v.
Proof.
  destruct (merge_hop_fold hop_i hop_j entries hop_v new) as (v' & -> & Hl).
  done.
Qed.

Lemma apply_hop_modifier_fold (modifier : base.IntraHopping) (raw : hop_arrays) :
  let st := foldl (merge_hop_entry raw.1.1 raw.1.2) (raw.2, ([], [], []))
              modifier in
  apply_hop_modifier modifier raw
  = (raw.1.1 ++ st.2.1.1, raw.1.2 ++ st.2.1.2, st.1 ++ st.2.2).
Proof.
  cbv zeta. destruct raw as [[hop_i hop_j] hop_v]. unfold apply_hop_modifier.
  cbn [fst snd]. destruct modifier as [|e m].
  - cbn. by rewrite !app_nil_r.
  - unfold base.num_hop, base.to_array.
    rewrite (proj2 (Z.eqb_neq _ 0)) by (cbn [length]; lia). cbn [negb].
    rewrite zip_fst_snd.
    by destruct (foldl _ _ _) as [v [[ni nj] nv]].
Qed.

Section ModifierReadBack.
Context `{PyHash}.

(** X15: [get_hop] keeps every raw hopping term in its place, and keeps its
    energy when no entry of the modifier couples its two orbitals in either
    order. *)
Theorem get_hop_keeps_unnamed (use_fast : option bool) (s : SuperCell)
    (n : nat) (x y : Z) :
  let s' := (sync_array false s).1 in
  let raw := raw_hop use_fast s' in
  pair_at raw.1.1 raw.1.2 x y n →
  ∃ out, get_hop use_fast s = (s', Ok out)
         ∧ pair_at out.1.1 out.1.2 x y n
         ∧ (Forall (λ e, ¬ names_pair x y e) (hop_modifier s) →
            out.2 !! n = raw.2 !! n).
Proof.
  intros s' raw [Hx Hy]. rewrite get_hop_run. fold s'. eexists.
  split; [done|]. unfold hop_of.
  destruct (sync_array_attrs false s) as (_ & _ & _ & _ & _ & Hm & _).
  fold s' in Hm. rewrite Hm. fold raw.
  rewrite apply_hop_modifier_fold. cbv zeta. cbn [fst snd].
  destruct (raw_hop_length use_fast s') as [Hlj Hlv]. fold raw in Hlj, Hlv.
  pose proof (lookup_lt_Some _ _ _ Hx) as Hn.
  split; [split|].
  - by rewrite lookup_app_l.
  - rewrite lookup_app_l by lia. done.
  - intros Hall.
    rewrite lookup_app_l by (rewrite merge_hop_fold_length; lia).
    apply merge_hop_fold_other.
    eapply Forall_impl; [exact Hall|]. intros e He Hs.
    destruct (slot_pair _ _ _ _ Hs) as (x' & y' & [Hx' Hy'] & Hnames).
    assert (x' = x ∧ y' = y) as [-> ->] by (split; congruence). done.
Qed.

(** X16: an entry of the modifier after which no entry couples the same two
    orbitals is the one [get_hop] returns for them: its energy at the first
    raw term with the same bra and ket, else its conjugate at the first raw
    term with bra and ket exchanged, else the entry itself among the terms
    appended to the raw ones. *)
Theorem get_hop_reads_modifier (use_fast : option bool) (s : SuperCell)
    (before after : base.IntraHopping) (entry : hop_ind_row * complex) :
  let s' := (sync_array false s).1 in
  let raw := raw_hop use_fast s' in
  let bra := h_bra entry.1 in
  let ket := h_ket entry.1 in
  hop_modifier s = before ++ entry :: after →
  Forall (λ e, ¬ names_pair bra ket e) after →
  ∃ out, get_hop use_fast s = (s', Ok out)
    ∧ (∀ n, first_pair_at raw.1.1 raw.1.2 bra ket n →
            out.2 !! n = Some entry.2)
    ∧ (no_pair raw.1.1 raw.1.2 bra ket →
       ∀ n, first_pair_at raw.1.1 raw.1.2 ket bra n →
            out.2 !! n = Some (conjugate entry.2))
    ∧ (no_pair raw.1.1 raw.1.2 bra ket → no_pair raw.1.1 raw.1.2 ket bra →
       ∃ m, (length raw.1.1 ≤ m)%nat
            ∧ pair_at out.1.1 out.1.2 bra ket m ∧ out.2 !! m = Some entry.2).
Proof.
  intros s' raw bra ket Hmod Hafter. rewrite get_hop_run. fold s'. eexists.
  split; [done|]. unfold hop_of.
  destruct (sync_array_attrs false s) as (_ & _ & _ & _ & _ & Hm & _).
  fold s' in Hm. rewrite Hm. fold raw. clear Hm.
  destruct (raw_hop_length use_fast s') as [Hlj Hlv]. fold raw in Hlj, Hlv.
  assert (∀ n, Forall (λ e, slot raw.1.1 raw.1.2 e ≠ Some n) after
          ∨ ¬ (pair_at raw.1.1 raw.1.2 bra ket n
               ∨ pair_at raw.1.1 raw.1.2 ket bra n)) as Hothers.
  { intros n.
    destruct (decide (Forall (λ e, slot raw.1.1 raw.1.2 e ≠ Some n) after))
      as [?|Hex]; [by left|right].
    apply not_Forall_Exists in Hex; [|apply _].
    apply Exists_exists in Hex as (e & He & Hs). cbn beta in Hs.
    apply dec_stable in Hs.
    destruct (slot_pair _ _ _ _ Hs) as (x' & y' & [Hx' Hy'] & Hnames).
    pose proof (proj1 (Forall_forall _ _) Hafter e He) as Hne. cbn beta in Hne.
    intros [[Hx Hy]|[Hx Hy]]; apply Hne.
    - assert (x' = bra) as -> by congruence.
      by assert (y' = ket) as -> by congruence.
    - assert (x' = ket) as -> by congruence.
      assert (y' = bra) as -> by congruence.
      destruct Hnames as [?|?]; [by right|by left]. }
  split_and!.
  - intros n Hfirst. rewrite apply_hop_modifier_fold. cbv zeta. cbn [snd].
    pose proof (lookup_lt_Some _ _ _ (proj1 (proj1 Hfirst))) as Hn.
    rewrite lookup_app_l by (rewrite merge_hop_fold_length; lia).
    rewrite Hmod, foldl_app. cbn [foldl].
    destruct (foldl _ _ before) as [v0 new0] eqn:Hb.
    pose proof (merge_hop_fold_length raw.1.1 raw.1.2 before raw.2 ([], [], []))
      as Hl0. rewrite Hb in Hl0. cbn [fst] in Hl0.
    destruct (merge_hop_entry _ _ (v0, new0) entry) as [v1 new1] eqn:Hstep.
    destruct (Hothers n) as [Ho|Ho]; [|destruct Ho; left; apply Hfirst].
    rewrite merge_hop_fold_other by done.
    pose proof (merge_hop_entry_slot raw.1.1 raw.1.2 v0 new0 entry) as Hs.
    rewrite Hstep in Hs. cbn [fst] in Hs. rewrite Hs.
    unfold slot, core.find_equiv_hopping. fold bra ket.
    rewrite (find_pair_first _ _ _ _ 0 n Hfirst). cbn [fst].
    rewrite (proj2 (Z.eqb_neq _ (-1))) by lia. cbn [negb].
    rewrite Z.add_0_l, Nat2Z.id. apply list_lookup_insert_eq. lia.
  - intros Hno n Hfirst. rewrite apply_hop_modifier_fold. cbv zeta. cbn [snd].
    pose proof (lookup_lt_Some _ _ _ (proj1 (proj1 Hfirst))) as Hn.
    rewrite lookup_app_l by (rewrite merge_hop_fold_length; lia).
    rewrite Hmod, foldl_app. cbn [foldl].
    destruct (foldl _ _ before) as [v0 new0] eqn:Hb.
    pose proof (merge_hop_fold_length raw.1.1 raw.1.2 before raw.2 ([], [], []))
      as Hl0. rewrite Hb in Hl0. cbn [fst] in Hl0.
    destruct (merge_hop_entry _ _ (v0, new0) entry) as [v1 new1] eqn:Hstep.
    destruct (Hothers n) as [Ho|Ho]; [|destruct Ho; right; apply Hfirst].
    rewrite merge_hop_fold_other by done.
    pose proof (merge_hop_entry_slot raw.1.1 raw.1.2 v0 new0 entry) as Hs.
    rewrite Hstep in Hs. cbn [fst] in Hs. rewrite Hs.
    unfold slot, core.find_equiv_hopping. fold bra ket.
    rewrite (find_pair_none _ _ _ _ 0 Hno).
    rewrite (find_pair_first _ _ _ _ 0 n Hfirst). cbn [fst Z.eqb negb].
    rewrite (proj2 (Z.eqb_neq _ (-1))) by lia. cbn [negb].
    rewrite Z.add_0_l, Nat2Z.id. apply list_lookup_insert_eq. lia.
  - intros Hno Hno'.
    destruct (apply_hop_modifier_indices (hop_modifier s) raw)
      as (hop_v & -> & Hlen). cbn [fst snd].
    assert (entry ∈ filter (is_new raw.1.1 raw.1.2) (hop_modifier s)) as Hin.
    { apply list_elem_of_filter. split.
      - unfold is_new, core.find_equiv_hopping. fold bra ket.
        by rewrite (find_pair_none _ _ _ _ 0 Hno),
          (find_pair_none _ _ _ _ 0 Hno').
      - rewrite Hmod. apply elem_of_app. right. by left. }
    apply list_elem_of_lookup in Hin as [k Hk].
    exists (length raw.1.1 + k)%nat. split; [lia|]. split; [split|].
    + rewrite lookup_app_r by lia.
      replace (length raw.1.1 + k - length raw.1.1)%nat with k by lia.
      by rewrite list_lookup_fmap, Hk.
    + rewrite lookup_app_r by lia.
      replace (length raw.1.1 + k - length raw.1.2)%nat with k by lia.
      by rewrite list_lookup_fmap, Hk.
    + rewrite lookup_app_r by lia.
      replace (length raw.1.1 + k - length hop_v)%nat with k by lia.
      by rewrite list_lookup_fmap, Hk.
Qed.

End ModifierReadBack.

(** *** Distances *)

Section DistanceRows.
Context `{PyHash}.

Section DistanceModel.
Context {vec : Type}.
Variable vadd vsub : vec → vec → vec.
Variable vneg : vec → vec.
Variable matmul_sc_lat_vec : SuperCell → vec3 → vec.
Variable build_orb_pos : SuperCell → list vec.
Variable _init_dr : bool → SuperCell → list vec → list vec.

Lemma merge_dr_fold (s : SuperCell) (orb_pos : list vec) (hop_i hop_j : list Z)
    (entries : list (hop_ind_row * complex)) (dr dr_new : list vec) :
  Forall (entry_in_range (length orb_pos)) entries →
  ∃ dr' added,
    foldl (merge_dr_entry vadd vsub vneg matmul_sc_lat_vec s orb_pos hop_i hop_j)
      (Ok (dr, dr_new)) entries.*1
    = Ok (dr', dr_new ++ added)
    ∧ length dr' = length dr
    ∧ length added = length (filter (is_new hop_i hop_j) entries).
Proof.
  intros Hall. revert dr dr_new.
  induction Hall as [|e entries [Hb Hk] _ IH]; intros dr dr_new.
  - exists dr, []. by rewrite app_nil_r.
  - rewrite fmap_cons. cbn [foldl]. unfold merge_dr_entry at 2.
    destruct (lookup_lt_is_Some_2 orb_pos (Z.to_nat (h_ket e.1))) as [pk ->];
      [lia|].
    destruct (lookup_lt_is_Some_2 orb_pos (Z.to_nat (h_bra e.1))) as [pb ->];
      [lia|].
    assert (is_new hop_i hop_j e
            ↔ core.find_equiv_hopping hop_i hop_j (h_bra e.1) (h_ket e.1)
              = (-1, -1)) as Hnew by done.
    destruct (core.find_equiv_hopping hop_i hop_j (h_bra e.1) (h_ket e.1))
      as [same conj].
    rewrite filter_cons.
    destruct (Z.eqb_spec same (-1)) as [->|Hs]; cbn [negb].
    + destruct (Z.eqb_spec conj (-1)) as [->|Hc]; cbn [negb].
      * rewrite decide_True by by apply Hnew.
        destruct (IH dr (dr_new ++ [vsub (vadd pk (matmul_sc_lat_vec s (h_rn e.1))) pb]))
          as (dr' & added & -> & Hl & Ha).
        exists dr', (vsub (vadd pk (matmul_sc_lat_vec s (h_rn e.1))) pb :: added).
        rewrite <- app_assoc. split_and!; [done|done|]. cbn [length]. lia.
      * rewrite decide_False by (rewrite Hnew; congruence).
        destruct (IH (<[Z.to_nat conj :=
                         vneg (vsub (vadd pk (matmul_sc_lat_vec s (h_rn e.1))) pb)]> dr)
                    dr_new) as (dr' & added & -> & Hl & Ha).
        exists dr', added. rewrite length_insert in Hl. done.
    + rewrite decide_False by (rewrite Hnew; congruence).
      destruct (IH (<[Z.to_nat same :=
                       vsub (vadd pk (matmul_sc_lat_vec s (h_rn e.1))) pb]> dr)
                  dr_new) as (dr' & added & -> & Hl & Ha).
      exists dr', added. rewrite length_insert in Hl. done.
Qed.

(** X17: when the modifier names only orbitals that have a position and the
    builder returns one distance per raw term, [get_dr] returns, and its
    result has one row per hopping term of [get_hop]. *)
Theorem get_dr_aligned (use_fast : option bool) (s : SuperCell) :
  let s' := (sync_array false s).1 in
  let fast := match use_fast with
              | None => (length (vacancy_list s') =? 0)%nat
              | Some b => b
              end in
  let orb_pos := build_orb_pos s' in
  Forall (entry_in_range (length orb_pos)) (hop_modifier s) →
  length (_init_dr fast s' orb_pos) = length (raw_hop use_fast s').1.1 →
  ∃ dr out,
    get_dr vadd vsub vneg matmul_sc_lat_vec build_orb_pos _init_dr use_fast s
    = (s', Ok dr)
    ∧ get_hop use_fast s = (s', Ok out)
    ∧ length dr = length out.1.1.
Proof.
  intros s' fast orb_pos Hrange Hinit.
  destruct (sync_array_attrs false s) as (_ & _ & _ & _ & _ & Hm & _).
  fold s' in Hm.
  pose proof (sync_array_idem false s) as Hidem. fold s' in Hidem.
  pose proof (sync_array_run false s) as Hrun. fold s' in Hrun.
  rewrite get_hop_run. fold s'. unfold hop_of. rewrite Hm.
  set (raw := raw_hop use_fast s') in *.
  destruct (apply_hop_modifier_indices (hop_modifier s) raw)
    as (hop_v & Hout & Hlen).
  assert (get_dr vadd vsub vneg matmul_sc_lat_vec build_orb_pos _init_dr
            use_fast s
          = if negb (base.num_hop (hop_modifier s) =? 0)
            then match foldl (merge_dr_entry vadd vsub vneg matmul_sc_lat_vec s'
                                orb_pos raw.1.1 raw.1.2)
                         (Ok (_init_dr fast s' orb_pos, []))
                         (hop_modifier s).*1 with
                 | Ok (dr, dr_new) => (s', Ok (dr ++ dr_new))
                 | Raise e => (s', Raise e)
                 end
            else (s', Ok (_init_dr fast s' orb_pos))) as ->.
  { unfold get_dr, bind. rewrite Hrun. rewrite get_orb_pos_state.
    rewrite Hidem. cbn [fst]. unfold get, ret, raise. rewrite Hm.
    fold orb_pos. unfold raw, raw_hop. fold fast.
    destruct (negb _); [|done]. unfold base.to_array. cbn [fst id].
    by destruct (foldl _ _ _) as [[??]|?]. }
  rewrite Hout. clear Hout.
  destruct (Z.eqb_spec (base.num_hop (hop_modifier s)) 0) as [Hz|Hnz];
    cbn [negb].
  - do 2 eexists. split_and!; [done..|]. cbn [fst snd].
    unfold base.num_hop in Hz.
    destruct (hop_modifier s); [|cbn [length] in Hz; lia].
    rewrite filter_nil, fmap_nil, app_nil_r. done.
  - destruct (merge_dr_fold s' orb_pos raw.1.1 raw.1.2 (hop_modifier s)
                (_init_dr fast s' orb_pos) [] Hrange)
      as (dr' & added & -> & Hl & Ha).
    do 2 eexists. split_and!; [done..|]. cbn [fst snd app].
    rewrite !length_app, length_fmap. lia.
Qed.

End DistanceModel.
End DistanceRows.

(** *** The constructor *)

Section Constructor.
Context `{PyHash}.

(** X1: a supercell the constructor returns is unlocked and carries the
    primitive cell, the dimension and the periodicity flags it was given,
    the latter two completed to three components; its hopping modifier is
    empty and its position modifier the given one.  Its vacancy list holds
    the given vacancies and no other, each of them valid and none twice,
    and without vacancies the arrays are those of the empty list. *)
Theorem SuperCell_init_state (pc : PrimitiveCell) (dims : list Z)
    (periodic : list bool) (vacancies : option (list id_pc_type))
    (modifier : option callable) (s : SuperCell) :
  SuperCell_init pc dims periodic vacancies modifier = Ok s →
  is_locked s = false ∧ prim_cell s = pc
  ∧ tuple3 (dim s) = (base.check_rn dims 1).1
  ∧ pbc s
    = np_array3 ((λ b : bool, if b then 1 else 0)
                   <$> (base.check_pbc periodic false).1)
  ∧ hop_modifier s = base.empty ∧ orb_pos_modifier s = modifier
  ∧ NoDup (vacancy_list s)
  ∧ Forall (valid_id_pc (dim s) (num_orb_pc s)) (vacancy_list s)
  ∧ (∀ v, v ∈ vacancy_list s ↔ v ∈ default [] vacancies)
  ∧ (vacancies = None → arrays_current s).
Proof.
  unfold SuperCell_init, OrbitalSet_init.
  destruct (base.check_rn dims 1) as [d legal] eqn:Hrn.
  destruct legal; cbn [negb]; [|done].
  destruct (check_dim_axes pc d [0; 1; 2]); [done|].
  destruct (base.check_pbc periodic false) as [p legal'] eqn:Hpbc.
  destruct legal'; cbn [negb]; [|done].
  set (s0 := mkSuperCell _ _ _ _ _ _ _ _ _ _ _).
  assert (tuple3 (np_array3 d) = d) as Hd.
  { unfold base.check_rn in Hrn.
    destruct dims as [|a [|b [|c [|? ?]]]]; by simplify_eq. }
  destruct vacancies as [vac|].
  - destruct (add_vacancies vac true false s0) as [s1 [[]|e]] eqn:Hadd; [|done].
    intros [= <-].
    assert ((add_vacancies vac true false s0).2 = Ok tt) as Hok
      by by rewrite Hadd.
    apply add_vacancies_result in Hok as [Hl Hvalid].
    destruct (add_vacancies_appends s0 vac true false Hl Hvalid)
      as (added & Hv & Hnd & Hin).
    destruct (add_vacancies_frame vac true false s0)
      as (F1 & F2 & F3 & F4 & F5 & F6).
    rewrite Hadd in Hv, F1, F2, F3, F4, F5, F6. cbn [fst] in *.
    cbn [is_locked prim_cell dim pbc hop_modifier orb_pos_modifier
         vacancy_list set_orb_pos_modifier_attr set_hop_modifier].
    unfold num_orb_sc, num_orb_pc.
    cbn [is_locked prim_cell dim pbc hop_modifier orb_pos_modifier
         vacancy_list set_orb_pos_modifier_attr set_hop_modifier].
    rewrite F1, F2, F3, F4, Hv. subst s0.
    cbn [is_locked prim_cell dim pbc vacancy_list app default].
    split_and!; try done.
    + apply Forall_forall. intros v Hv'. apply Hin in Hv' as [Hv' _].
      by apply (proj1 (Forall_forall _ _) Hvalid).
    + intros v. rewrite Hin. cbn. rewrite elem_of_nil. tauto.
  - intros [= <-]. subst s0.
    cbn [is_locked prim_cell dim pbc hop_modifier orb_pos_modifier
         vacancy_list set_orb_pos_modifier_attr set_hop_modifier default].
    unfold num_orb_sc, num_orb_pc.
    cbn [is_locked prim_cell dim pbc hop_modifier orb_pos_modifier
         vacancy_list set_orb_pos_modifier_attr set_hop_modifier length].
    split_and!; try done; try constructor.
Qed.

End Constructor.

(** *** Paths of k-points *)

Lemma num_points_cons (nk : Z) (l : list Z) :
  num_points (nk :: l) = (Z.to_nat nk + num_points l)%nat.
Proof. done. Qed.

Lemma num_points_app (l1 l2 : list Z) :
  num_points (l1 ++ l2) = (num_points l1 + num_points l2)%nat.
Proof.
  induction l1 as [|n l1 IH]; [done|].
  rewrite <- app_comm_cons, !num_points_cons, IH. lia.
Qed.

Section KPathPoints.
Context {kpoint : Type}.
Variable interpolate : kpoint → kpoint → Z → Z → kpoint.

Lemma segment_length (k0 k1 : kpoint) (nk : Z) :
  length (kpoints.segment interpolate k0 k1 nk) = Z.to_nat nk.
Proof. unfold kpoints.segment. by rewrite length_fmap, length_seqZ. Qed.

Lemma segment_lookup (k0 k1 : kpoint) (nk j : Z) :
  0 ≤ j < nk →
  kpoints.segment interpolate k0 k1 nk !! Z.to_nat j
  = Some (interpolate k0 k1 j nk).
Proof.
  intros Hj. unfold kpoints.segment. rewrite list_lookup_fmap.
  rewrite (proj2 (lookup_seqZ 0 nk (Z.to_nat j) j)) by lia. done.
Qed.

Lemma path_points_cons (k0 k1 : kpoint) (tl : list kpoint) (nk : Z)
    (rest : list Z) :
  path_points interpolate (k0 :: k1 :: tl) (nk :: rest)
  = kpoints.segment interpolate k0 k1 nk
    ++ path_points interpolate (k1 :: tl) rest.
Proof. done. Qed.

Lemma gen_kpath_loop_run (hs : list kpoint) (num_interp : list Z) (i : nat)
    (kpath : list kpoint) :
  length (drop i hs) = S (length num_interp) →
  kpoints.gen_kpath_loop interpolate hs (Z.of_nat i) num_interp kpath
  = Ok (kpath ++ path_points interpolate (drop i hs) num_interp).
Proof.
  revert i kpath. induction num_interp as [|nk rest IH]; intros i kpath Hlen.
  - cbn [kpoints.gen_kpath_loop].
    destruct (drop i hs) as [|k0 [|k1 ?]]; cbn [path_points];
      by rewrite app_nil_r.
  - destruct (drop i hs) as [|k0 [|k1 tl]] eqn:Hd; try done.
    cbn [kpoints.gen_kpath_loop]. rewrite path_points_cons.
    unfold kpoints.row.
    assert (hs !! i = Some k0) as H0.
    { rewrite <- (Nat.add_0_r i), <- lookup_drop. by rewrite Hd. }
    assert (hs !! S i = Some k1) as H1.
    { replace (S i) with (i + 1)%nat by lia. rewrite <- lookup_drop.
      by rewrite Hd. }
    assert (drop (S i) hs = k1 :: tl) as Hd'.
    { replace (S i) with (i + 1)%nat by lia. rewrite <- drop_drop, Hd. done. }
    rewrite Nat2Z.id, H0.
    replace (Z.of_nat i + 1) with (Z.of_nat (S i)) by lia.
    rewrite Nat2Z.id, H1. rewrite IH.
    + by rewrite Hd', <- app_assoc.
    + rewrite Hd'. cbn [length] in *. lia.
Qed.

Lemma path_points_length (hs : list kpoint) (num_interp : list Z) :
  length hs = S (length num_interp) →
  length (path_points interpolate hs num_interp) = num_points num_interp.
Proof.
  revert hs. induction num_interp as [|nk rest IH]; intros hs Hlen.
  - by destruct hs as [|k0 [|k1 ?]].
  - destruct hs as [|k0 [|k1 tl]]; try done. rewrite path_points_cons.
    rewrite length_app, segment_length, IH by (cbn [length] in *; lia).
    by rewrite num_points_cons.
Qed.

Lemma path_points_lookup (hs : list kpoint) (num_interp : list Z) (i : nat)
    (k0 k1 : kpoint) (nk j : Z) :
  length hs = S (length num_interp) →
  hs !! i = Some k0 → hs !! S i = Some k1 → num_interp !! i = Some nk →
  0 ≤ j < nk →
  path_points interpolate hs num_interp
    !! (num_points (take i num_interp) + Z.to_nat j)%nat
  = Some (interpolate k0 k1 j nk).
Proof.
  revert hs num_interp. induction i as [|i IH];
    intros hs num_interp Hlen H0 H1 Hnk Hj.
  - destruct hs as [|a [|b tl]]; destruct num_interp as [|n0 rest]; try done.
    cbn in H0, H1, Hnk. simplify_eq. rewrite path_points_cons. cbn [take].
    change (num_points []) with 0%nat.
    rewrite lookup_app_l by (rewrite segment_length; lia).
    by apply segment_lookup.
  - destruct num_interp as [|n0 rest]; [done|].
    destruct hs as [|a [|b tl]]; try done. rewrite path_points_cons.
    cbn [take]. rewrite num_points_cons.
    rewrite lookup_app_r by (rewrite segment_length; lia).
    rewrite segment_length.
    replace (Z.to_nat n0 + num_points (take i rest) + Z.to_nat j
             - Z.to_nat n0)%nat
      with (num_points (take i rest) + Z.to_nat j)%nat by lia.
    apply IH; try done. cbn [length] in *. lia.
Qed.

Lemma sum_to_num_points (num_interp : list Z) (n : nat) :
  Forall (λ nk, 0 ≤ nk) num_interp →
  kpoints.sum_to num_interp (Z.of_nat n)
  = Z.of_nat (num_points (take n num_interp)).
Proof.
  intros Hall. unfold kpoints.sum_to. rewrite Nat2Z.id.
  assert (Forall (λ nk, 0 ≤ nk) (take n num_interp)) as Ht
    by by apply Forall_take.
  generalize dependent (take n num_interp). clear. intros l Hl.
  cut (∀ a, foldl Z.add a l = a + Z.of_nat (num_points l)).
  { intros Hc. by rewrite Hc. }
  induction Hl as [|x l Hx _ IH]; intros a; [cbn; lia|].
  cbn [foldl]. rewrite IH, num_points_cons. lia.
Qed.

End KPathPoints.

Section KPathFacts.
Context {kpoint : Type}.
Variable interpolate : kpoint → kpoint → Z → Z → kpoint.

Lemma gen_kpath_run (hs : list kpoint) (num_interp : list Z) :
  length hs = S (length num_interp) →
  ∃ k, last hs = Some k
       ∧ kpoints.gen_kpath interpolate hs num_interp
         = Ok (path_points interpolate hs num_interp ++ [k],
               kpoints.sum_to num_interp
                 <$> seqZ 0 (Z.of_nat (length num_interp) + 1)).
Proof.
  intros Hlen. unfold kpoints.gen_kpath.
  rewrite (proj2 (Nat.eqb_eq _ _)) by lia. cbn [negb].
  change 0 with (Z.of_nat 0). rewrite gen_kpath_loop_run by done.
  cbn [drop app].
  destruct (last hs) as [k|] eqn:Hk.
  - by exists k.
  - apply last_None in Hk. by subst.
Qed.

(** X20: [gen_kpath] raises [ValueError] when [hs_kpoints] has not one row
    more than [num_interp] has entries and returns otherwise, never raising
    [IndexError]: the path has one point per interpolation step and one
    more, it ends on the last k-point given, and [hs_index] has one entry
    per k-point given. *)
Theorem gen_kpath_shape (hs_kpoints : list kpoint) (num_interp : list Z) :
  (length hs_kpoints ≠ S (length num_interp) →
   kpoints.gen_kpath interpolate hs_kpoints num_interp = Raise ValueError)
  ∧ (length hs_kpoints = S (length num_interp) →
     ∃ kpath hs_index,
       kpoints.gen_kpath interpolate hs_kpoints num_interp
       = Ok (kpath, hs_index)
       ∧ length kpath = S (num_points num_interp)
       ∧ length hs_index = length hs_kpoints
       ∧ last kpath = last hs_kpoints).
Proof.
  split.
  - intros Hlen. unfold kpoints.gen_kpath.
    rewrite (proj2 (Nat.eqb_neq _ _)) by lia. done.
  - intros Hlen. destruct (gen_kpath_run _ _ Hlen) as (k & Hk & ->).
    do 2 eexists. split_and!; [done| | |].
    + rewrite length_app, path_points_length by done. cbn [length]. lia.
    + rewrite length_fmap, length_seqZ. lia.
    + by rewrite last_snoc.
Qed.

(** X21: with non-negative numbers of steps, entry [i] of [hs_index] is the
    position in the path where segment [i] starts: the points from there on
    are the interpolations between the k-points [i] and [i+1].  The entries
    never decrease and the last one is the position of the last point of the
    path. *)
Theorem gen_kpath_segments (hs_kpoints : list kpoint) (num_interp : list Z)
    (kpath : list kpoint) (hs_index : list Z) :
  Forall (λ nk, 0 ≤ nk) num_interp →
  kpoints.gen_kpath interpolate hs_kpoints num_interp = Ok (kpath, hs_index) →
  (∀ i k0 k1 nk,
     hs_kpoints !! i = Some k0 → hs_kpoints !! S i = Some k1 →
     num_interp !! i = Some nk →
     ∃ start, hs_index !! i = Some start ∧ 0 ≤ start
              ∧ ∀ j, 0 ≤ j < nk →
                     kpath !! Z.to_nat (start + j)
                     = Some (interpolate k0 k1 j nk))
  ∧ hs_index !! length num_interp = Some (Z.of_nat (length kpath) - 1)
  ∧ (∀ i a b, hs_index !! i = Some a → hs_index !! S i = Some b → a ≤ b).
Proof.
  intros Hpos Hrun.
  destruct (decide (length hs_kpoints = S (length num_interp))) as [Hlen|Hlen].
  2: { unfold kpoints.gen_kpath in Hrun.
       by rewrite (proj2 (Nat.eqb_neq _ _)) in Hrun by lia. }
  destruct (gen_kpath_run _ _ Hlen) as (k & Hk & Heq).
  rewrite Heq in Hrun. injection Hrun as <- <-.
  assert (∀ i, (i ≤ length num_interp)%nat →
            (kpoints.sum_to num_interp
               <$> seqZ 0 (Z.of_nat (length num_interp) + 1)) !! i
            = Some (Z.of_nat (num_points (take i num_interp)))) as Hidx.
  { intros i Hi. rewrite list_lookup_fmap.
    rewrite (proj2 (lookup_seqZ 0 _ i (Z.of_nat i))) by lia. cbn [fmap option_fmap option_map].
    by rewrite sum_to_num_points. }
  split_and!.
  - intros i k0 k1 nk H0 H1 Hnk.
    pose proof (lookup_lt_Some _ _ _ Hnk) as Hi.
    exists (Z.of_nat (num_points (take i num_interp))).
    split_and!; [apply Hidx; lia|lia|].
    intros j Hj. rewrite lookup_app_l.
    + replace (Z.to_nat (Z.of_nat (num_points (take i num_interp)) + j))
        with (num_points (take i num_interp) + Z.to_nat j)%nat by lia.
      by apply path_points_lookup.
    + rewrite path_points_length by done.
      rewrite <- (take_drop_middle num_interp i nk Hnk) at 2.
      rewrite num_points_app, num_points_cons. lia.
  - rewrite Hidx by lia. rewrite firstn_all.
    rewrite length_app, path_points_length by done. cbn [length].
    f_equal. lia.
  - intros i a b Ha Hb.
    pose proof (lookup_lt_Some _ _ _ Hb) as Hi.
    rewrite length_fmap, length_seqZ in Hi.
    rewrite Hidx in Ha, Hb by lia. simplify_eq.
    destruct (lookup_lt_is_Some_2 num_interp i) as [nk Hnk]; [lia|].
    rewrite (take_S_r _ _ _ Hnk), num_points_app. lia.
Qed.

End KPathFacts.

(** *** Meshes of k-points *)

Lemma for_rows_Some {A B} (l : list A) (f : A → list B) :
  kpoints.for_rows l (λ x, Some (f x)) = Some (l ≫= f).
Proof.
  induction l as [|x l IH]; [done|]. cbn [kpoints.for_rows].
  rewrite IH. done.
Qed.

Lemma for_rows_ext {A B} (l : list A) (f g : A → option (list B)) :
  (∀ x, f x = g x) → kpoints.for_rows l f = kpoints.for_rows l g.
Proof.
  intros Hfg. induction l as [|x l IH]; [done|]. cbn [kpoints.for_rows].
  by rewrite Hfg, IH.
Qed.

Lemma bind_block_length {A B} (l : list A) (f : A → list B) (n : nat) :
  (∀ x, length (f x) = n) → length (l ≫= f) = (length l * n)%nat.
Proof.
  intros Hn. induction l as [|x l IH]; [done|].
  rewrite bind_cons, length_app, Hn, IH. cbn [length]. lia.
Qed.

Lemma bind_block_lookup {A B} (l : list A) (f : A → list B) (n i j : nat)
    (x : A) :
  (∀ x, length (f x) = n) → l !! i = Some x → (j < n)%nat →
  (l ≫= f) !! (i * n + j)%nat = f x !! j.
Proof.
  intros Hn. revert i. induction l as [|y l IH]; intros i Hi Hj; [done|].
  rewrite bind_cons. destruct i as [|i].
  - cbn in Hi. simplify_eq. rewrite lookup_app_l by (rewrite Hn; lia). done.
  - cbn in Hi. rewrite lookup_app_r by (rewrite Hn; lia). rewrite Hn.
    replace (S i * n + j - n)%nat with (i * n + j)%nat by lia. by apply IH.
Qed.

Section KMeshFacts.
Context {coord : Type}.
Variable linspace : Z → option (list coord).

(** X22: [gen_kmesh] raises [ValueError] unless [grid_size] has three
    components; when the three axes are sampled without error the mesh has
    one row per triple of samples, and the row of the samples number [ix],
    [iy] and [iz] is at position [(ix * len(ly) + iy) * len(lz) + iz]: the
    last axis varies fastest. *)
Theorem gen_kmesh_rows (grid_size : list Z) :
  (length grid_size ≠ 3%nat →
   kpoints.gen_kmesh linspace grid_size = inl kpoints.GridSizeLenError)
  ∧ (∀ na nb nc lx ly lz,
       grid_size = [na; nb; nc] →
       linspace na = Some lx → linspace nb = Some ly →
       linspace nc = Some lz →
       ∃ kmesh,
         kpoints.gen_kmesh linspace grid_size = inr kmesh
         ∧ length kmesh = (length lx * length ly * length lz)%nat
         ∧ ∀ ix iy iz kx ky kz,
             lx !! ix = Some kx → ly !! iy = Some ky → lz !! iz = Some kz →
             kmesh !! ((ix * length ly + iy) * length lz + iz)%nat
             = Some (kx, ky, kz)).
Proof.
  split.
  - intros Hlen. unfold kpoints.gen_kmesh.
    by rewrite (proj2 (Nat.eqb_neq _ _)) by done.
  - intros na nb nc lx ly lz -> Hx Hy Hz. unfold kpoints.gen_kmesh.
    cbn [length Nat.eqb negb nth]. unfold kpoints.for_axis at 1. rewrite Hx.
    rewrite (for_rows_ext lx _
               (λ kx, Some (ly ≫= λ ky, (λ kz, (kx, ky, kz)) <$> lz))).
    2: { intros kx. unfold kpoints.for_axis at 1. rewrite Hy.
         rewrite (for_rows_ext ly _ (λ ky, Some ((λ kz, (kx, ky, kz)) <$> lz))).
         - apply for_rows_Some.
         - intros ky. unfold kpoints.for_axis. rewrite Hz.
           rewrite for_rows_Some. f_equal. }
    rewrite for_rows_Some. eexists. split; [done|].
    assert (∀ kx ky : coord,
              length ((λ kz, (kx, ky, kz)) <$> lz) = length lz) as Hlz
      by (intros; apply length_fmap).
    assert (∀ kx : coord, length (ly ≫= λ ky, (λ kz, (kx, ky, kz)) <$> lz)
                  = (length ly * length lz)%nat) as Hly.
    { intros kx. by apply bind_block_length. }
    split.
    + rewrite (bind_block_length _ _ _ Hly). lia.
    + intros ix iy iz kx ky kz Hix Hiy Hiz.
      pose proof (lookup_lt_Some _ _ _ Hiy) as Hiy'.
      pose proof (lookup_lt_Some _ _ _ Hiz) as Hiz'.
      replace ((ix * length ly + iy) * length lz + iz)%nat
        with (ix * (length ly * length lz) + (iy * length lz + iz))%nat by lia.
      rewrite (bind_block_lookup lx _ _ ix _ kx Hly Hix) by nia.
      rewrite (bind_block_lookup ly _ _ iy _ ky (Hlz kx) Hiy) by lia.
      by rewrite list_lookup_fmap, Hiz.
Qed.

End KMeshFacts.

(** *** Closed instances *)

(** Discharges the validity of the rows of a closed batch. *)
Ltac valid_rows :=
  repeat (constructor; [unfold valid_id_pc; split_and!; by vm_compute|]);
  constructor.

Lemma chain4_vac_wf : wf chain4_vac.
Proof. apply add_vacancies_wf, chain4_wf. Qed.

Lemma chain4_sound : hash_sound (H := example_hash) chain4.
Proof. right. by vm_compute. Qed.

Lemma chain4_vac_sound : hash_sound (H := example_hash) chain4_vac.
Proof. right. by vm_compute. Qed.

Lemma SuperCell_init_state_witness :
  is_locked chain4 = false ∧ hop_modifier chain4 = base.empty
  ∧ arrays_current chain4.
Proof.
  assert (SuperCell_init (H := example_hash) chain [4; 1; 1]
            [false; false; false] None None = Ok chain4) as Hinit
    by (vm_compute; reflexivity).
  destruct (SuperCell_init_state (H := example_hash) _ _ _ _ _ _ Hinit)
    as (Hl & _ & _ & _ & Hm & _ & _ & _ & _ & Hcur).
  split_and!; [exact Hl|exact Hm|]. by apply Hcur.
Defined.

Lemma calls_keep_vacancies_valid_witness :
  NoDup (vacancy_list (state_after_calls (H := example_hash) example_calls
                         chain4))
  ∧ 0 ≤ num_orb_sc (state_after_calls (H := example_hash) example_calls chain4).
Proof.
  assert (SuperCell_init (H := example_hash) chain [4; 1; 1]
            [false; false; false] None None = Ok chain4) as Hinit
    by (vm_compute; reflexivity).
  assert (0 ≤ num_orb chain) as Hn by (cbn; lia).
  destruct (calls_keep_vacancies_valid (H := example_hash) chain [4; 1; 1]
              [false; false; false] None None chain4 example_calls Hn Hinit)
    as (_ & Hnd & Hlo & _).
  by split.
Defined.

Lemma locked_calls_frame_witness :
  is_locked (state_after_calls (H := example_hash)
               [call_add_hopping [1; 0; 0] 0 2 (Complex 1 0); call_trim;
                call_set_vacancies [] true false] chain4_locked) = true.
Proof.
  assert (is_locked chain4_locked = true) as Hl by (vm_compute; reflexivity).
  exact (proj1 (locked_calls_frame (H := example_hash) _ chain4_locked Hl)).
Defined.

Lemma _check_id_pc_first_axis_witness :
  (_check_id_pc [0; 5; 0; 0] chain4).2 = Raise (IDPCIndexError 1 [0; 5; 0; 0]).
Proof.
  destruct (_check_id_pc_first_axis (H := example_hash) chain4 [0; 5; 0; 0])
    as (_ & _ & _ & Haxis & _).
  apply Haxis; [reflexivity|lia| |].
  - intros [_ Hlt]. by vm_compute in Hlt.
  - intros j Hj. assert (j = 0) as -> by lia. split; by vm_compute.
Defined.

Lemma add_vacancies_valid_witness :
  (add_vacancies (H := example_hash) [[0; 0; 0; 1]; [3; 0; 0; 0]; [0; 0; 0; 1]]
     true false chain4).2 = Ok tt.
Proof.
  refine (proj1 (add_vacancies_valid (H := example_hash) chain4
                   [[0; 0; 0; 1]; [3; 0; 0; 0]; [0; 0; 0; 1]] true false
                   _ _)).
  - reflexivity.
  - valid_rows.
Defined.

Lemma add_vacancies_again_witness :
  vacancy_list
    (add_vacancies (H := example_hash) [[0; 0; 0; 1]] true false
       (add_vacancies (H := example_hash) [[0; 0; 0; 1]] true false chain4).1).1
  = vacancy_list
      (add_vacancies (H := example_hash) [[0; 0; 0; 1]] true false chain4).1.
Proof.
  refine (proj2 (add_vacancies_again (H := example_hash) chain4 [[0; 0; 0; 1]]
                   true false true false _)).
  vm_compute. reflexivity.
Defined.

Lemma set_vacancies_valid_witness :
  vacancy_list (set_vacancies (H := example_hash) [[1; 0; 0; 0]] true false
                  chain4_vac).1 = [[1; 0; 0; 0]].
Proof.
  destruct (set_vacancies_valid (H := example_hash) chain4_vac [[1; 0; 0; 0]]
              true false) as (_ & _ & _ & Heq).
  - vm_compute. reflexivity.
  - valid_rows.
  - apply Heq. apply NoDup_singleton.
Defined.

Lemma set_vacancies_invalid_witness :
  (set_vacancies (H := example_hash) ([[1; 0; 0; 0]] ++ [9; 0; 0; 0] :: [])
     true false chain4_vac).2
  = Raise (VacIDPCIndexError 0 [9; 0; 0; 0])
  ∧ ∀ v, v ∈ vacancy_list
               (set_vacancies (H := example_hash)
                  ([[1; 0; 0; 0]] ++ [9; 0; 0; 0] :: []) true false
                  chain4_vac).1
         ↔ v ∈ [[1; 0; 0; 0]].
Proof.
  destruct (set_vacancies_invalid (H := example_hash) chain4_vac [[1; 0; 0; 0]]
              [9; 0; 0; 0] [] (IDPCIndexError 0 [9; 0; 0; 0]) true false)
    as (Hr & _ & Hin).
  - vm_compute. reflexivity.
  - valid_rows.
  - vm_compute. reflexivity.
  - split; [|exact Hin]. by rewrite Hr.
Defined.

Lemma sync_array_vacancy_arrays_witness :
  ∃ vs, vac_id_sc (sync_array (H := example_hash) true chain4_vac).1 = Some vs
        ∧ StronglySorted Z.lt vs.
Proof.
  destruct (sync_array_vacancy_arrays (H := example_hash) chain4_vac true)
    as [_ Hne]; [by left|].
  destruct Hne as (vp & vs & _ & Hvs & _ & _ & _ & Hlt); [by vm_compute|].
  exists vs. split; [exact Hvs|]. apply Hlt, chain4_vac_wf.
Defined.

Lemma queries_only_sync_witness :
  (sync_array (H := example_hash) false chain4).1 = chain4.
Proof.
  destruct (queries_only_sync (H := example_hash) chain4)
    as (_ & _ & _ & _ & _ & _ & _ & _ & _ & _ & Hsame).
  apply Hsame. vm_compute. reflexivity.
Defined.

Lemma orb_id_pc2sc_valid_witness :
  ∃ i, orb_id_pc2sc (H := example_hash) [1; 0; 0; 0] chain4_vac
       = ((sync_array (H := example_hash) false chain4_vac).1, Ok i)
       ∧ orb_id_sc2pc (H := example_hash) i chain4_vac
         = ((sync_array (H := example_hash) false chain4_vac).1,
            Ok [1; 0; 0; 0]).
Proof.
  destruct (orb_id_pc2sc_valid (H := example_hash) chain4_vac [1; 0; 0; 0]
              chain4_vac_wf chain4_vac_sound) as [_ Hlive].
  - unfold valid_id_pc. split_and!; by vm_compute.
  - destruct Hlive as (i & _ & Hi & Hback).
    + apply (bool_decide_unpack _). by vm_compute.
    + by exists i.
Defined.

Lemma array_variants_agree_witness :
  ∃ id_pc_array,
    orb_id_sc2pc_array (H := example_hash) [0; 5; 2] chain4_vac
    = ((sync_array (H := example_hash) false chain4_vac).1, Ok id_pc_array).
Proof.
  destruct (array_variants_agree (H := example_hash) chain4_vac chain4_vac_wf
              chain4_vac_sound) as [Hsc _].
  destruct (Hsc [0; 5; 2]) as (rows & Hrows & _).
  - repeat (constructor; [by vm_compute|]). constructor.
  - by exists rows.
Defined.

Lemma orb_id_sc2pc_negative_witness :
  orb_id_sc2pc (H := example_hash) (-1) chain4_vac
  = orb_id_sc2pc (H := example_hash) (num_orb_sc chain4_vac + -1) chain4_vac
  ∧ orb_id_sc2pc_array (H := example_hash) [-1] chain4_vac
    = ((sync_array (H := example_hash) false chain4_vac).1,
       Raise (IDSCIndexError (-1))).
Proof.
  destruct (orb_id_sc2pc_negative (H := example_hash) chain4_vac (-1)
              chain4_vac_wf chain4_vac_sound) as [Hneg _].
  destruct Hneg as (_ & Hsame & Harr); [by vm_compute|]. by split.
Defined.

Lemma get_hop_keeps_unnamed_witness :
  ∃ out, get_hop (H := example_hash) None chain4_one
         = ((sync_array (H := example_hash) false chain4_one).1, Ok out)
         ∧ out.2 !! 0%nat = Some (Complex 1 0).
Proof.
  destruct (get_hop_keeps_unnamed (H := example_hash) None chain4_one 0 1 2)
    as (out & Hout & _ & Hv).
  - by vm_compute.
  - exists out. split; [exact Hout|]. rewrite Hv; [by vm_compute|].
    repeat (constructor; [intros [[? ?]|[? ?]]; discriminate|]). constructor.
Defined.

Lemma get_hop_reads_modifier_witness :
  ∃ out m, get_hop (H := example_hash) None chain4_one
           = ((sync_array (H := example_hash) false chain4_one).1, Ok out)
           ∧ pair_at out.1.1 out.1.2 0 2 m ∧ out.2 !! m = Some (Complex 1 1).
Proof.
  destruct (get_hop_reads_modifier (H := example_hash) None chain4_one [] []
              (HopInd (Vec3 0 0 0) 0 2, Complex 1 1))
    as (out & Hout & _ & _ & Hnew).
  - by vm_compute.
  - constructor.
  - destruct Hnew as (m & _ & Hm & Hv).
    + intros n [Hi Hj]. vm_compute in Hi, Hj.
      destruct n as [|[|[|[|n]]]]; simplify_eq.
    + intros n [Hi Hj]. vm_compute in Hi, Hj.
      destruct n as [|[|[|[|n]]]]; simplify_eq.
    + by exists out, m.
Defined.

Lemma get_dr_aligned_witness :
  ∃ dr out,
    get_dr (H := example_hash) Z.add Z.sub Z.opp (λ _ _, 0) example_orb_pos
      example_init_dr None chain4_one
    = ((sync_array (H := example_hash) false chain4_one).1, Ok dr)
    ∧ get_hop (H := example_hash) None chain4_one
      = ((sync_array (H := example_hash) false chain4_one).1, Ok out)
    ∧ length dr = length out.1.1.
Proof.
  apply (get_dr_aligned (H := example_hash) Z.add Z.sub Z.opp (λ _ _, 0)
           example_orb_pos example_init_dr None chain4_one).
  - repeat (constructor; [split; by vm_compute|]). constructor.
  - by vm_compute.
Defined.

Lemma trim_adds_dangling_witness :
  (trim (H := example_hash) chain4).2 = Ok tt
  ∧ vacancy_list (trim (H := example_hash) chain4).1
    = [[0; 0; 0; 0]; [3; 0; 0; 1]].
Proof.
  destruct (trim_adds_dangling (H := example_hash) chain4 chain4_wf chain4_sound)
    as (Hok & Hv & _); [reflexivity|].
  split; [exact Hok|]. rewrite Hv. by vm_compute.
Defined.

Lemma cutoff_sc_vacancies_witness :
  (cutoff_sc (H := example_hash) example_orb_pos (λ x, 3 <? x) chain4_vac).2
  = Ok tt
  ∧ vacancy_list
      (cutoff_sc (H := example_hash) example_orb_pos (λ x, 3 <? x)
         chain4_vac).1 = [[2; 0; 0; 1]; [3; 0; 0; 0]]
  ∧ ∀ p, p ∈ vacancy_list chain4_vac
         → p ∉ vacancy_list
                 (cutoff_sc (H := example_hash) example_orb_pos (λ x, 3 <? x)
                    chain4_vac).1.
Proof.
  destruct (cutoff_sc_vacancies (H := example_hash) example_orb_pos
              (λ x, 3 <? x) chain4_vac chain4_vac_wf chain4_vac_sound)
    as (Hok & Hv & Hold & _).
  - reflexivity.
  - vm_compute. reflexivity.
  - split; [exact Hok|]. split.
    + rewrite Hv. vm_compute. reflexivity.
    + intros p Hp. rewrite Hv. exact (Hold p Hp).
Defined.

Lemma gen_kpath_shape_witness :
  ∃ kpath hs_index,
    kpoints.gen_kpath example_interpolate [0; 10; 20] [2; 3]
    = Ok (kpath, hs_index)
    ∧ length kpath = 6%nat ∧ length hs_index = 3%nat.
Proof.
  destruct (gen_kpath_shape example_interpolate [0; 10; 20] [2; 3])
    as [_ Hok].
  destruct Hok as (kpath & hs_index & Hrun & Hl & Hi & _); [reflexivity|].
  by exists kpath, hs_index.
Defined.

Lemma gen_kpath_segments_witness :
  [0; 2; 5] !! 1%nat = Some 2
  ∧ [0; 1; 30; 31; 32; 20] !! Z.to_nat (2 + 1)
    = Some (example_interpolate 10 20 1 3).
Proof.
  destruct (gen_kpath_segments example_interpolate [0; 10; 20] [2; 3]
              [0; 1; 30; 31; 32; 20] [0; 2; 5]) as (Hseg & _).
  - repeat (constructor; [lia|]). constructor.
  - by vm_compute.
  - destruct (Hseg 1%nat 10 20 3) as (start & Hs & _ & Hpts); [done..|].
    split; [done|]. injection Hs as <-. apply Hpts. lia.
Defined.

Lemma gen_kmesh_rows_witness :
  ∃ kmesh,
    kpoints.gen_kmesh example_linspace [2; 1; 3] = inr kmesh
    ∧ length kmesh = 6%nat ∧ kmesh !! 5%nat = Some (1, 0, 2).
Proof.
  destruct (gen_kmesh_rows example_linspace [2; 1; 3]) as [_ Hrows].
  destruct (Hrows 2 1 3 [0; 1] [0] [0; 1; 2]) as (kmesh & Hrun & Hl & Hrow);
    [reflexivity..|].
  exists kmesh. split_and!; [exact Hrun|exact Hl|].
  by apply (Hrow 1%nat 0%nat 2%nat).
Defined.

(** ** Conjugate pairs in the arrays of [get_hop] *)

(** *** Lists of pairs without transposed entries *)

Lemma conj_pair_free_zip (hop_i hop_j : list Z) :
  conj_pair_free hop_i hop_j ↔ pairs_free (zip hop_i hop_j).
Proof.
  assert (Hz : ∀ k x y, zip hop_i hop_j !! k = Some (x, y)
                        ↔ pair_at hop_i hop_j x y k).
  { intros k x y. unfold pair_at. rewrite lookup_zip_with_Some. split.
    - by intros (x' & y' & [= -> ->] & ? & ?).
    - intros [? ?]. by exists x, y. }
  unfold conj_pair_free, pairs_free. split.
  - intros Hf k m x y Hkm Hk%Hz Hm%Hz. by apply (Hf k m x y).
  - intros Hf k m x y Hkm Hk%Hz Hm%Hz. by apply (Hf k m x y).
Qed.

Lemma pairs_free_cons (a : Z * Z) (l : list (Z * Z)) :
  pairs_free (a :: l) ↔ ((a.2, a.1) ∉ l) ∧ pairs_free l.
Proof.
  destruct a as [x y]. cbn [fst snd]. split.
  - intros Hf. split.
    + intros [m Hm]%list_elem_of_lookup. by apply (Hf 0%nat (S m) x y).
    + intros k m a b Hkm Hk Hm. apply (Hf (S k) (S m) a b); [lia|done..].
  - intros [Hnot Hf] [|k] [|m] a b Hkm Hk Hm; cbn in Hk, Hm; simplify_eq.
    + apply Hnot. by apply list_elem_of_lookup_2 in Hm.
    + apply Hnot. by apply list_elem_of_lookup_2 in Hk.
    + apply (Hf k m a b); [lia|done..].
Qed.

Lemma pairs_free_app (l1 l2 : list (Z * Z)) :
  pairs_free l1 → pairs_free l2 →
  (∀ x y, (x, y) ∈ l1 → (y, x) ∈ l2 → False) →
  pairs_free (l1 ++ l2).
Proof.
  induction l1 as [|a l1 IH]; intros H1 H2 Hcross; [done|].
  apply pairs_free_cons in H1 as [Hnot H1]. cbn [app].
  apply pairs_free_cons. split.
  - rewrite elem_of_app. intros [?|Hin]; [done|].
    destruct a as [x y]. apply (Hcross x y); [by left|done].
  - apply IH; [done..|]. intros x y Hin. apply Hcross. by right.
Qed.

Lemma pairs_free_bind {A} (f : A → list (Z * Z)) (l : list A) :
  (∀ t, t ∈ l → pairs_free (f t)) →
  (∀ m1 m2 t1 t2 x y, m1 ≠ m2 → l !! m1 = Some t1 → l !! m2 = Some t2 →
     (x, y) ∈ f t1 → (y, x) ∈ f t2 → False) →
  pairs_free (l ≫= f).
Proof.
  induction l as [|t l IH]; intros Hone Hcross; [done|].
  rewrite bind_cons. apply pairs_free_app.
  - apply Hone. by left.
  - apply IH.
    + intros t' Ht'. apply Hone. by right.
    + intros m1 m2 t1 t2 x y Hm H1 H2.
      apply (Hcross (S m1) (S m2) t1 t2 x y); [lia|done..].
  - intros x y Hx (t2 & Hy & [m Hm]%list_elem_of_lookup)%list_elem_of_bind.
    by apply (Hcross 0%nat (S m) t t2 x y).
Qed.

Lemma pairs_free_Permutation (l1 l2 : list (Z * Z)) :
  l1 ≡ₚ l2 → pairs_free l1 → pairs_free l2.
Proof.
  induction 1 as [|a l1 l2 Hp IH|a b l|l1 l2 l3 _ IH1 _ IH2]; [done| | |auto].
  - rewrite !pairs_free_cons. intros [Hnot Hf]. split; [|by apply IH].
    by rewrite <- Hp.
  - rewrite !pairs_free_cons, !elem_of_cons.
    intros (Hb & Ha & Hf). split_and!; [|tauto|done].
    intros [Heq|?]; [|tauto]. apply Hb. left.
    destruct a, b. cbn [fst snd] in *. by simplify_eq.
Qed.

Lemma omap_fmap_sublist {A B C} (g : A → option B) (h : B → C) (k : A → C)
    (l : list A) :
  (∀ a b, g a = Some b → h b = k a) → h <$> omap g l `sublist_of` k <$> l.
Proof.
  intros Hg. induction l as [|a l IH]; [done|]. cbn [omap list_omap].
  rewrite fmap_cons. destruct (g a) as [b|] eqn:Ha.
  - rewrite fmap_cons, (Hg a b Ha). by apply sublist_skip.
  - by apply sublist_cons.
Qed.

Lemma max_abs_rn_ge (pc : PrimitiveCell) (i : Z) (r : hop_ind_row) :
  r ∈ hop_ind pc → Z.abs (item (h_rn r) i) ≤ max_abs_rn pc i.
Proof.
  unfold max_abs_rn, hop_ind_column. induction (hop_ind pc) as [|r' l IH].
  { by intros ?%elem_of_nil. }
  intros [->|Hin]%elem_of_cons; cbn; [lia|]. specialize (IH Hin). lia.
Qed.

(** *** Transposed terms of the general algorithm *)

Lemma wrap_axis_back (pbc_i dim_i a b r1 r2 : Z) :
  0 ≤ a < dim_i →
  core.wrap_axis pbc_i dim_i (a + r1) = Some b →
  core.wrap_axis pbc_i dim_i (b + r2) = Some a →
  pbc_i = 0 ∨ 2 * Z.abs r1 + 1 ≤ dim_i →
  pbc_i = 0 ∨ 2 * Z.abs r2 + 1 ≤ dim_i →
  r1 = - r2.
Proof.
  intros Ha. unfold core.wrap_axis, in_range.
  destruct (Z.eqb_spec pbc_i 0) as [Hp|Hp].
  - repeat case_match; intros [= <-] [= Hb]; lia.
  - intros [= <-] [= Hb] [?|H1] [?|H2]; try done.
    rewrite Zplus_mod_idemp_l in Hb.
    pose proof (Z.div_mod (a + r1 + r2) dim_i ltac:(lia)) as Hdiv.
    rewrite Hb in Hdiv.
    assert (r1 + r2 = dim_i * ((a + r1 + r2) / dim_i)) as Hk by lia.
    assert ((a + r1 + r2) / dim_i = 0) by nia. lia.
Qed.

Lemma wrap_axis_zero (pbc_i dim_i a : Z) :
  0 ≤ a < dim_i → core.wrap_axis pbc_i dim_i (a + 0) = Some a.
Proof.
  intros Ha. unfold core.wrap_axis, in_range. rewrite Z.add_0_r.
  destruct (pbc_i =? 0).
  - by rewrite (proj2 (Z.leb_le 0 a)), (proj2 (Z.ltb_lt a dim_i)) by lia.
  - by rewrite Z.mod_small.
Qed.

Section Transposed.
Variables (d pbc : vec3) (n : Z) (orb : list id_pc_type) (vac : option (list Z)).
Hypothesis Hlook : ∀ i p, orb !! i = Some p →
  valid_id_pc d n p ∧ core.id_pc2sc d n p vac = Z.of_nat i.
Hypothesis Hlive : ∀ p, valid_id_pc d n p → core.id_pc2sc d n p vac ≠ -1 →
  ∃ i, orb !! i = Some p.

#[local] Abbreviation emit := (core.emit_term d pbc n orb vac).

(** The rooms a term needs along the three axes. *)
#[local] Abbreviation wide t :=
  ((v0 pbc = 0 ∨ 2 * Z.abs (v0 (h_rn t)) + 1 ≤ v0 d)
   ∧ (v1 pbc = 0 ∨ 2 * Z.abs (v1 (h_rn t)) + 1 ≤ v1 d)
   ∧ (v2 pbc = 0 ∨ 2 * Z.abs (v2 (h_rn t)) + 1 ≤ v2 d)).

Lemma elem_of_emit_term_orb (t : hop_ind_row * complex) (x y : Z) (v : complex) :
  0 ≤ h_ket t.1 < n → (x, y, v) ∈ emit t →
  ∃ i j p q, x = Z.of_nat i ∧ y = Z.of_nat j
    ∧ orb !! i = Some p ∧ orb !! j = Some q
    ∧ getitem p 3 = h_bra t.1
    ∧ core.dest_id_pc d pbc p (h_rn t.1) (h_ket t.1) = Some q.
Proof.
  intros Hket. unfold core.emit_term.
  intros ([k p] & [i Hi]%list_elem_of_lookup & Hf)%list_elem_of_omap.
  apply enumerate_lookup in Hi as [-> Hp]. cbn [fst snd] in Hf.
  destruct (Z.eqb_spec (getitem p 3) (h_bra t.1)) as [Hb|]; [|done].
  destruct (core.dest_id_pc _ _ _ _ _) as [q|] eqn:Hq; [|done].
  cbn in Hf. destruct (Z.eqb_spec (core.id_pc2sc d n q vac) (-1)) as [|Hne];
    [done|].
  injection Hf as <- <- <-.
  destruct (Hlook i p Hp) as [Hpv _].
  destruct (dest_id_pc_Some d pbc n p q _ _ Hpv Hket Hq) as [Hqv _].
  destruct (Hlive q Hqv Hne) as [j Hj].
  exists i, j, p, q. split_and!; try done.
  by destruct (Hlook j q Hj) as [_ ->].
Qed.

Lemma emit_firsts_NoDup (t : hop_ind_row * complex) :
  NoDup (emit t).*1.*1.
Proof.
  unfold core.emit_term.
  eapply sublist_NoDup; [|rewrite <- list_fmap_compose;
    apply (omap_fmap_sublist _ _ fst)].
  - unfold core.enumerate. rewrite fst_zip by (rewrite length_seqZ; lia).
    apply NoDup_seqZ.
  - intros [k p] b Hf. cbn [fst snd] in Hf. unfold compose.
    destruct (getitem p 3 =? h_bra t.1); [|done].
    destruct (core.dest_id_pc _ _ _ _ _); [|done]. cbn in Hf.
    destruct (_ =? -1); [done|]. by injection Hf as <-.
Qed.

Lemma dest_id_pc_inv (p q : id_pc_type) (rn : vec3) (ket : Z) :
  core.dest_id_pc d pbc p rn ket = Some q →
  core.wrap_axis (v0 pbc) (v0 d) (getitem p 0 + v0 rn) = Some (getitem q 0)
  ∧ core.wrap_axis (v1 pbc) (v1 d) (getitem p 1 + v1 rn) = Some (getitem q 1)
  ∧ core.wrap_axis (v2 pbc) (v2 d) (getitem p 2 + v2 rn) = Some (getitem q 2)
  ∧ getitem q 3 = ket.
Proof.
  unfold core.dest_id_pc.
  destruct (core.wrap_axis (v0 pbc) _ _) as [a'|]; [|done].
  destruct (core.wrap_axis (v1 pbc) _ _) as [b'|]; [|done].
  destruct (core.wrap_axis (v2 pbc) _ _) as [c'|]; [|done].
  cbn. by intros [= <-].
Qed.

(** Two terms that emit a pair and its transpose are each other's
    conjugate. *)
Lemma emit_transposed (t1 t2 : hop_ind_row * complex) (x y : Z)
    (w1 w2 : complex) :
  0 ≤ h_ket t1.1 < n → 0 ≤ h_ket t2.1 < n → wide t1.1 → wide t2.1 →
  (x, y, w1) ∈ emit t1 → (y, x, w2) ∈ emit t2 →
  conjugate_keys t1.1 t2.1.
Proof.
  intros Hk1 Hk2 (A1 & B1 & C1) (A2 & B2 & C2).
  intros (i & j & p & q & -> & -> & Hp & Hq & Hb1 & Hd1)%elem_of_emit_term_orb;
    [|done].
  intros (j' & i' & q' & p' & Hj & Hi & Hq' & Hp' & Hb2 & Hd2)%elem_of_emit_term_orb;
    [|done].
  apply Nat2Z.inj in Hj, Hi. subst j' i'. simplify_eq.
  destruct (Hlook i p Hp) as [(_ & Ha & Hb & Hc & _) _].
  apply dest_id_pc_inv in Hd1 as (Ea & Eb & Ec & Ek1).
  apply dest_id_pc_inv in Hd2 as (Fa & Fb & Fc & Fk2).
  unfold conjugate_keys. split_and!.
  - by apply (wrap_axis_back (v0 pbc) (v0 d) (getitem p 0) (getitem q 0)).
  - by apply (wrap_axis_back (v1 pbc) (v1 d) (getitem p 1) (getitem q 1)).
  - by apply (wrap_axis_back (v2 pbc) (v2 d) (getitem p 2) (getitem q 2)).
  - congruence.
  - congruence.
Qed.

(** A term that is its own conjugate couples an orbital to itself. *)
Lemma emit_self_conjugate (t : hop_ind_row * complex) (x y : Z) (w : complex) :
  0 ≤ h_ket t.1 < n → conjugate_keys t.1 t.1 → (x, y, w) ∈ emit t → x = y.
Proof.
  intros Hk (R0 & R1 & R2 & Hbk & _).
  intros (i & j & p & q & -> & -> & Hp & Hq & Hb & Hd)%elem_of_emit_term_orb;
    [|done].
  destruct (Hlook i p Hp) as [Hpv Hi]. destruct (Hlook j q Hq) as [_ Hj].
  assert (q = p) as ->; [|lia].
  destruct (valid_id_pc_inv d n p Hpv) as (a & b & c & o & -> & Ha & Hb' & Hc & Ho).
  unfold core.dest_id_pc in Hd.
  change (getitem [a; b; c; o] 0) with a in Hd.
  change (getitem [a; b; c; o] 1) with b in Hd.
  change (getitem [a; b; c; o] 2) with c in Hd.
  change (getitem [a; b; c; o] 3) with o in Hb.
  replace (v0 (h_rn t.1)) with 0 in Hd by lia.
  replace (v1 (h_rn t.1)) with 0 in Hd by lia.
  replace (v2 (h_rn t.1)) with 0 in Hd by lia.
  rewrite !wrap_axis_zero in Hd by done. cbn in Hd. injection Hd as <-.
  congruence.
Qed.

(** The raw arrays of the general algorithm hold no two transposed
    entries. *)
Lemma emit_pairs_free (terms : list (hop_ind_row * complex)) :
  Forall (λ t, 0 ≤ h_ket t.1 < n ∧ wide t.1) terms →
  (∀ m1 m2 t1 t2, m1 ≠ m2 → terms !! m1 = Some t1 → terms !! m2 = Some t2 →
     ¬ conjugate_keys t1.1 t2.1) →
  pairs_free (terms ≫= emit).*1.
Proof.
  intros Hall Hred. rewrite list_bind_fmap_r.
  rewrite Forall_forall in Hall. apply pairs_free_bind.
  - intros t [Hk Hw]%Hall k m x y Hkm Hx Hy.
    pose proof Hx as Hx'. pose proof Hy as Hy'.
    apply list_elem_of_lookup_2, list_elem_of_fmap in Hx'
      as ([[x1 y1] w1] & Heq1 & H1).
    apply list_elem_of_lookup_2, list_elem_of_fmap in Hy'
      as ([[y2 x2] w2] & Heq2 & H2).
    cbn [fst snd] in Heq1, Heq2.
    injection Heq1 as <- <-. injection Heq2 as <- <-.
    pose proof (emit_transposed t t x y w1 w2 Hk Hk Hw Hw H1 H2) as Hself.
    pose proof (emit_self_conjugate t x y w1 Hk Hself H1) as <-.
    apply Hkm. apply (NoDup_lookup _ k m x (emit_firsts_NoDup t)).
    + by rewrite list_lookup_fmap, Hx.
    + by rewrite list_lookup_fmap, Hy.
  - intros m1 m2 t1 t2 x y Hm H1 H2.
    intros ([[x1 y1] w1] & Heq1 & Hx)%list_elem_of_fmap.
    intros ([[y2 x2] w2] & Heq2 & Hy)%list_elem_of_fmap.
    cbn [fst snd] in Heq1, Heq2.
    injection Heq1 as <- <-. injection Heq2 as <- <-.
    destruct (Hall t1 (list_elem_of_lookup_2 _ _ _ H1)) as [Hk1 Hw1].
    destruct (Hall t2 (list_elem_of_lookup_2 _ _ _ H2)) as [Hk2 Hw2].
    apply (Hred m1 m2 t1 t2 Hm H1 H2).
    by apply (emit_transposed t1 t2 x y w1 w2).
Qed.

End Transposed.

Lemma zip_unzip3 {A B C} (l : list (A * B * C)) :
  zip (core.unzip3 l).1.1 (core.unzip3 l).1.2 = l.*1.
Proof. unfold core.unzip3. cbn [fst snd]. apply zip_fst_snd. Qed.

Section ConjugatePairs.
Context `{PyHash}.

(** The raw arrays hold no two transposed entries. *)
Lemma raw_hop_pair_free (use_fast : option bool) (s : SuperCell) :
  wf s → hash_sound s → table_ok s → table_reduced s → roomy s →
  (use_fast = Some true → vacancy_list s = []) →
  let raw := raw_hop use_fast (sync_array false s).1 in
  conj_pair_free raw.1.1 raw.1.2.
Proof.
  intros Hwf Hsound Hok Hred Hroomy Hfast raw.
  set (s' := (sync_array false s).1) in *.
  destruct (synced_view s Hwf Hsound)
    as (_ & Hd & Hn & Hv & _ & _ & _ & Hlook & Hvac).
  destruct (sync_array_attrs false s) as (_ & _ & Hp & _ & Hpbc & _).
  fold s' in Hd, Hn, Hv, Hlook, Hvac, Hp, Hpbc.
  assert (Hwf' : wf s') by (by apply wf_sync_array).
  assert (Hok' : table_ok s').
  { unfold table_ok, pc_hop_ind, num_orb_pc in *. by rewrite Hp. }
  assert (Hfree : pairs_free
            (pc_terms s' ≫= core.emit_term (dim s') (pbc s') (num_orb_pc s')
                              (orb_id_pc s') (vac_id_sc s')).*1).
  { apply emit_pairs_free.
    - intros i p Hi. destruct (Hlook i p Hi) as (Hpv & _ & Hid).
      rewrite Hd, Hn. done.
    - intros p Hpv Hne. rewrite Hd, Hn in Hpv, Hne.
      pose proof (Hvac p Hpv) as Hcase.
      destruct (decide (p ∈ vacancy_list s)); [done|exact Hcase].
    - apply Forall_forall. intros t Ht.
      destruct (table_ok_terms s' t Hok' Ht) as [_ Hk]. split; [done|].
      assert (t.1 ∈ hop_ind (prim_cell s)) as Hin.
      { unfold pc_terms, pc_hop_ind in Ht. rewrite Hp in Ht.
        destruct t as [r e]. by apply elem_of_zip_l in Ht. }
      rewrite Hd, Hpbc.
      pose proof (max_abs_rn_ge (prim_cell s) 0 t.1 Hin) as M0.
      pose proof (max_abs_rn_ge (prim_cell s) 1 t.1 Hin) as M1.
      pose proof (max_abs_rn_ge (prim_cell s) 2 t.1 Hin) as M2.
      change (item (h_rn t.1) 0) with (v0 (h_rn t.1)) in M0.
      change (item (h_rn t.1) 1) with (v1 (h_rn t.1)) in M1.
      change (item (h_rn t.1) 2) with (v2 (h_rn t.1)) in M2.
      split_and!.
      + destruct (Hroomy 0) as [?|?]; [by left|by left|right].
        change (item (dim s) 0) with (v0 (dim s)) in *. lia.
      + destruct (Hroomy 1) as [?|?]; [right; by left|by left|right].
        change (item (dim s) 1) with (v1 (dim s)) in *. lia.
      + destruct (Hroomy 2) as [?|?]; [do 2 right; by left|by left|right].
        change (item (dim s) 2) with (v2 (dim s)) in *. lia.
    - intros m1 m2 t1 t2 Hm H1 H2. apply (Hred m1 m2); [done| |].
      + unfold pc_terms in H1. apply lookup_zip_with_Some in H1
          as (r & e & -> & Hr & _). unfold pc_hop_ind in *. by rewrite <- Hp.
      + unfold pc_terms in H2. apply lookup_zip_with_Some in H2
          as (r & e & -> & Hr & _). unfold pc_hop_ind in *. by rewrite <- Hp. }
  apply conj_pair_free_zip. subst raw. unfold raw_hop.
  destruct (match use_fast with Some b => b | None => _ end) eqn:Hf.
  - assert (vacancy_list s = []) as Hnil.
    { destruct use_fast as [[|]|]; [by apply Hfast|done|].
      rewrite Hv in Hf. apply Nat.eqb_eq in Hf. by destruct (vacancy_list s). }
    pose proof (sync_array_current s false (or_intror Hsound)) as Hcur.
    fold s' in Hcur. unfold arrays_current in Hcur.
    rewrite Hv, Hnil in Hcur. injection Hcur as _ Hvs Horb.
    destruct (_init_hop_fast_no_vacancy s' Hwf' Hok' Horb Hvs) as [-> _].
    rewrite zip_unzip3. rewrite Hvs in Hfree.
    eapply pairs_free_Permutation; [|exact Hfree].
    apply fmap_Permutation. rewrite <- bind_app.
    apply bind_Permutation. symmetry. apply filter_app_complement.
  - unfold _init_hop, core.build_hop. fold (pc_terms s').
    by rewrite zip_unzip3.
Qed.

(** C1, as the code has it: the arrays [get_hop] returns hold no two
    entries that are each other's transpose, [hop_i[k] == hop_j[l]] and
    [hop_j[k] == hop_i[l]], when the hopping table of the primitive cell is
    reduced by conjugate symmetry, the dimension is at least [2*N+1] along
    the periodic axes, and no two entries of the modifier name the same two
    orbitals in opposite order.  The fast algorithm is for supercells
    without vacancies. *)
Theorem get_hop_conj_pair_free (use_fast : option bool) (s : SuperCell) :
  wf s → hash_sound s → table_ok s → table_reduced s → roomy s →
  modifier_pair_free (hop_modifier s) →
  (use_fast = Some true → vacancy_list s = []) →
  ∃ out, get_hop use_fast s = ((sync_array false s).1, Ok out)
         ∧ conj_pair_free out.1.1 out.1.2.
Proof.
  intros Hwf Hsound Hok Hred Hroomy Hmod Hfast.
  rewrite get_hop_run. eexists. split; [done|]. unfold hop_of.
  destruct (sync_array_attrs false s) as (_ & _ & _ & _ & _ & Hm & _).
  rewrite Hm.
  destruct (raw_hop_length use_fast (sync_array false s).1) as [Hlj _].
  apply apply_hop_modifier_pair_free; [done| |done].
  by apply raw_hop_pair_free.
Qed.

End ConjugatePairs.

(** C1, as it is worded, fails.  The modifier of [chain4_conj] holds a
    hopping term (R, i, j, v) and its conjugate (-R, j, i, conj v); neither has
    a match in the raw arrays, which are all the loop of [get_hop] searches,
    and both are appended, at positions 3 and 4.  The two entries of
    [chain4_mod] have the same cell index and are two different hopping
    terms; they are appended at positions 3 and 4 too, each other's
    transpose with conjugate energies.  On [ring2] the dimension 2 is more
    than the minimum 1 that the constructor asks for and less than the
    [2*N+1] of the NOTES of [OrbitalSet]: the raw arrays themselves hold
    the pair, at positions 0 and 1. *)
Lemma get_hop_conjugate_entries :
  (∃ e1 e2 out, hop_modifier chain4_conj = [e1; e2]
     ∧ conjugate_keys e1.1 e2.1 ∧ e2.2 = conjugate e1.2
     ∧ (get_hop (H := example_hash) None chain4_conj).2 = Ok out
     ∧ conjugate_entries out 3 4)
  ∧ (∃ out, (get_hop (H := example_hash) None chain4_mod).2 = Ok out
            ∧ conjugate_entries out 3 4)
  ∧ (∃ out, SuperCell_init (H := example_hash) site [2; 1; 1]
              [true; false; false] None None = Ok ring2
            ∧ (get_hop (H := example_hash) None ring2).2 = Ok out
            ∧ conjugate_entries out 0 1).
Proof.
  split_and!.
  - exists (HopInd (Vec3 1 0 0) 0 2, Complex 1 1),
      (HopInd (Vec3 (-1) 0 0) 2 0, Complex 1 (-1)),
      ([1; 3; 5; 0; 2], [2; 4; 6; 2; 0],
       [Complex 1 0; Complex 1 0; Complex 1 0; Complex 1 1; Complex 1 (-1)]).
    split_and!; [reflexivity|done|reflexivity|vm_compute; reflexivity|].
    exists 0, 2, (Complex 1 1). by vm_compute.
  - exists ([1; 3; 5; 0; 2], [2; 4; 6; 2; 0],
            [Complex 1 0; Complex 1 0; Complex 1 0; Complex 1 1; Complex 1 (-1)]).
    split; [vm_compute; reflexivity|].
    exists 0, 2, (Complex 1 1). by vm_compute.
  - exists ([0; 1], [1; 0], [Complex 1 0; Complex 1 0]).
    split_and!; [vm_compute; reflexivity..|].
    exists 0, 1, (Complex 1 0). by vm_compute.
Qed.

Lemma ladder32_wf : wf ladder32.
Proof.
  split.
  - vm_compute. repeat split; discriminate.
  - vm_compute. discriminate.
  - constructor.
  - constructor.
Qed.

Lemma get_hop_conj_pair_free_witness :
  ∃ out, get_hop (H := example_hash) None ladder32
         = ((sync_array (H := example_hash) false ladder32).1, Ok out)
         ∧ conj_pair_free out.1.1 out.1.2.
Proof.
  apply (get_hop_conj_pair_free (H := example_hash) None ladder32).
  - apply ladder32_wf.
  - right. vm_compute. reflexivity.
  - repeat (constructor; try (vm_compute; repeat split; done)).
  - intros m1 m2 r1 r2 Hm H1 H2 (R0 & R1 & R2 & Hb & Hk).
    destruct m1 as [|[|m1]], m2 as [|[|m2]]; cbn in H1, H2; simplify_eq;
      cbn in *; lia.
  - intros i Hi. rewrite !elem_of_cons, elem_of_nil in Hi.
    destruct Hi as [->|[->|[->|[]]]]; vm_compute; [right|left|left]; done.
  - intros m1 m2 r1 r2 Hm H1 H2 [Hb Hk].
    destruct m1 as [|[|[|m1]]], m2 as [|[|[|m2]]]; cbn in H1, H2; simplify_eq;
      cbn in *; lia.
  - done.
Defined.

(** ** The merge applied twice *)

Lemma merge_hop_entry_write (hop_i hop_j : list Z) (hop_v : list complex)
    (new : hop_arrays) (entry : hop_ind_row * complex) :
  (merge_hop_entry hop_i hop_j (hop_v, new) entry).1
  = match write_of hop_i hop_j entry with
    | Some (n, v) => <[n := v]> hop_v
    | None => hop_v
    end.
Proof.
  unfold merge_hop_entry, write_of. destruct new as [[ni nj] nv].
  destruct (core.find_equiv_hopping _ _ _ _) as [same conj].
  by repeat case_match.
Qed.

Lemma write_of_None (hop_i hop_j : list Z) (entry : hop_ind_row * complex) :
  write_of hop_i hop_j entry = None ↔ is_new hop_i hop_j entry.
Proof.
  unfold write_of, is_new.
  destruct (core.find_equiv_hopping _ _ _ _) as [same conj].
  destruct (Z.eqb_spec same (-1)) as [->|Hs]; cbn [negb].
  - destruct (Z.eqb_spec conj (-1)) as [->|Hc]; cbn [negb]; [done|].
    split; [done|]. intros [= ?]. done.
  - split; [done|]. intros [= ? ?]. done.
Qed.

Lemma write_of_lt (hop_i hop_j : list Z) (entry : hop_ind_row * complex)
    (n : nat) (v : complex) :
  write_of hop_i hop_j entry = Some (n, v) → (n < length hop_i)%nat.
Proof.
  unfold write_of, core.find_equiv_hopping.
  set (bra := h_bra entry.1). set (ket := h_ket entry.1).
  destruct (find_pair_range hop_i hop_j bra ket 0) as [->|(k & -> & [[Hk _] _])].
  - cbn [Z.eqb negb].
    destruct (find_pair_range hop_i hop_j ket bra 0)
      as [->|(k & -> & [[Hk _] _])]; [done|].
    rewrite (proj2 (Z.eqb_neq _ (-1))) by lia. cbn [negb].
    intros [= <- _]. apply lookup_lt_Some in Hk. lia.
  - rewrite (proj2 (Z.eqb_neq _ (-1))) by lia. cbn [negb].
    intros [= <- _]. apply lookup_lt_Some in Hk. lia.
Qed.

(** The energies after the loop, position by position: the last energy
    written there, or the one that was there. *)
Lemma merge_hop_fold_lookup (hop_i hop_j : list Z)
    (entries : list (hop_ind_row * complex)) (hop_v : list complex)
    (new : hop_arrays) (n : nat) :
  (foldl (merge_hop_entry hop_i hop_j) (hop_v, new) entries).1 !! n
  = match last_write (write_of hop_i hop_j <$> entries) n with
    | Some v => if decide (n < length hop_v)%nat then Some v else None
    | None => hop_v !! n
    end.
Proof.
  revert hop_v new. induction entries as [|e entries IH]; intros hop_v new.
  { done. }
  cbn [foldl].
  destruct (merge_hop_entry hop_i hop_j (hop_v, new) e) as [hop_v' new'] eqn:Hm.
  rewrite IH. pose proof (merge_hop_entry_write hop_i hop_j hop_v new e) as Hw.
  rewrite Hm in Hw. cbn [fst] in Hw. subst hop_v'.
  rewrite fmap_cons. cbn [last_write].
  destruct (last_write (write_of hop_i hop_j <$> entries) n) as [v|].
  { destruct (write_of hop_i hop_j e) as [[k w]|]; [|done].
    by rewrite length_insert. }
  destruct (write_of hop_i hop_j e) as [[k w]|]; [|done].
  rewrite list_lookup_insert.
  destruct (decide (k = n)) as [->|Hk].
  - destruct (decide (n < length hop_v)%nat).
    + by rewrite decide_True.
    + rewrite decide_False by tauto. apply lookup_ge_None_2. lia.
  - by rewrite decide_False by tauto.
Qed.

Lemma last_write_Some {A} (f : A → option (nat * complex)) (l : list A)
    (n : nat) (v : complex) :
  last_write (f <$> l) n = Some v → ∃ x, x ∈ l ∧ f x = Some (n, v).
Proof.
  induction l as [|x l IH]; [done|]. rewrite fmap_cons. cbn [last_write].
  destruct (last_write (f <$> l) n) as [w|].
  - intros [= ->]. destruct IH as (y & Hy & Hf); [done|].
    exists y. split; [by right|done].
  - destruct (f x) as [[k w]|] eqn:Hx; [|done].
    destruct (decide (k = n)) as [->|]; [|done]. intros [= ->].
    exists x. split; [by left|done].
Qed.

Lemma last_write_ext {A} (f g : A → option (nat * complex)) (l : list A)
    (n : nat) :
  (∀ x v, x ∈ l → f x = Some (n, v) ↔ g x = Some (n, v)) →
  last_write (f <$> l) n = last_write (g <$> l) n.
Proof.
  induction l as [|x l IH]; intros Hfg; [done|].
  rewrite !fmap_cons. cbn [last_write].
  rewrite IH by (intros y v Hy; apply Hfg; by right).
  destruct (last_write (g <$> l) n); [done|].
  assert (∀ v, f x = Some (n, v) ↔ g x = Some (n, v)) as Hx
    by (intros v; apply Hfg; by left).
  destruct (f x) as [[k v]|] eqn:Hf, (g x) as [[k' v']|] eqn:Hg.
  - destruct (decide (k = n)) as [->|Hk].
    + pose proof (proj1 (Hx v) eq_refl) as [= -> ->]. by rewrite decide_True.
    + destruct (decide (k' = n)) as [->|Hk']; [|done].
      pose proof (proj2 (Hx v') eq_refl) as [= -> ->]. done.
  - destruct (decide (k = n)) as [->|Hk]; [|done].
    by pose proof (proj1 (Hx v) eq_refl).
  - destruct (decide (k' = n)) as [->|Hk]; [|done].
    by pose proof (proj2 (Hx v') eq_refl).
  - done.
Qed.

Lemma find_pair_app (hi hj ni nj : list Z) (x y pos : Z) :
  length hj = length hi → 0 ≤ pos →
  core.find_pair (hi ++ ni) (hj ++ nj) x y pos
  = if decide (core.find_pair hi hj x y pos = -1)
    then core.find_pair ni nj x y (pos + Z.of_nat (length hi))
    else core.find_pair hi hj x y pos.
Proof.
  revert hj pos. induction hi as [|i hi IH]; intros [|j hj] pos Hl Hpos;
    try done.
  { cbn. by rewrite Z.add_0_r. }
  cbn [app core.find_pair length].
  destruct ((i =? x) && (j =? y)).
  - by rewrite decide_False by lia.
  - rewrite IH by (cbn in Hl; lia).
    replace (pos + 1 + Z.of_nat (length hi))
      with (pos + Z.of_nat (S (length hi))) by lia. done.
Qed.

Section MergeAgain.
Variables (hop_i hop_j : list Z) (modifier : base.IntraHopping).
Hypothesis Hlen : length hop_j = length hop_i.

#[local] Abbreviation new := (filter (is_new hop_i hop_j) modifier).
#[local] Abbreviation out_i := (hop_i ++ (h_bra ∘ fst <$> new)).
#[local] Abbreviation out_j := (hop_j ++ (h_ket ∘ fst <$> new)).

Lemma new_pair_at (x y : Z) (k : nat) :
  pair_at (h_bra ∘ fst <$> new) (h_ket ∘ fst <$> new) x y k
  ↔ ∃ e, new !! k = Some e ∧ h_bra e.1 = x ∧ h_ket e.1 = y.
Proof.
  unfold pair_at. rewrite !list_lookup_fmap.
  destruct (new !! k) as [e|]; cbn.
  - split.
    + intros [[= <-] [= <-]]. by exists e.
    + intros (e' & [= <-] & <- & <-). done.
  - split; [by intros [? _]|]. by intros (e & ? & _).
Qed.

(** An entry with a match in the raw arrays has the same match in the
    arrays returned. *)
Lemma write_of_out_matched (e : hop_ind_row * complex) (n : nat) (v : complex) :
  write_of hop_i hop_j e = Some (n, v) → write_of out_i out_j e = Some (n, v).
Proof.
  unfold write_of, core.find_equiv_hopping.
  rewrite !find_pair_app by (done || lia).
  set (bra := h_bra e.1). set (ket := h_ket e.1).
  set (same := core.find_pair hop_i hop_j bra ket 0).
  set (conj := core.find_pair hop_i hop_j ket bra 0).
  destruct (decide (same = -1)) as [Hs|Hs].
  2: { by rewrite (proj2 (Z.eqb_neq _ _) Hs). }
  rewrite Hs. cbn [Z.eqb negb].
  destruct (decide (conj = -1)) as [Hc|Hc].
  { rewrite Hc. done. }
  rewrite (proj2 (Z.eqb_neq _ _) Hc). cbn [negb]. intros Hw.
  rewrite find_pair_none; [done|].
  intros k (e0 & Hk & Hb & Hk')%new_pair_at.
  apply list_elem_of_lookup_2, list_elem_of_filter in Hk as [Hnew _].
  apply is_new_no_pair in Hnew as [_ Hno]. rewrite Hb, Hk' in Hno.
  apply Hc. by apply find_pair_none.
Qed.

(** An entry that was appended is found at the first appended entry with
    its bra and ket. *)
Lemma write_of_out_new (e : hop_ind_row * complex) :
  e ∈ modifier → is_new hop_i hop_j e →
  ∃ j e0, write_of out_i out_j e = Some ((length hop_i + j)%nat, e.2)
          ∧ new !! j = Some e0
          ∧ h_bra e0.1 = h_bra e.1 ∧ h_ket e0.1 = h_ket e.1.
Proof.
  intros Hin Hnew. pose proof Hnew as [= Hs Hc].
  unfold write_of, core.find_equiv_hopping.
  rewrite !find_pair_app by (done || lia). rewrite Hs, Hc.
  rewrite !decide_True by done.
  set (bra := h_bra e.1) in *. set (ket := h_ket e.1) in *.
  destruct (find_pair_range (h_bra ∘ fst <$> new) (h_ket ∘ fst <$> new)
              bra ket (0 + Z.of_nat (length hop_i)))
    as [Hnone|(j & -> & [Hj _])].
  - apply find_pair_none_inv in Hnone; [|lia].
    assert (e ∈ new) as [k Hk]%list_elem_of_lookup
      by (by apply list_elem_of_filter).
    destruct (Hnone k). apply new_pair_at. by exists e.
  - rewrite (proj2 (Z.eqb_neq _ (-1))) by lia. cbn [negb].
    apply new_pair_at in Hj as (e0 & Hj & Hb & Hk).
    exists j, e0. split_and!; [|done..]. do 2 f_equal. lia.
Qed.

(** Merging the modifier once more into the arrays returned changes
    nothing. *)
Lemma merge_again (hop_v : list complex) :
  length hop_v = length hop_i →
  appended_agree hop_i hop_j modifier →
  let st := foldl (merge_hop_entry hop_i hop_j) (hop_v, ([], [], [])) modifier in
  foldl (merge_hop_entry (hop_i ++ st.2.1.1) (hop_j ++ st.2.1.2))
    (st.1 ++ st.2.2, ([], [], [])) modifier
  = (st.1 ++ st.2.2, ([], [], [])).
Proof.
  intros Hv Hagree st.
  destruct (merge_hop_fold hop_i hop_j modifier hop_v ([], [], []))
    as (v1 & Hst & Hl1).
  pose proof (merge_hop_fold_lookup hop_i hop_j modifier hop_v ([], [], []))
    as Hlook1.
  fold st in Hst, Hlook1. rewrite Hst in *. cbn [fst snd app] in *. clear st Hst.
  destruct (merge_hop_fold out_i out_j modifier (v1 ++ (snd <$> new))
              ([], [], [])) as (v2 & Hst2 & Hl2).
  pose proof (merge_hop_fold_lookup out_i out_j modifier
                (v1 ++ (snd <$> new)) ([], [], [])) as Hlook2.
  rewrite Hst2 in *. cbn [fst snd app] in *.
  assert (∀ e, e ∈ modifier → write_of out_i out_j e ≠ None) as Hall.
  { intros e He. destruct (write_of hop_i hop_j e) as [[k w]|] eqn:Hw.
    - by rewrite (write_of_out_matched e k w Hw).
    - apply write_of_None in Hw.
      by destruct (write_of_out_new e He Hw) as (j & e0 & -> & _). }
  assert (filter (is_new out_i out_j) modifier = []) as ->.
  { apply elem_of_nil_inv. intros e [Hnew He]%list_elem_of_filter.
    apply write_of_None in Hnew. by apply (Hall e). }
  cbn [fmap list_fmap]. f_equal.
  apply list_eq. intros n. rewrite Hlook2.
  destruct (last_write (write_of out_i out_j <$> modifier) n) as [v|] eqn:Hlw;
    [|done].
  destruct (decide (n < length (v1 ++ (snd <$> new)))%nat) as [Hn|Hn];
    [|symmetry; apply lookup_ge_None_2; lia].
  symmetry. destruct (decide (n < length hop_i)%nat) as [Hlt|Hge].
  - rewrite lookup_app_l by lia. rewrite Hlook1.
    rewrite <- (last_write_ext (write_of out_i out_j)), Hlw.
    { by rewrite decide_True by lia. }
    intros e w He. split.
    + intros Hw2. destruct (write_of hop_i hop_j e) as [[k u]|] eqn:Hw1.
      * rewrite (write_of_out_matched e k u Hw1) in Hw2. done.
      * apply write_of_None in Hw1.
        destruct (write_of_out_new e He Hw1) as (j & e0 & Hw & _).
        rewrite Hw in Hw2. injection Hw2 as ? ?. lia.
    + apply write_of_out_matched.
  - apply last_write_Some in Hlw as (e & He & Hw2).
    destruct (write_of hop_i hop_j e) as [[k u]|] eqn:Hw1.
    { pose proof (write_of_lt _ _ _ _ _ Hw1).
      rewrite (write_of_out_matched e k u Hw1) in Hw2.
      injection Hw2 as ? ?. lia. }
    apply write_of_None in Hw1.
    destruct (write_of_out_new e He Hw1) as (j & e0 & Hw & Hj & Hb & Hk).
    rewrite Hw in Hw2. injection Hw2 as <- <-.
    rewrite lookup_app_r by lia.
    replace (length hop_i + j - length v1)%nat with j by lia.
    rewrite list_lookup_fmap, Hj. cbn. f_equal.
    apply list_elem_of_lookup_2, list_elem_of_filter in Hj as [Hnew0 Hin0].
    by apply Hagree.
Qed.

End MergeAgain.

Section MergeIdempotent.
Context `{PyHash}.

(** C5: two successive calls of [get_hop] return equal arrays, and the
    second leaves the object as the first left it.  Merging the modifier
    once more into the arrays returned changes nothing either, because an
    entry overwrites the energy it finds and adds nothing to it, provided
    that the entries appended for the same bra and ket carry the same
    energy. *)
Theorem get_hop_merge_idempotent (use_fast : option bool) (s : SuperCell) :
  let first := get_hop use_fast s in
  let second := get_hop use_fast first.1 in
  let raw := raw_hop use_fast first.1 in
  second.2 = first.2 ∧ second.1 = first.1
  ∧ ∃ out, first.2 = Ok out
      ∧ (appended_agree raw.1.1 raw.1.2 (hop_modifier s) →
         apply_hop_modifier (hop_modifier s) out = out).
Proof.
  cbv zeta. rewrite (get_hop_run use_fast s). cbn [fst snd].
  rewrite get_hop_run, sync_array_idem. cbn [fst snd].
  split; [done|]. split; [done|]. eexists. split; [done|].
  set (s' := (sync_array false s).1).
  destruct (sync_array_attrs false s) as (_ & _ & _ & _ & _ & Hm & _).
  fold s' in Hm. unfold hop_of. rewrite Hm.
  set (raw := raw_hop use_fast s').
  destruct (raw_hop_length use_fast s') as [Hlj Hlv]. fold raw in Hlj, Hlv.
  intros Hagree.
  rewrite (apply_hop_modifier_fold (hop_modifier s) raw). cbv zeta.
  rewrite apply_hop_modifier_fold. cbv zeta. cbn [fst snd].
  rewrite (merge_again raw.1.1 raw.1.2 (hop_modifier s) Hlj raw.2 Hlv Hagree).
  cbn [fst snd]. by rewrite !app_nil_r.
Qed.

End MergeIdempotent.

(** C5, as it is worded, fails for the merge applied twice.  Both entries of
    [chain4_two] are appended by [get_hop]; merged once more into the arrays
    returned, both find the first of the two appended terms, and the second
    entry overwrites the energy of the first. *)
Lemma merge_twice_differs :
  ∃ out, (get_hop (H := example_hash) None chain4_two).2 = Ok out
    ∧ out = ([1; 3; 5; 0; 0], [2; 4; 6; 2; 2],
             [Complex 1 0; Complex 1 0; Complex 1 0; Complex 1 1; Complex 3 0])
    ∧ apply_hop_modifier (hop_modifier chain4_two) out
      = ([1; 3; 5; 0; 0], [2; 4; 6; 2; 2],
         [Complex 1 0; Complex 1 0; Complex 1 0; Complex 3 0; Complex 3 0])
    ∧ apply_hop_modifier (hop_modifier chain4_two) out ≠ out.
Proof.
  eexists. split; [vm_compute; reflexivity|]. split; [reflexivity|].
  split; [vm_compute; reflexivity|]. vm_compute. discriminate.
Qed.

Lemma get_hop_merge_idempotent_witness :
  ∃ out, (get_hop (H := example_hash) None ladder32).2 = Ok out
    ∧ apply_hop_modifier (hop_modifier ladder32) out = out.
Proof.
  destruct (get_hop_merge_idempotent (H := example_hash) None ladder32)
    as (_ & _ & out & Hout & Hagain).
  exists out. split; [exact Hout|]. apply Hagain.
  intros e1 e2 H1 H2 _ _ Hb Hk. unfold ladder32 in H1, H2.
  cbn [hop_modifier] in H1, H2.
  rewrite !elem_of_cons, elem_of_nil in H1, H2.
  destruct H1 as [->|[->|[->|[]]]], H2 as [->|[->|[->|[]]]];
    try reflexivity; cbn in Hb, Hk; discriminate.
Defined.
